(** * An edge-triggered epoll echo server: interaction-tree model

    Shallow embedding of [src/epoll-high-performance/server.cpp].

    Every thread body of the server ([main], [epollLoop], [handleClient])
    is an interaction tree over the system calls it issues.  The kernel is
    the environment: it answers each call with a [reply] (return value,
    [errno], and whatever it stored through the pointer arguments).  A run
    is observed as the list of calls issued together with their replies.

    The C integers ([int], [ssize_t]) are modelled in [Z].  The program
    adds only in [total += written] and [++i], where the sums stay below
    the value of [n] and [nfds] that the kernel returned, and forms
    [flags | O_NONBLOCK] with [Z.lor]; no operation can wrap around. *)

From Stdlib Require Import ZArith String List Lia Bool.
From Stdlib.Strings Require Import Byte.
From ITree Require Import ITree.
Import ListNotations ITreeNotations.
Local Open Scope string_scope.
Local Open Scope list_scope.
Local Open Scope Z_scope.
Local Open Scope itree_scope.

(* ================================================================= *)
(** ** Constants *)

(** Values the program takes from the Linux system headers
    ([errno.h], [fcntl.h], [sys/epoll.h], [sys/socket.h]). *)
Module Linux.
Definition EINTR : Z := 4.
Definition EAGAIN : Z := 11.
Definition EWOULDBLOCK : Z := 11.
Definition F_GETFL : Z := 3.
Definition F_SETFL : Z := 4.
Definition O_NONBLOCK : Z := 2048.            (* 04000 *)
Definition EPOLL_CTL_ADD : Z := 1.
Definition EPOLL_CTL_DEL : Z := 2.
Definition EPOLLIN : Z := 1.
Definition EPOLLET : Z := 2147483648.         (* 1u << 31 *)
Definition AF_INET : Z := 2.
Definition SOCK_STREAM : Z := 1.
Definition SOL_SOCKET : Z := 1.
Definition SO_REUSEADDR : Z := 2.
Definition SOMAXCONN : Z := 4096.
Definition INADDR_ANY : Z := 0.
(** [htons] on a little-endian host: swap the two bytes of a 16-bit value. *)
Definition htons (x : Z) : Z :=
  Z.lor (Z.shiftl (Z.land x 255) 8) (Z.land (Z.shiftr x 8) 255).
End Linux.
Import Linux.

(** server.cpp, lines 19-22. *)
Definition PORT : Z := 9090.
Definition MAX_EVENTS : Z := 1024.
Definition BUFFER_SIZE : Z := 4096.
Definition THREAD_POOL_SIZE : Z := 4.

(* ================================================================= *)
(** ** The system interface *)

(** [struct epoll_event], with the one member of the [data] union the
    program uses. *)
Record epoll_event : Type := EpollEvent { events : Z; data_fd : Z }.

(** A system call with the arguments the program passes.  Pointer
    arguments are given by what they point to: [write] by the bytes of
    the source range, [epoll_ctl] by the event structure ([None] for
    [nullptr]), [bind] by the fields of the address. *)
Inductive call : Type :=
| Socket (domain type protocol : Z)
| Setsockopt (fd level optname optval : Z)
| Bind (fd family addr port : Z)
| Listen (fd backlog : Z)
| Fcntl (fd cmd arg : Z)
| EpollCreate1 (flags : Z)
| EpollCtl (epfd op fd : Z) (ev : option epoll_event)
| EpollWait (epfd maxevents timeout : Z)
| Accept (fd : Z)
| Read (fd count : Z)
| Write (fd : Z) (bytes : list byte)
| Close (fd : Z).

(** What the kernel hands back: the return value, the value left in
    [errno] (meaningful after a failure), the bytes stored into a read
    buffer and the entries stored into an [epoll_wait] array. *)
Record reply : Type :=
  Reply { ret : Z; errno : Z; rbytes : list byte; revents : list epoll_event }.

(** A task object given to the pool: the closure
    [[epoll_fd, fd] { handleClient(epoll_fd, fd); }]. *)
Inductive task : Type :=
| HandleClient (epoll_fd fd : Z).

(** A thread body given to [std::thread]. *)
Inductive thread_body : Type :=
| EpollLoop (epoll_fd listen_fd : Z).

(** Actions that give nothing back to the caller. *)
Inductive output : Type :=
| Perror (msg : string)
| Cout (msg : string)
| PoolCreate (n : Z)
| Enqueue (t : task)
| SpawnDetached (b : thread_body)
| SleepFor (seconds : Z).

Variant sysE : Type -> Type :=
| Syscall (c : call) : sysE reply
| Output (o : output) : sysE unit.

Definition sys (c : call) : itree sysE reply := ITree.trigger (Syscall c).
Definition emit (o : output) : itree sysE unit := ITree.trigger (Output o).

(* ================================================================= *)
(** ** Arrays on the stack *)

(** The array after the kernel stored [xs] at its start: the first
    [length xs] cells are overwritten, the others keep their contents. *)
Definition store {A : Type} (arr xs : list A) : list A :=
  xs ++ skipn (List.length xs) arr.

(** The [len] cells starting at offset [off] (the range [arr + off],
    [len] of a call). *)
Definition slice {A : Type} (arr : list A) (off len : Z) : list A :=
  firstn (Z.to_nat len) (skipn (Z.to_nat off) arr).

(* ================================================================= *)
(** ** The program *)

(** server.cpp, lines 60-64. *)
Definition setNonBlocking (fd : Z) : itree sysE Z :=
  g <- sys (Fcntl fd F_GETFL 0) ;;
  let flags := ret g in
  if flags =? -1 then Ret (-1)
  else s <- sys (Fcntl fd F_SETFL (Z.lor flags O_NONBLOCK)) ;; Ret (ret s).

(** server.cpp, lines 72-77: the inner loop of [handleClient], for a
    chunk of [n] bytes held at the start of [buffer].  The loop variable
    is [total]. *)
Definition write_back_step (fd : Z) (buffer : list byte) (n : Z) (total : Z)
  : itree sysE (Z + unit) :=
  if total <? n then
    w <- sys (Write fd (slice buffer total (n - total))) ;;
    let written := ret w in
    if written <=? 0 then Ret (inr tt)
    else Ret (inl (total + written))
  else Ret (inr tt).

Definition write_back (fd : Z) (buffer : list byte) (n : Z) : itree sysE unit :=
  ITree.iter (write_back_step fd buffer n) 0.

(** The two calls that end a connection (lines 79-80 and 84-85). *)
Definition drop_connection (epoll_fd fd : Z) : itree sysE unit :=
  sys (EpollCtl epoll_fd EPOLL_CTL_DEL fd None) ;;
  sys (Close fd) ;;
  Ret tt.

(** server.cpp, lines 69-88: one iteration of the outer loop of
    [handleClient].  The loop carries the contents of [buffer]. *)
Definition handleClient_step (epoll_fd fd : Z) (buffer : list byte)
  : itree sysE (list byte + unit) :=
  r <- sys (Read fd BUFFER_SIZE) ;;
  let buffer := store buffer (rbytes r) in
  let n := ret r in
  if 0 <? n then
    write_back fd buffer n ;;
    Ret (inl buffer)
  else if n =? 0 then
    drop_connection epoll_fd fd ;;
    Ret (inr tt)
  else
    if (errno r =? EAGAIN) || (errno r =? EWOULDBLOCK) then Ret (inr tt)
    else
      drop_connection epoll_fd fd ;;
      Ret (inr tt).

(** server.cpp, lines 67-89.  [buffer] stands for the indeterminate
    initial contents of the local array [char buffer[BUFFER_SIZE]]. *)
Definition handleClient (epoll_fd fd : Z) (buffer : list byte) : itree sysE unit :=
  ITree.iter (handleClient_step epoll_fd fd) buffer.

(** server.cpp, lines 108-127: the accept loop run when the listening
    socket is ready. *)
Definition accept_step (epoll_fd listen_fd : Z) (_ : unit) : itree sysE (unit + unit) :=
  a <- sys (Accept listen_fd) ;;
  let client_fd := ret a in
  if client_fd <? 0 then
    if (errno a =? EAGAIN) || (errno a =? EWOULDBLOCK) then Ret (inr tt)
    else
      emit (Perror "accept") ;;
      Ret (inr tt)
  else
    setNonBlocking client_fd ;;
    sys (EpollCtl epoll_fd EPOLL_CTL_ADD client_fd
           (Some {| events := Z.lor EPOLLIN EPOLLET; data_fd := client_fd |})) ;;
    Ret (inl tt).

Definition accept_all (epoll_fd listen_fd : Z) : itree sysE unit :=
  ITree.iter (accept_step epoll_fd listen_fd) tt.

(** server.cpp, lines 104-131: what is done for one ready descriptor. *)
Definition dispatch (epoll_fd listen_fd fd : Z) : itree sysE unit :=
  if fd =? listen_fd then accept_all epoll_fd listen_fd
  else emit (Enqueue (HandleClient epoll_fd fd)).

(** An array cell outside the list (never read when the kernel keeps
    [epoll_wait]'s contract). *)
Definition no_event : epoll_event := {| events := 0; data_fd := -1 |}.

(** server.cpp, lines 103-132: the [for] loop over the ready events.
    The loop variable is [i]. *)
Definition for_events_step (epoll_fd listen_fd : Z) (evs : list epoll_event)
    (nfds : Z) (i : Z) : itree sysE (Z + unit) :=
  if i <? nfds then
    let fd := data_fd (nth (Z.to_nat i) evs no_event) in
    dispatch epoll_fd listen_fd fd ;;
    Ret (inl (i + 1))
  else Ret (inr tt).

Definition for_events (epoll_fd listen_fd : Z) (evs : list epoll_event) (nfds : Z)
  : itree sysE unit :=
  ITree.iter (for_events_step epoll_fd listen_fd evs nfds) 0.

(** server.cpp, lines 95-133: one iteration of the reactor loop.  The
    loop carries the contents of the array [events]. *)
Definition epollLoop_step (epoll_fd listen_fd : Z) (evs : list epoll_event)
  : itree sysE (list epoll_event + unit) :=
  w <- sys (EpollWait epoll_fd MAX_EVENTS (-1)) ;;
  let evs := store evs (revents w) in
  let nfds := ret w in
  if nfds <? 0 then
    if errno w =? EINTR then Ret (inl evs)
    else
      emit (Perror "epoll_wait") ;;
      Ret (inr tt)
  else
    for_events epoll_fd listen_fd evs nfds ;;
    Ret (inl evs).

(** server.cpp, lines 92-134.  [evs] stands for the indeterminate
    initial contents of the local array [events]. *)
Definition epollLoop (epoll_fd listen_fd : Z) (evs : list epoll_event)
  : itree sysE unit :=
  ITree.iter (epollLoop_step epoll_fd listen_fd) evs.

(** server.cpp, lines 137-177.  The last statement, [return 0], comes
    after a loop without exit. *)
Definition main : itree sysE Z :=
  s <- sys (Socket AF_INET SOCK_STREAM 0) ;;
  let listen_fd := ret s in
  if listen_fd <? 0 then emit (Perror "socket failed") ;; Ret 1 else
  sys (Setsockopt listen_fd SOL_SOCKET SO_REUSEADDR 1) ;;
  b <- sys (Bind listen_fd AF_INET INADDR_ANY (htons PORT)) ;;
  if ret b <? 0 then emit (Perror "bind failed") ;; Ret 1 else
  l <- sys (Listen listen_fd SOMAXCONN) ;;
  if ret l <? 0 then emit (Perror "listen failed") ;; Ret 1 else
  setNonBlocking listen_fd ;;
  c <- sys (EpollCreate1 0) ;;
  let epoll_fd := ret c in
  if epoll_fd <? 0 then emit (Perror "epoll_create1") ;; Ret 1 else
  sys (EpollCtl epoll_fd EPOLL_CTL_ADD listen_fd
         (Some {| events := Z.lor EPOLLIN EPOLLET; data_fd := listen_fd |})) ;;
  emit (PoolCreate THREAD_POOL_SIZE) ;;
  emit (SpawnDetached (EpollLoop epoll_fd listen_fd)) ;;
  emit (Cout "High-performance server listening on port 9090") ;;
  ITree.forever (emit (SleepFor 1)).

(* ================================================================= *)
(** ** Running a tree against a script of replies *)

(** One observed action: a system call with the kernel's reply, or an
    output. *)
Inductive entry : Type :=
| Sys (c : call) (r : reply)
| Out (o : output).

(** How a run ended: the body returned, or it was still going when the
    observation stopped. *)
Inductive outcome (R : Type) : Type :=
| Done (r : R)
| Pending.
Arguments Done {R} r.
Arguments Pending {R}.

(** The head of a tree, with the answer type of the event resolved. *)
Inductive head (R : Type) : Type :=
| HRet (r : R)
| HTau (t : itree sysE R)
| HSys (c : call) (k : reply -> itree sysE R)
| HOut (o : output) (t : itree sysE R).
Arguments HRet {R} r.
Arguments HTau {R} t.
Arguments HSys {R} c k.
Arguments HOut {R} o t.

Definition view {R : Type} (t : itree sysE R) : head R :=
  match observe t with
  | RetF r => HRet r
  | TauF t' => HTau t'
  | @VisF _ _ _ X e k =>
      match e in sysE X return (X -> itree sysE R) -> head R with
      | Syscall c => fun k => HSys c k
      | Output o => fun k => HOut o (k tt)
      end k
  end.

(** [exec fuel t script]: run [t] for at most [fuel] steps, answering
    its system calls from [script] in order.  The run is [Pending] when
    the steps or the replies run out. *)
Fixpoint exec {R : Type} (fuel : nat) (t : itree sysE R) (script : list reply)
  : list entry * outcome R :=
  match fuel with
  | O => ([], Pending)
  | S fuel' =>
      match view t with
      | HRet r => ([], Done r)
      | HTau t' => exec fuel' t' script
      | HSys c k =>
          match script with
          | [] => ([], Pending)
          | r :: script' =>
              let (tr, o) := exec fuel' (k r) script' in (Sys c r :: tr, o)
          end
      | HOut x t' =>
          let (tr, o) := exec fuel' t' script in (Out x :: tr, o)
      end
  end.

(** [runs n t tr o]: within [n] steps, [t] can issue exactly the calls
    of [tr], get the replies recorded there, and end as [o]. *)
Inductive runs {R : Type} : nat -> itree sysE R -> list entry -> outcome R -> Prop :=
| runs_cut n t : runs n t [] Pending
| runs_ret n t r : view t = HRet r -> runs (S n) t [] (Done r)
| runs_tau n t t' tr o :
    view t = HTau t' -> runs n t' tr o -> runs (S n) t tr o
| runs_sys n t c k r tr o :
    view t = HSys c k -> runs n (k r) tr o -> runs (S n) t (Sys c r :: tr) o
| runs_out n t x t' tr o :
    view t = HOut x t' -> runs n t' tr o -> runs (S n) t (Out x :: tr) o.

(** The replies recorded in a trace, in order. *)
Fixpoint replies (tr : list entry) : list reply :=
  match tr with
  | [] => []
  | Sys _ r :: tr' => r :: replies tr'
  | Out _ :: tr' => replies tr'
  end.

(* ================================================================= *)
(** ** The shape of the traces of [handleClient] *)

(** The test of line 83. *)
Definition would_block (r : reply) : bool :=
  (errno r =? EAGAIN) || (errno r =? EWOULDBLOCK).

(** Traces of the inner loop entered with running total [total]: a
    [write] of the unsent range as long as [total < n]; a positive
    result advances [total], any other result ends the loop. *)
Inductive write_trace (fd : Z) (buffer : list byte) (n : Z)
  : Z -> list entry -> outcome unit -> Prop :=
| wt_cut total : write_trace fd buffer n total [] Pending
| wt_full total o : n <= total -> write_trace fd buffer n total [] o
| wt_fail total w o :
    total < n -> ret w <= 0 ->
    write_trace fd buffer n total
      [Sys (Write fd (slice buffer total (n - total))) w] o
| wt_more total w tr o :
    total < n -> 0 < ret w ->
    write_trace fd buffer n (total + ret w) tr o ->
    write_trace fd buffer n total
      (Sys (Write fd (slice buffer total (n - total))) w :: tr) o.

(** Traces of [drop_connection]: the deregistration, then the [close]. *)
Inductive drop_trace (epoll_fd fd : Z) : list entry -> outcome unit -> Prop :=
| dt_none : drop_trace epoll_fd fd [] Pending
| dt_dereg d :
    drop_trace epoll_fd fd [Sys (EpollCtl epoll_fd EPOLL_CTL_DEL fd None) d] Pending
| dt_both d c o :
    drop_trace epoll_fd fd
      [Sys (EpollCtl epoll_fd EPOLL_CTL_DEL fd None) d; Sys (Close fd) c] o.

(** Traces of [handleClient] entered with array contents [buffer]. *)
Inductive handler_trace (epoll_fd fd : Z)
  : list byte -> list entry -> outcome unit -> Prop :=
| ht_cut buffer : handler_trace epoll_fd fd buffer [] Pending
| ht_writing buffer r ws :
    0 < ret r ->
    write_trace fd (store buffer (rbytes r)) (ret r) 0 ws Pending ->
    handler_trace epoll_fd fd buffer (Sys (Read fd BUFFER_SIZE) r :: ws) Pending
| ht_chunk buffer r ws tr o :
    0 < ret r ->
    write_trace fd (store buffer (rbytes r)) (ret r) 0 ws (Done tt) ->
    handler_trace epoll_fd fd (store buffer (rbytes r)) tr o ->
    handler_trace epoll_fd fd buffer (Sys (Read fd BUFFER_SIZE) r :: ws ++ tr) o
| ht_eof buffer r tl o :
    ret r = 0 ->
    drop_trace epoll_fd fd tl o ->
    handler_trace epoll_fd fd buffer (Sys (Read fd BUFFER_SIZE) r :: tl) o
| ht_again buffer r o :
    ret r < 0 -> would_block r = true ->
    handler_trace epoll_fd fd buffer [Sys (Read fd BUFFER_SIZE) r] o
| ht_error buffer r tl o :
    ret r < 0 -> would_block r = false ->
    drop_trace epoll_fd fd tl o ->
    handler_trace epoll_fd fd buffer (Sys (Read fd BUFFER_SIZE) r :: tl) o.

(** Entries by kind. *)
Definition is_write (e : entry) : bool :=
  match e with Sys (Write _ _) _ => true | _ => false end.
Definition is_read (e : entry) : bool :=
  match e with Sys (Read _ _) _ => true | _ => false end.
Definition is_epoll_ctl (e : entry) : bool :=
  match e with Sys (EpollCtl _ _ _ _) _ => true | _ => false end.
Definition is_close (e : entry) : bool :=
  match e with Sys (Close _) _ => true | _ => false end.

(* ================================================================= *)
(** ** The shape of the traces of the reactor *)

(** Traces of [setNonBlocking fd]. *)
Inductive snb_trace (fd : Z) : list entry -> outcome Z -> Prop :=
| st_cut : snb_trace fd [] Pending
| st_get_failed g o :
    ret g = -1 -> o = Pending \/ o = Done (-1) ->
    snb_trace fd [Sys (Fcntl fd F_GETFL 0) g] o
| st_get g :
    ret g <> -1 ->
    snb_trace fd [Sys (Fcntl fd F_GETFL 0) g] Pending
| st_set g s o :
    ret g <> -1 -> o = Pending \/ o = Done (ret s) ->
    snb_trace fd
      [Sys (Fcntl fd F_GETFL 0) g;
       Sys (Fcntl fd F_SETFL (Z.lor (ret g) O_NONBLOCK)) s] o.

(** The registration of an accepted connection (lines 123-126). *)
Definition register_client (epoll_fd client_fd : Z) : call :=
  EpollCtl epoll_fd EPOLL_CTL_ADD client_fd
    (Some {| events := Z.lor EPOLLIN EPOLLET; data_fd := client_fd |}).

(** Traces of the accept loop. *)
Inductive accept_trace (epoll_fd listen_fd : Z) : list entry -> outcome unit -> Prop :=
| at_cut : accept_trace epoll_fd listen_fd [] Pending
| at_again a o :
    ret a < 0 -> would_block a = true ->
    accept_trace epoll_fd listen_fd [Sys (Accept listen_fd) a] o
| at_failed a :
    ret a < 0 -> would_block a = false ->
    accept_trace epoll_fd listen_fd [Sys (Accept listen_fd) a] Pending
| at_logged a o :
    ret a < 0 -> would_block a = false ->
    accept_trace epoll_fd listen_fd
      [Sys (Accept listen_fd) a; Out (Perror "accept")] o
| at_setting a s o' :
    0 <= ret a -> snb_trace (ret a) s o' ->
    accept_trace epoll_fd listen_fd (Sys (Accept listen_fd) a :: s) Pending
| at_client a s v c tr o :
    0 <= ret a -> snb_trace (ret a) s (Done v) ->
    accept_trace epoll_fd listen_fd tr o ->
    accept_trace epoll_fd listen_fd
      (Sys (Accept listen_fd) a :: s ++ Sys (register_client epoll_fd (ret a)) c :: tr) o.

(** The descriptor of the [i]-th cell of the event array. *)
Definition event_fd (evs : list epoll_event) (i : Z) : Z :=
  data_fd (nth (Z.to_nat i) evs no_event).

(** Traces of the [for] loop entered with index [i]. *)
Inductive events_trace (epoll_fd listen_fd : Z) (evs : list epoll_event) (nfds : Z)
  : Z -> list entry -> outcome unit -> Prop :=
| et_cut i : events_trace epoll_fd listen_fd evs nfds i [] Pending
| et_done i o : nfds <= i -> events_trace epoll_fd listen_fd evs nfds i [] o
| et_accepting i d :
    i < nfds -> event_fd evs i = listen_fd ->
    accept_trace epoll_fd listen_fd d Pending ->
    events_trace epoll_fd listen_fd evs nfds i d Pending
| et_listener i d tr o :
    i < nfds -> event_fd evs i = listen_fd ->
    accept_trace epoll_fd listen_fd d (Done tt) ->
    events_trace epoll_fd listen_fd evs nfds (i + 1) tr o ->
    events_trace epoll_fd listen_fd evs nfds i (d ++ tr) o
| et_client i tr o :
    i < nfds -> event_fd evs i <> listen_fd ->
    events_trace epoll_fd listen_fd evs nfds (i + 1) tr o ->
    events_trace epoll_fd listen_fd evs nfds i
      (Out (Enqueue (HandleClient epoll_fd (event_fd evs i))) :: tr) o.

(** The call the reactor waits in (line 96). *)
Definition wait_call (epoll_fd : Z) : call := EpollWait epoll_fd MAX_EVENTS (-1).

(** Traces of [epollLoop] entered with array contents [evs]. *)
Inductive loop_trace (epoll_fd listen_fd : Z)
  : list epoll_event -> list entry -> outcome unit -> Prop :=
| lt_cut evs : loop_trace epoll_fd listen_fd evs [] Pending
| lt_interrupted evs w tr o :
    ret w < 0 -> errno w = EINTR ->
    loop_trace epoll_fd listen_fd (store evs (revents w)) tr o ->
    loop_trace epoll_fd listen_fd evs (Sys (wait_call epoll_fd) w :: tr) o
| lt_failed evs w :
    ret w < 0 -> errno w <> EINTR ->
    loop_trace epoll_fd listen_fd evs [Sys (wait_call epoll_fd) w] Pending
| lt_logged evs w o :
    ret w < 0 -> errno w <> EINTR ->
    loop_trace epoll_fd listen_fd evs
      [Sys (wait_call epoll_fd) w; Out (Perror "epoll_wait")] o
| lt_handling evs w body :
    0 <= ret w ->
    events_trace epoll_fd listen_fd (store evs (revents w)) (ret w) 0 body Pending ->
    loop_trace epoll_fd listen_fd evs (Sys (wait_call epoll_fd) w :: body) Pending
| lt_round evs w body tr o :
    0 <= ret w ->
    events_trace epoll_fd listen_fd (store evs (revents w)) (ret w) 0 body (Done tt) ->
    loop_trace epoll_fd listen_fd (store evs (revents w)) tr o ->
    loop_trace epoll_fd listen_fd evs (Sys (wait_call epoll_fd) w :: body ++ tr) o.

Definition is_wait (e : entry) : bool :=
  match e with Sys (EpollWait _ _ _) _ => true | _ => false end.

(* ================================================================= *)
(** ** Bytes on a connection *)

(** What the kernel guarantees about [read] and [write]: [read] never
    returns more than [count] and stores as many bytes as it returns;
    [write] never returns more than the length it was given. *)
Definition reply_ok (e : entry) : bool :=
  match e with
  | Sys (Read _ count) r =>
      (ret r <=? count) &&
      ((ret r <=? 0) || (Z.of_nat (List.length (rbytes r)) =? ret r))
  | Sys (Write _ bs) r => ret r <=? Z.of_nat (List.length bs)
  | _ => true
  end.

Definition kernel_contract (tr : list entry) : Prop := forallb reply_ok tr = true.

(** Every [write] of the trace reports progress. *)
Definition write_ok (e : entry) : bool :=
  match e with
  | Sys (Write _ _) r => 0 <? ret r
  | _ => true
  end.

Definition writes_succeed (tr : list entry) : Prop := forallb write_ok tr = true.

(** The bytes an entry takes from, or puts on, the connection [fd]. *)
Definition bytes_in (fd : Z) (e : entry) : list byte :=
  match e with
  | Sys (Read fd' _) r => if (fd' =? fd) && (0 <? ret r) then rbytes r else []
  | _ => []
  end.

Definition bytes_out (fd : Z) (e : entry) : list byte :=
  match e with
  | Sys (Write fd' bs) r => if fd' =? fd then firstn (Z.to_nat (ret r)) bs else []
  | _ => []
  end.

Definition received (fd : Z) (tr : list entry) : list byte := flat_map (bytes_in fd) tr.
Definition echoed (fd : Z) (tr : list entry) : list byte := flat_map (bytes_out fd) tr.

(** The number of bytes the writes of a trace reported as written. *)
Definition acked (e : entry) : Z :=
  match e with
  | Sys (Write _ _) r => Z.max 0 (ret r)
  | _ => 0
  end.

Fixpoint written (tr : list entry) : Z :=
  match tr with
  | [] => 0
  | e :: tr' => acked e + written tr'
  end.

(** [tr] is the trace of an invocation of [handleClient epoll_fd fd]
    that returned. *)
Definition invocation (epoll_fd fd : Z) (tr : list entry) : Prop :=
  exists buffer fuel script,
    exec fuel (handleClient epoll_fd fd buffer) script = (tr, Done tt).

(* ================================================================= *)
(** ** Properties of traces *)

(** The entry changes the life of a descriptor: it is an [epoll_ctl] or
    a [close]. *)
Definition is_lifecycle (e : entry) : bool := is_epoll_ctl e || is_close e.

(** What is left of a trace is empty or starts with the [read] of the
    next iteration of [handleClient]. *)
Definition next_is_read (fd : Z) (tr : list entry) : Prop :=
  tr = [] \/ exists r tr', tr = Sys (Read fd BUFFER_SIZE) r :: tr'.


(** What is left of a trace is empty or starts with the [epoll_wait] of
    the next iteration of [epollLoop]. *)
Definition next_is_wait (epoll_fd : Z) (tr : list entry) : Prop :=
  tr = [] \/ exists w tr', tr = Sys (wait_call epoll_fd) w :: tr'.

(** A task given to the pool is a [handleClient] on the reactor's epoll
    instance for a descriptor other than the listening one. *)
Definition enqueue_ok (epoll_fd listen_fd : Z) (e : entry) : bool :=
  match e with
  | Out (Enqueue (HandleClient e' fd)) => (e' =? epoll_fd) && negb (fd =? listen_fd)
  | _ => true
  end.

Definition is_enqueue (e : entry) : bool :=
  match e with Out (Enqueue _) => true | _ => false end.

(** No [read] follows a [write] on [fd] that failed. *)
Definition aborts_on_write_error (fd : Z) (tr : list entry) : Prop :=
  forall pre bs w post,
    tr = pre ++ Sys (Write fd bs) w :: post -> ret w <= 0 ->
    forallb (fun e => negb (is_read e)) post = true.

(** Replies used in examples. *)
Definition ok (v : Z) : reply :=
  {| ret := v; errno := 0; rbytes := []; revents := [] |}.
Definition failed (e : Z) : reply :=
  {| ret := -1; errno := e; rbytes := []; revents := [] |}.
Definition data (bs : list byte) : reply :=
  {| ret := Z.of_nat (List.length bs); errno := 0; rbytes := bs; revents := [] |}.
Definition ready (evs : list epoll_event) : reply :=
  {| ret := Z.of_nat (List.length evs); errno := 0; rbytes := []; revents := evs |}.

(** A buffer of zeros, and a payload of 5000 bytes, more than the
    buffer holds. *)
Definition zeros : list byte := repeat x00 (Z.to_nat BUFFER_SIZE).
Definition long_payload : list byte := repeat x61 4096 ++ repeat x62 904.

(** The peer sends "ping" and the write of the echo fails with EPIPE. *)
Definition write_error_script : list reply :=
  [data [x70; x69; x6e; x67]; failed 32; failed EAGAIN].

Definition write_error_trace : list entry :=
  [ Sys (Read 5 BUFFER_SIZE) (data [x70; x69; x6e; x67]);
    Sys (Write 5 [x70; x69; x6e; x67]) (failed 32);
    Sys (Read 5 BUFFER_SIZE) (failed EAGAIN) ].

(** The peer sends "hi", gets it back, and closes. *)
Definition eof_script : list reply := [data [x68; x69]; ok 2; ok 0; ok 0; ok 0].

Definition eof_trace : list entry :=
  [ Sys (Read 5 BUFFER_SIZE) (data [x68; x69]);
    Sys (Write 5 [x68; x69]) (ok 2);
    Sys (Read 5 BUFFER_SIZE) (ok 0);
    Sys (EpollCtl 3 EPOLL_CTL_DEL 5 None) (ok 0);
    Sys (Close 5) (ok 0) ].

(** The peer sends "hi", which goes back in two writes, and nothing
    more for now. *)
Definition again_script : list reply := [data [x68; x69]; ok 1; ok 1; failed EAGAIN].

Definition again_trace : list entry :=
  [ Sys (Read 5 BUFFER_SIZE) (data [x68; x69]);
    Sys (Write 5 [x68; x69]) (ok 1);
    Sys (Write 5 [x69]) (ok 1);
    Sys (Read 5 BUFFER_SIZE) (failed EAGAIN) ].

(** The listening socket 3 and the connection 7 are ready.  One
    connection is accepted as descriptor 8, the next [accept] fails with
    EMFILE; then [epoll_wait] is interrupted once and fails with EBADF. *)
Definition reactor_script : list reply :=
  [ ready [EpollEvent EPOLLIN 3; EpollEvent EPOLLIN 7];
    ok 8; ok 2; ok 0; ok 0; failed 24; failed EINTR; failed 9 ].

Definition accepting : list entry :=
  [ Sys (Accept 3) (ok 8);
    Sys (Fcntl 8 F_GETFL 0) (ok 2);
    Sys (Fcntl 8 F_SETFL 2050) (ok 0);
    Sys (EpollCtl 4 EPOLL_CTL_ADD 8 (Some {| events := 2147483649; data_fd := 8 |}))
      (ok 0);
    Sys (Accept 3) (failed 24);
    Out (Perror "accept") ].

Definition reactor_trace : list entry :=
  Sys (EpollWait 4 MAX_EVENTS (-1)) (ready [EpollEvent EPOLLIN 3; EpollEvent EPOLLIN 7])
  :: accepting ++
  [ Out (Enqueue (HandleClient 4 7));
    Sys (EpollWait 4 MAX_EVENTS (-1)) (failed EINTR);
    Sys (EpollWait 4 MAX_EVENTS (-1)) (failed 9);
    Out (Perror "epoll_wait") ].

(** An invocation in which the peer's bytes arrive as the chunks [cs],
    each is written back by one write, and the peer then closes. *)
Definition chunk_round (fd : Z) (c : list byte) : list entry :=
  [ Sys (Read fd BUFFER_SIZE) (data c);
    Sys (Write fd c) (ok (Z.of_nat (List.length c))) ].

Definition chunked_run (epoll_fd fd : Z) (cs : list (list byte)) : list entry :=
  flat_map (chunk_round fd) cs ++
  [ Sys (Read fd BUFFER_SIZE) (ok 0);
    Sys (EpollCtl epoll_fd EPOLL_CTL_DEL fd None) (ok 0);
    Sys (Close fd) (ok 0) ].

(** A chunk the kernel can return from one [read] into the buffer. *)
Definition chunk_ok (c : list byte) : Prop :=
  0 < Z.of_nat (List.length c) <= BUFFER_SIZE.

(** A connection closed by the peer before it sent anything. *)
Definition empty_session : list (list entry) :=
  [ [ Sys (Read 5 BUFFER_SIZE) (ok 0);
      Sys (EpollCtl 3 EPOLL_CTL_DEL 5 None) (ok 0);
      Sys (Close 5) (ok 0) ] ].

(* ================================================================= *)
(** ** The kernel's file status flags *)

(** The open descriptors and their file status flags. *)
Definition flag_table : Type := Z -> option Z.

Definition set_flags (T : flag_table) (fd v : Z) : flag_table :=
  fun x => if x =? fd then Some v else T x.

Section FileStatusFlags.
(** The bits [F_SETFL] can change (on Linux: [O_APPEND], [O_ASYNC],
    [O_DIRECT], [O_NOATIME] and [O_NONBLOCK]). *)
Variable settable : Z.

(** fcntl(2).  A call on a descriptor that is not open fails; a call
    that fails changes nothing.  [F_GETFL] returns the flags.
    [F_SETFL] gives the settable bits the value they have in [arg] and
    keeps the other bits. *)
Definition fcntl_agrees (T : flag_table) (e : entry) : Prop :=
  match e with
  | Sys (Fcntl fd cmd _) r =>
      ret r <> -1 ->
      exists old, T fd = Some old /\ (cmd = F_GETFL -> ret r = old)
  | _ => True
  end.

Definition fcntl_effect (T : flag_table) (e : entry) : flag_table :=
  match e with
  | Sys (Fcntl fd cmd arg) r =>
      match T fd with
      | Some old =>
          if (cmd =? F_SETFL) && negb (ret r =? -1)
          then set_flags T fd
                 (Z.lor (Z.land old (Z.lnot settable)) (Z.land arg settable))
          else T
      | None => T
      end
  | _ => T
  end.

Fixpoint flags_after (T : flag_table) (tr : list entry) : flag_table :=
  match tr with
  | [] => T
  | e :: tr' => flags_after (fcntl_effect T e) tr'
  end.

Fixpoint agrees (T : flag_table) (tr : list entry) : Prop :=
  match tr with
  | [] => True
  | e :: tr' => fcntl_agrees T e /\ agrees (fcntl_effect T e) tr'
  end.
End FileStatusFlags.

(** The settable bits on Linux: 02000, 020000, 040000, 01000000 and
    04000. *)
Definition linux_settable : Z := 1024 + 8192 + 16384 + 262144 + 2048.

(** A table with descriptor 5 open for reading and writing. *)
Definition one_socket : flag_table := fun x => if x =? 5 then Some 2 else None.

(* ================================================================= *)
(** ** Runs of [main] *)


(** The replies [setNonBlocking] uses: one when [F_GETFL] fails, two
    otherwise; and the calls it then makes on [fd]. *)
Definition snb_replies (rs : list reply) : bool :=
  match rs with
  | [g] => ret g =? -1
  | [g; _] => negb (ret g =? -1)
  | _ => false
  end.

Definition snb_calls (fd : Z) (rs : list reply) : list entry :=
  match rs with
  | [g] => [Sys (Fcntl fd F_GETFL 0) g]
  | [g; s] => [Sys (Fcntl fd F_GETFL 0) g;
               Sys (Fcntl fd F_SETFL (Z.lor (ret g) O_NONBLOCK)) s]
  | _ => []
  end.

(** The calls of [main] up to [listen], with their replies. *)
Definition listening (s x b l : reply) : list entry :=
  [ Sys (Socket AF_INET SOCK_STREAM 0) s;
    Sys (Setsockopt (ret s) SOL_SOCKET SO_REUSEADDR 1) x;
    Sys (Bind (ret s) AF_INET INADDR_ANY (htons PORT)) b;
    Sys (Listen (ret s) SOMAXCONN) l ].

(** A start in which only the registration of the listening socket
    fails (with ENOSPC). *)
Definition registration_failure_script : list reply :=
  [ok 3; ok 0; ok 0; ok 0; ok 2; ok 0; ok 4; failed 28].

Definition registration_failure_trace : list entry :=
  listening (ok 3) (ok 0) (ok 0) (ok 0) ++
  [ Sys (Fcntl 3 F_GETFL 0) (ok 2);
    Sys (Fcntl 3 F_SETFL 2050) (ok 0);
    Sys (EpollCreate1 0) (ok 4);
    Sys (EpollCtl 4 EPOLL_CTL_ADD 3 (Some {| events := 2147483649; data_fd := 3 |}))
      (failed 28);
    Out (PoolCreate 4);
    Out (SpawnDetached (EpollLoop 4 3));
    Out (Cout "High-performance server listening on port 9090");
    Out (SleepFor 1);
    Out (SleepFor 1) ].

(* ================================================================= *)
(** ** What the thread bodies may call *)

(** The calls of [handleClient epoll_fd fd]: a [read] of the whole
    buffer from [fd], a [write] to [fd], the deregistration of [fd] from
    [epoll_fd], the [close] of [fd]; no other call and no output. *)
Definition handler_call (epoll_fd fd : Z) (e : entry) : bool :=
  match e with
  | Sys (Read f count) _ => (f =? fd) && (count =? BUFFER_SIZE)
  | Sys (Write f _) _ => f =? fd
  | Sys (EpollCtl e' op f None) _ =>
      (e' =? epoll_fd) && (op =? EPOLL_CTL_DEL) && (f =? fd)
  | Sys (Close f) _ => f =? fd
  | _ => false
  end.

(** A [write] is given at least one byte and no more than the buffer
    holds. *)
Definition write_size_ok (e : entry) : bool :=
  match e with
  | Sys (Write _ bs) _ =>
      (0 <? Z.of_nat (List.length bs)) && (Z.of_nat (List.length bs) <=? BUFFER_SIZE)
  | _ => true
  end.

(** The calls of [epollLoop epoll_fd listen_fd]: the wait on
    [epoll_fd], [accept] on [listen_fd], [fcntl], the registration of a
    descriptor with [epoll_fd] for [EPOLLIN | EPOLLET]; its outputs are
    log lines and tasks. *)
Definition reactor_call (epoll_fd listen_fd : Z) (e : entry) : bool :=
  match e with
  | Sys (EpollWait e' m t) _ => (e' =? epoll_fd) && (m =? MAX_EVENTS) && (t =? -1)
  | Sys (Accept f) _ => f =? listen_fd
  | Sys (Fcntl _ cmd _) _ => (cmd =? F_GETFL) || (cmd =? F_SETFL)
  | Sys (EpollCtl e' op f (Some ev)) _ =>
      (e' =? epoll_fd) && (op =? EPOLL_CTL_ADD) &&
      (events ev =? Z.lor EPOLLIN EPOLLET) && (data_fd ev =? f)
  | Out (Perror _) => true
  | Out (Enqueue _) => true
  | _ => false
  end.

(** The tasks a trace gives to the pool, in order. *)
Fixpoint enqueued (tr : list entry) : list task :=
  match tr with
  | [] => []
  | Out (Enqueue t) :: tr' => t :: enqueued tr'
  | _ :: tr' => enqueued tr'
  end.

(** The descriptors a trace gets from [accept], and those it registers,
    in order. *)
Fixpoint accepted (tr : list entry) : list Z :=
  match tr with
  | [] => []
  | Sys (Accept _) a :: tr' =>
      if ret a <? 0 then accepted tr' else ret a :: accepted tr'
  | _ :: tr' => accepted tr'
  end.

Fixpoint registered (tr : list entry) : list Z :=
  match tr with
  | [] => []
  | Sys (EpollCtl _ _ fd (Some _)) _ :: tr' => fd :: registered tr'
  | _ :: tr' => registered tr'
  end.

(* ================================================================= *)
(** ** Runs that come to rest *)

(** [halts t script tr o rest]: fed the replies of [script], [t] issues
    [tr] in finitely many steps and then either returns, [rest] being
    the replies it has not used, or stands in a system call with no
    reply left. *)
Inductive halts {R : Type}
  : itree sysE R -> list reply -> list entry -> outcome R -> list reply -> Prop :=
| halts_ret t r script : view t = HRet r -> halts t script [] (Done r) script
| halts_tau t t' script tr o rest :
    view t = HTau t' -> halts t' script tr o rest -> halts t script tr o rest
| halts_wait t c k : view t = HSys c k -> halts t [] [] Pending []
| halts_sys t c k r script tr o rest :
    view t = HSys c k -> halts (k r) script tr o rest ->
    halts t (r :: script) (Sys c r :: tr) o rest
| halts_out t x t' script tr o rest :
    view t = HOut x t' -> halts t' script tr o rest ->
    halts t script (Out x :: tr) o rest.

(** [t] comes to rest on [script], with an outcome and unused replies
    that satisfy [Q]. *)
Definition rests {R : Type} (Q : outcome R -> list reply -> Prop)
    (t : itree sysE R) (script : list reply) : Prop :=
  exists tr o rest, halts t script tr o rest /\ Q o rest.

(** The outcome of one iteration of a loop: if the loop goes on, the
    iteration has used a reply of [script]. *)
Definition uses_reply {I R : Type} (script : list reply)
    (o : outcome (I + R)) (rest : list reply) : Prop :=
  forall i, o = Done (inl i) -> (List.length rest < List.length script)%nat.

Definition any_rest {R : Type} (o : outcome R) (rest : list reply) : Prop := True.

(** The calls and outputs of [main] from [epoll_create1] to the start
    of the reactor thread, for the listening socket [listen_fd]. *)
Definition starting (listen_fd : Z) (c r : reply) : list entry :=
  [ Sys (EpollCreate1 0) c;
    Sys (EpollCtl (ret c) EPOLL_CTL_ADD listen_fd
           (Some {| events := Z.lor EPOLLIN EPOLLET; data_fd := listen_fd |})) r;
    Out (PoolCreate THREAD_POOL_SIZE);
    Out (SpawnDetached (EpollLoop (ret c) listen_fd)) ].

(** What [main] does after it has started the reactor thread: its
    banner, then sleeping. *)
Definition serving (k : nat) : list entry :=
  Out (Cout "High-performance server listening on port 9090")
  :: repeat (Out (SleepFor 1)) k.

(* ================================================================= *)
(** ** The thread pool *)

(** server.cpp, lines 25-57.  The queue [tasks] is shared by the thread
    that calls [enqueue] and by the workers, and every access to it is
    made while holding [queue_mutex] (lines 33-37 and 46-47): the pool
    moves by whole critical sections.  [cond.wait(lock, pred)] returns
    only with the lock held and [pred] true, so that a worker leaves
    line 34 only when the queue is not empty; which worker leaves it,
    and when, is left to the schedule. *)

(** Where a worker thread stands in its loop (lines 30-39): at
    [cond.wait], holding no task, or in [task()] with the task it
    took. *)
Inductive worker : Type :=
| Waiting
| Running (t : task).

Record ThreadPool : Type := Pool { workers : list worker; tasks : list task }.

(** Lines 27-42: [n] workers, each at the top of its loop, and an empty
    queue.  The class declares no destructor, and [main] never leaves
    the scope of its pool. *)
Definition ThreadPool_init (n : nat) : ThreadPool :=
  {| workers := repeat Waiting n; tasks := [] |}.

(** Lines 44-50: [tasks.push]. *)
Definition enqueue (t : task) (p : ThreadPool) : ThreadPool :=
  {| workers := workers p; tasks := tasks p ++ [t] |}.

Fixpoint set_worker (i : nat) (w : worker) (ws : list worker) : list worker :=
  match ws, i with
  | [], _ => []
  | _ :: ws', O => w :: ws'
  | w' :: ws', S i' => w' :: set_worker i' w ws'
  end.

(** Lines 33-37: worker [i] leaves the wait with [tasks.front()], which
    it pops.  It cannot while the queue is empty. *)
Definition worker_take (i : nat) (p : ThreadPool) : option (task * ThreadPool) :=
  match nth_error (workers p) i, tasks p with
  | Some Waiting, t :: q =>
      Some (t, {| workers := set_worker i (Running t) (workers p); tasks := q |})
  | _, _ => None
  end.

(** Line 38: the task of worker [i] returns, and the worker is back at
    the top of its loop. *)
Definition worker_done (i : nat) (p : ThreadPool) : option ThreadPool :=
  match nth_error (workers p) i with
  | Some (Running _) =>
      Some {| workers := set_worker i Waiting (workers p); tasks := tasks p |}
  | _ => None
  end.

(** The body of a task (line 130): [handleClient(epoll_fd, fd)], whose
    local [buffer] starts with indeterminate contents. *)
Definition task_body (t : task) (buffer : list byte) : itree sysE unit :=
  match t with HandleClient epoll_fd fd => handleClient epoll_fd fd buffer end.

(** What happens to a pool: a call of [enqueue], worker [i] taking a
    task, the task of worker [i] returning. *)
Inductive action : Type :=
| Enq (t : task)
| Take (i : nat)
| Finish (i : nat).

(** One action on a pool, with the task it starts on a worker if it
    starts one; [None] when the action cannot happen in that state. *)
Definition pool_step (a : action) (p : ThreadPool)
  : option (ThreadPool * list (nat * task)) :=
  match a with
  | Enq t => Some (enqueue t p, [])
  | Take i =>
      match worker_take i p with
      | Some (t, p') => Some (p', [(i, t)])
      | None => None
      end
  | Finish i =>
      match worker_done i p with
      | Some p' => Some (p', [])
      | None => None
      end
  end.

(** A schedule run from [p]: the pool it leads to and the tasks
    started, each with its worker, in the order of their start. *)
Fixpoint pool_run (sched : list action) (p : ThreadPool)
  : option (ThreadPool * list (nat * task)) :=
  match sched with
  | [] => Some (p, [])
  | a :: sched' =>
      match pool_step a p with
      | None => None
      | Some (p', l) =>
          match pool_run sched' p' with
          | None => None
          | Some (p'', l') => Some (p'', l ++ l')
          end
      end
  end.

(** The tasks a schedule enqueues, in order, and the number of tasks
    that return in it. *)
Fixpoint enqs (sched : list action) : list task :=
  match sched with
  | [] => []
  | Enq t :: sched' => t :: enqs sched'
  | _ :: sched' => enqs sched'
  end.

Fixpoint finishes (sched : list action) : nat :=
  match sched with
  | [] => O
  | Finish _ :: sched' => S (finishes sched')
  | _ :: sched' => finishes sched'
  end.

(** The number of workers that are running a task. *)
Fixpoint busy (ws : list worker) : nat :=
  match ws with
  | [] => O
  | Running _ :: ws' => S (busy ws')
  | Waiting :: ws' => busy ws'
  end.

(** A run of the reactor in which one connection is reported ready by
    two successive waits. *)
Definition ready_twice (epoll_fd fd : Z) : list entry :=
  [ Sys (wait_call epoll_fd) (ready [EpollEvent EPOLLIN fd]);
    Out (Enqueue (HandleClient epoll_fd fd));
    Sys (wait_call epoll_fd) (ready [EpollEvent EPOLLIN fd]);
    Out (Enqueue (HandleClient epoll_fd fd));
    Sys (wait_call epoll_fd) (failed 9);
    Out (Perror "epoll_wait") ].

(* ================================================================= *)
(** ** The kernel's side of a connection *)

(** The entry is a [read] on [fd]. *)
Definition reads_from (fd : Z) (e : entry) : bool :=
  match e with Sys (Read f _) _ => f =? fd | _ => false end.

(** [serves fd buf tr buf']: the kernel holds the bytes [buf] that have
    arrived on connection [fd] and are not yet read, and answers the
    reads of [tr] from them; [buf'] is what is unread after [tr].  A
    successful [read] hands over the first bytes of [buf], as many as it
    returns.  The kernel reports would-block, or the end of the stream,
    only when nothing is unread.  A [read] that fails otherwise is not
    among the answers. *)
Inductive serves (fd : Z) : list byte -> list entry -> list byte -> Prop :=
| sv_nil buf : serves fd buf [] buf
| sv_data buf count r tr buf' :
    0 < ret r <= Z.of_nat (List.length buf) ->
    rbytes r = firstn (Z.to_nat (ret r)) buf ->
    serves fd (skipn (Z.to_nat (ret r)) buf) tr buf' ->
    serves fd buf (Sys (Read fd count) r :: tr) buf'
| sv_empty count r tr buf' :
    ret r = 0 \/ (ret r < 0 /\ would_block r = true) ->
    serves fd [] tr buf' ->
    serves fd [] (Sys (Read fd count) r :: tr) buf'
| sv_other e buf tr buf' :
    reads_from fd e = false ->
    serves fd buf tr buf' ->
    serves fd buf (e :: tr) buf'.

(** [served fd buf bursts session buf']: a connection watched in
    edge-triggered mode.  The readiness of [fd] is reported when bytes
    arrive (or the peer closes), not while bytes stay unread: the
    [i]-th invocation of the handler is started for the [i]-th arrival,
    finds the bytes left unread so far followed by the new ones, and has
    returned before the next is started. *)
Inductive served (fd : Z)
  : list byte -> list (list byte) -> list (list entry) -> list byte -> Prop :=
| sd_nil buf : served fd buf [] [] buf
| sd_cons buf b bursts tr session buf' buf'' :
    serves fd (buf ++ b) tr buf' ->
    served fd buf' bursts session buf'' ->
    served fd buf (b :: bursts) (tr :: session) buf''.

(** The calls of two threads, in the order in which the kernel takes
    them. *)
Inductive merge {A : Type} : list A -> list A -> list A -> Prop :=
| merge_nil : merge [] [] []
| merge_left x a b g : merge a b g -> merge (x :: a) b (x :: g)
| merge_right x a b g : merge a b g -> merge a (x :: b) (x :: g).

(** 5000 bytes that arrive at once and are read by one invocation, in
    two reads; the first chunk goes back in two writes. *)
Definition burst_script : list reply :=
  [ data (repeat x61 4096); ok 1000; ok 3096;
    data (repeat x62 904); ok 904; failed EAGAIN ].

Definition burst_session : list (list entry) :=
  [ fst (exec 20 (handleClient 3 5 zeros) burst_script) ].

(** Two invocations for connection 5 at the same time, on two workers:
    the peer has sent "ab"; the first invocation reads "a", the second
    reads "b" and writes it back, then the first writes "a" back. *)
Definition race_first : list entry :=
  [ Sys (Read 5 BUFFER_SIZE) (data [x61]);
    Sys (Write 5 [x61]) (ok 1);
    Sys (Read 5 BUFFER_SIZE) (failed EAGAIN) ].

Definition race_second : list entry :=
  [ Sys (Read 5 BUFFER_SIZE) (data [x62]);
    Sys (Write 5 [x62]) (ok 1);
    Sys (Read 5 BUFFER_SIZE) (failed EAGAIN) ].

Definition race_trace : list entry :=
  [ Sys (Read 5 BUFFER_SIZE) (data [x61]);
    Sys (Read 5 BUFFER_SIZE) (data [x62]);
    Sys (Write 5 [x62]) (ok 1);
    Sys (Write 5 [x61]) (ok 1);
    Sys (Read 5 BUFFER_SIZE) (failed EAGAIN);
    Sys (Read 5 BUFFER_SIZE) (failed EAGAIN) ].

(** The trace ends with a [read] that gave no bytes: it reported
    would-block and is the last call, or it reported the end of the
    stream or failed and is followed by the deregistration and the
    [close]. *)
Definition ends_by_read (epoll_fd fd : Z) (tr : list entry) : Prop :=
  exists pre r tl,
    tr = pre ++ Sys (Read fd BUFFER_SIZE) r :: tl /\
    ((ret r < 0 /\ would_block r = true /\ tl = []) \/
     ((ret r = 0 \/ (ret r < 0 /\ would_block r = false)) /\
      exists d c, tl = [Sys (EpollCtl epoll_fd EPOLL_CTL_DEL fd None) d;
                        Sys (Close fd) c])).


(* ================================================================= *)
(** ** Facts about runs *)

Lemma view_bind {R U : Type} (t : itree sysE R) (k : R -> itree sysE U) :
  view (ITree.bind t k) =
  match view t with
  | HRet r => view (k r)
  | HTau t' => HTau (ITree.bind t' k)
  | HSys c h => HSys c (fun x => ITree.bind (h x) k)
  | HOut x t' => HOut x (ITree.bind t' k)
  end.
Proof.
  unfold view.
  change (observe (ITree.bind t k)) with
    (observe (match observe t with
              | RetF r => k r
              | TauF t0 => Tau (ITree.bind t0 k)
              | @VisF _ _ _ X e h => Vis e (fun x : X => ITree.bind (h x) k)
              end)).
  destruct (observe t) as [r | t' | X e h]; cbn; auto.
  destruct e; reflexivity.
Qed.

Lemma view_iter {I R : Type} (step : I -> itree sysE (I + R)) (i : I) :
  view (ITree.iter step i) =
  view (ITree.bind (step i)
          (fun lr => match lr with
                     | inl l => Tau (ITree.iter step l)
                     | inr r => Ret r
                     end)).
Proof. reflexivity. Qed.

Lemma view_forever {R U : Type} (t : itree sysE R) :
  view (@ITree.forever sysE R U t) =
  view (ITree.bind t (fun _ => Tau (ITree.forever t))).
Proof. reflexivity. Qed.

Section RunFacts.
Context {R : Type}.
Implicit Types (t : itree sysE R) (tr : list entry) (o : outcome R).

Lemma runs_mono n m t tr o : runs n t tr o -> (n <= m)%nat -> runs m t tr o.
Proof.
  intros H. revert m. induction H; intros m Hm.
  - constructor.
  - destruct m; [lia|]. now constructor.
  - destruct m; [lia|]. eapply runs_tau; eauto. apply IHruns. lia.
  - destruct m; [lia|]. eapply runs_sys; eauto. apply IHruns. lia.
  - destruct m; [lia|]. eapply runs_out; eauto. apply IHruns. lia.
Qed.

(** A run depends on the tree through its head only. *)
Lemma runs_view n t t' tr o : view t = view t' -> runs n t tr o -> runs n t' tr o.
Proof.
  intros E H. destruct H.
  - constructor.
  - apply runs_ret. congruence.
  - eapply runs_tau; eauto. congruence.
  - eapply runs_sys; eauto. congruence.
  - eapply runs_out; eauto. congruence.
Qed.

Lemma exec_runs n t script tr o : exec n t script = (tr, o) -> runs n t tr o.
Proof.
  revert t script tr o. induction n as [|n IH]; intros t script tr o E; cbn in E.
  - inversion E. constructor.
  - destruct (view t) as [r | t' | c k | x t'] eqn:V.
    + inversion E. now constructor.
    + eapply runs_tau; eauto.
    + destruct script as [|r script]; [inversion E; constructor|].
      destruct (exec n (k r) script) as [tr' o'] eqn:E'. inversion E; subst.
      eapply runs_sys; eauto.
    + destruct (exec n t' script) as [tr' o'] eqn:E'. inversion E; subst.
      eapply runs_out; eauto.
Qed.

(** A run uses the replies of the script in order and no others. *)
Lemma exec_replies n t script tr o :
  exec n t script = (tr, o) -> exists rest, script = replies tr ++ rest.
Proof.
  revert t script tr o. induction n as [|n IH]; intros t script tr o E; cbn in E.
  - inversion E. now exists script.
  - destruct (view t) as [r | t' | c k | x t'] eqn:V.
    + inversion E. now exists script.
    + eauto.
    + destruct script as [|r script]; [inversion E; now exists []|].
      destruct (exec n (k r) script) as [tr' o'] eqn:E'. inversion E; subst.
      destruct (IH _ _ _ _ E') as [rest ->]. now exists rest.
    + destruct (exec n t' script) as [tr' o'] eqn:E'. inversion E; subst.
      destruct (IH _ _ _ _ E') as [rest ->]. now exists rest.
Qed.

(** A run that returned is reproduced by [exec] on its own replies,
    whatever follows them in the script. *)
Lemma runs_exec_done n t tr r rest :
  runs n t tr (Done r) -> exec n t (replies tr ++ rest) = (tr, Done r).
Proof.
  intros H. remember (Done r) as o eqn:Eo. revert Eo.
  induction H; intros Eo; try discriminate; cbn.
  - inversion Eo; subst. now rewrite H.
  - rewrite H. auto.
  - rewrite H. rewrite (IHruns Eo). reflexivity.
  - rewrite H. rewrite (IHruns Eo). reflexivity.
Qed.

Lemma runs_Ret_inv n (r : R) tr o :
  runs n (Ret r) tr o -> tr = [] /\ (o = Pending \/ o = Done r).
Proof.
  intros H. inversion H; subst; auto; try discriminate.
  cbn in H0. inversion H0. auto.
Qed.

Lemma runs_Tau_inv n t tr o :
  runs n (Tau t) tr o ->
  (tr = [] /\ o = Pending) \/ exists m, n = S m /\ runs m t tr o.
Proof.
  intros H. inversion H; subst; auto; try discriminate.
  cbn in H0. inversion H0; subst. right. eauto.
Qed.
End RunFacts.

(** The run of [t >>= k] is a run of [t] that was cut short, or a run
    of [t] to its result followed by a run of [k]. *)
Lemma runs_bind_inv {R U : Type} n (t : itree sysE R) (k : R -> itree sysE U) tr o :
  runs n (ITree.bind t k) tr o ->
  (o = Pending /\ runs n t tr Pending) \/
  exists tr1 tr2 r m,
    tr = tr1 ++ tr2 /\ runs n t tr1 (Done r) /\ runs m (k r) tr2 o /\ (m <= n)%nat.
Proof.
  revert t tr o. induction n as [|n IH]; intros t tr o H.
  - inversion H; subst. left. split; [reflexivity|constructor].
  - destruct (view t) as [r | t' | c h | x t'] eqn:V.
    + right. exists [], tr, r, (S n). repeat split; auto.
      * now apply runs_ret.
      * eapply runs_view; [|exact H]. rewrite view_bind, V. reflexivity.
    + inversion H; subst.
      * left. split; [reflexivity|constructor].
      * rewrite view_bind, V in H1. discriminate.
      * rewrite view_bind, V in H1. inversion H1; subst.
        destruct (IH _ _ _ H2) as [[-> Hp] | (tr1 & tr2 & r & m & -> & H1' & H2' & Hm)].
        -- left. split; auto. eapply runs_tau; eauto.
        -- right. exists tr1, tr2, r, m. repeat split; auto.
           eapply runs_tau; eauto.
      * rewrite view_bind, V in H1. discriminate.
      * rewrite view_bind, V in H1. discriminate.
    + inversion H; subst.
      * left. split; [reflexivity|constructor].
      * rewrite view_bind, V in H1. discriminate.
      * rewrite view_bind, V in H1. discriminate.
      * rewrite view_bind, V in H1. inversion H1; subst.
        destruct (IH _ _ _ H2) as [[-> Hp] | (tr1 & tr2 & r' & m & -> & H1' & H2' & Hm)].
        -- left. split; auto. eapply runs_sys; eauto.
        -- right. exists (Sys c0 r :: tr1), tr2, r', m. repeat split; auto.
           eapply runs_sys; eauto.
      * rewrite view_bind, V in H1. discriminate.
    + inversion H; subst.
      * left. split; [reflexivity|constructor].
      * rewrite view_bind, V in H1. discriminate.
      * rewrite view_bind, V in H1. discriminate.
      * rewrite view_bind, V in H1. discriminate.
      * rewrite view_bind, V in H1. inversion H1; subst.
        destruct (IH _ _ _ H2) as [[-> Hp] | (tr1 & tr2 & r' & m & -> & H1' & H2' & Hm)].
        -- left. split; auto. eapply runs_out; eauto.
        -- right. exists (Out x0 :: tr1), tr2, r', m. repeat split; auto.
           eapply runs_out; eauto.
Qed.

Lemma runs_bind_pending {R U : Type} n (t : itree sysE R) (k : R -> itree sysE U) tr :
  runs n t tr Pending -> runs n (ITree.bind t k) tr Pending.
Proof.
  intros H. remember Pending as o eqn:Eo. revert Eo.
  induction H; intros Eo; try discriminate.
  - constructor.
  - eapply runs_tau; [rewrite view_bind, H; reflexivity|]. auto.
  - eapply runs_sys; [rewrite view_bind, H; reflexivity|]. cbn. auto.
  - eapply runs_out; [rewrite view_bind, H; reflexivity|]. auto.
Qed.

Lemma runs_bind {R U : Type} n m (t : itree sysE R) (k : R -> itree sysE U) tr1 tr2 r o :
  runs n t tr1 (Done r) -> runs m (k r) tr2 o ->
  runs (n + m) (ITree.bind t k) (tr1 ++ tr2) o.
Proof.
  intros H. remember (Done r) as o1 eqn:Eo. revert Eo.
  induction H; intros Eo K; try discriminate.
  - inversion Eo; subst. cbn [app].
    eapply runs_mono with (n := m); [|lia].
    eapply runs_view; [|exact K]. rewrite view_bind, H. reflexivity.
  - cbn. eapply runs_tau; [rewrite view_bind, H; reflexivity|]. auto.
  - cbn. eapply runs_sys; [rewrite view_bind, H; reflexivity|]. cbn. auto.
  - cbn. eapply runs_out; [rewrite view_bind, H; reflexivity|]. auto.
Qed.

(** Loop rule: a property of the runs of [ITree.iter step i] follows
    from the runs of single iterations. *)
Lemma runs_iter_inv {I R : Type} (step : I -> itree sysE (I + R))
    (P : I -> list entry -> outcome R -> Prop) :
  (forall i n tr, runs n (step i) tr Pending -> P i tr Pending) ->
  (forall i n tr r o, runs n (step i) tr (Done (inr r)) -> P i tr o) ->
  (forall i n tr i' tr' o,
      runs n (step i) tr (Done (inl i')) -> P i' tr' o -> P i (tr ++ tr') o) ->
  forall n i tr o, runs n (ITree.iter step i) tr o -> P i tr o.
Proof.
  intros Hcut Hexit Hnext n.
  induction n as [n IH] using lt_wf_ind. intros i tr o H.
  apply (runs_view _ _ _ _ _ (view_iter step i)) in H.
  apply runs_bind_inv in H.
  destruct H as [[-> H] | (tr1 & tr2 & [i' | r] & m & -> & H1 & H2 & Hm)].
  - eauto.
  - apply runs_Tau_inv in H2. destruct H2 as [[-> ->] | (m' & -> & H2)].
    + eapply Hnext; [exact H1 | apply (Hcut _ O); constructor].
    + eapply Hnext; [exact H1 | apply (IH m'); [lia | exact H2]].
  - apply runs_Ret_inv in H2. destruct H2 as [-> _].
    rewrite app_nil_r. eauto.
Qed.

Lemma runs_iter_exit {I R : Type} (step : I -> itree sysE (I + R)) n i tr r :
  runs n (step i) tr (Done (inr r)) -> runs (n + 1) (ITree.iter step i) tr (Done r).
Proof.
  intros H. eapply runs_view; [symmetry; apply view_iter|].
  rewrite <- (app_nil_r tr). eapply runs_bind; eauto.
  now apply runs_ret.
Qed.

Lemma runs_iter_next {I R : Type} (step : I -> itree sysE (I + R)) n m i i' tr tr' o :
  runs n (step i) tr (Done (inl i')) -> runs m (ITree.iter step i') tr' o ->
  runs (n + S m) (ITree.iter step i) (tr ++ tr') o.
Proof.
  intros H1 H2. eapply runs_view; [symmetry; apply view_iter|].
  eapply runs_bind; eauto. cbn. eapply runs_tau; [reflexivity|]. exact H2.
Qed.

(** Runs of a call followed by a continuation. *)
Lemma runs_sys_inv {R : Type} n c (k : reply -> itree sysE R) tr o :
  runs n (ITree.bind (sys c) k) tr o ->
  (tr = [] /\ o = Pending) \/
  exists r tr' m, tr = Sys c r :: tr' /\ runs m (k r) tr' o /\ (m < n)%nat.
Proof.
  intros H. inversion H; subst; auto; try discriminate.
  cbn in H0. inversion H0; subst. right. exists r, tr0, n0. repeat split; auto.
  apply (runs_view _ _ (k r)) in H1; [exact H1 | reflexivity].
Qed.

Lemma runs_emit_inv {R : Type} n x (k : unit -> itree sysE R) tr o :
  runs n (ITree.bind (emit x) k) tr o ->
  (tr = [] /\ o = Pending) \/
  exists tr' m, tr = Out x :: tr' /\ runs m (k tt) tr' o /\ (m < n)%nat.
Proof.
  intros H. inversion H; subst; auto; try discriminate.
  cbn in H0. inversion H0; subst. right. exists tr0, n0. repeat split; auto.
  apply (runs_view _ _ (k tt)) in H1; [exact H1 | reflexivity].
Qed.

Lemma runs_sys_intro {R : Type} n c (k : reply -> itree sysE R) r tr o :
  runs n (k r) tr o -> runs (S n) (ITree.bind (sys c) k) (Sys c r :: tr) o.
Proof.
  intros H. eapply runs_sys; [reflexivity|].
  apply (runs_view _ (k r)); [reflexivity | exact H].
Qed.

Lemma runs_emit_intro {R : Type} n x (k : unit -> itree sysE R) tr o :
  runs n (k tt) tr o -> runs (S n) (ITree.bind (emit x) k) (Out x :: tr) o.
Proof.
  intros H. eapply runs_out; [reflexivity|].
  apply (runs_view _ (k tt)); [reflexivity | exact H].
Qed.

(* ================================================================= *)
(** ** Symbolic execution of runs *)

Ltac outcome_cases :=
  repeat match goal with
  | H : _ /\ _ |- _ => destruct H
  | H : _ \/ _ |- _ => destruct H
  | H : Done _ = Pending |- _ => discriminate H
  | H : Pending = Done _ |- _ => discriminate H
  | H : Done _ = Done _ |- _ => inversion H; clear H
  end.

(** Take one step of a run apart, following the head of the tree. *)
Ltac run_inv H :=
  cbv zeta in H;
  lazymatch type of H with
  | runs _ (ITree.bind (sys _) _) _ _ =>
      let r := fresh "r" in let tr := fresh "tr" in let m := fresh "m" in
      let E := fresh "E" in let Hm := fresh "Hm" in
      apply runs_sys_inv in H;
      destruct H as [[-> E] | (r & tr & m & -> & H & Hm)];
      [first [discriminate E | subst | idtac] |]
  | runs _ (ITree.bind (emit _) _) _ _ =>
      let tr := fresh "tr" in let m := fresh "m" in
      let E := fresh "E" in let Hm := fresh "Hm" in
      apply runs_emit_inv in H;
      destruct H as [[-> E] | (tr & m & -> & H & Hm)];
      [first [discriminate E | subst | idtac] |]
  | runs _ (Ret _) _ _ =>
      apply runs_Ret_inv in H; destruct H as [-> H]
  | runs _ (if ?b then _ else _) _ _ =>
      let B := fresh "B" in destruct b eqn:B
  end.

(* ================================================================= *)
(** ** [handleClient]: every run has the shape [handler_trace] *)

Lemma write_back_trace fd buffer n m total tr o :
  runs m (ITree.iter (write_back_step fd buffer n) total) tr o ->
  write_trace fd buffer n total tr o.
Proof.
  revert m total tr o. apply runs_iter_inv; unfold write_back_step.
  - intros total m tr H. run_inv H.
    + run_inv H; [constructor|]. run_inv H; run_inv H.
      * apply wt_fail; lia.
      * apply wt_more; [lia | lia | constructor].
    + run_inv H. constructor.
  - intros total m tr [] o H. run_inv H.
    + run_inv H. run_inv H; run_inv H; outcome_cases.
      apply wt_fail; lia.
    + run_inv H. apply wt_full. lia.
  - intros total m tr total' tr' o H P. run_inv H.
    + run_inv H. run_inv H; run_inv H; outcome_cases.
      subst. apply wt_more; [lia | lia | exact P].
    + run_inv H. outcome_cases.
Qed.

Lemma drop_connection_trace epoll_fd fd m tr o :
  runs m (drop_connection epoll_fd fd) tr o -> drop_trace epoll_fd fd tr o.
Proof.
  unfold drop_connection. intros H.
  run_inv H; [constructor|]. run_inv H; [constructor|]. run_inv H.
  constructor.
Qed.

Lemma drop_then_exit epoll_fd fd (I : Type) m tr o :
  runs m (drop_connection epoll_fd fd ;; Ret (@inr I unit tt)) tr o ->
  exists o', drop_trace epoll_fd fd tr o' /\
             (o = Pending \/ (o = Done (inr tt) /\ o' = Done tt)).
Proof.
  intros H. apply runs_bind_inv in H.
  destruct H as [[-> H] | (tr1 & tr2 & [] & k & -> & H1 & H2 & Hk)].
  - exists Pending. split; [eapply drop_connection_trace; eauto | auto].
  - run_inv H2. rewrite app_nil_r. apply drop_connection_trace in H1.
    exists (Done tt). split; auto. destruct H2; auto.
Qed.

Lemma drop_trace_any epoll_fd fd tr o :
  drop_trace epoll_fd fd tr (Done tt) -> drop_trace epoll_fd fd tr o.
Proof. intros H. inversion H; subst. constructor. Qed.

Lemma handleClient_trace epoll_fd fd m buffer tr o :
  runs m (handleClient epoll_fd fd buffer) tr o ->
  handler_trace epoll_fd fd buffer tr o.
Proof.
  unfold handleClient. revert m buffer tr o.
  apply runs_iter_inv; unfold handleClient_step.
  - intros buffer m tr H. run_inv H; [constructor|]. run_inv H; [|run_inv H].
    + apply runs_bind_inv in H.
      destruct H as [[_ H] | (tr1 & tr2 & [] & k & -> & H1 & H2 & Hk)].
      * apply ht_writing; [lia|]. eapply write_back_trace; exact H.
      * run_inv H2.
        apply ht_chunk; [lia | eapply write_back_trace; exact H1 | constructor].
    + apply drop_then_exit in H. destruct H as (o' & D & [_ | [? _]]); [|discriminate].
      apply ht_eof; [lia|].
      destruct o'; [destruct r0; now apply drop_trace_any | exact D].
    + run_inv H.
      * run_inv H. apply ht_again; [lia | exact B1].
      * apply drop_then_exit in H. destruct H as (o' & D & [_ | [? _]]); [|discriminate].
        apply ht_error; [lia | exact B1 |].
        destruct o'; [destruct r0; now apply drop_trace_any | exact D].
  - intros buffer m tr [] o H. run_inv H. run_inv H; [|run_inv H].
    + apply runs_bind_inv in H.
      destruct H as [[? _] | (tr1 & tr2 & [] & k & -> & H1 & H2 & Hk)]; [discriminate|].
      run_inv H2. outcome_cases.
    + apply drop_then_exit in H. destruct H as (o' & D & [? | [_ ->]]); [discriminate|].
      apply ht_eof; [lia | now apply drop_trace_any].
    + run_inv H.
      * run_inv H. apply ht_again; [lia | exact B1].
      * apply drop_then_exit in H. destruct H as (o' & D & [? | [_ ->]]); [discriminate|].
        apply ht_error; [lia | exact B1 | now apply drop_trace_any].
  - intros buffer m tr buffer' tr' o H P. run_inv H. run_inv H; [|run_inv H].
    + apply runs_bind_inv in H.
      destruct H as [[? _] | (tr1 & tr2 & [] & k & -> & H1 & H2 & Hk)]; [discriminate|].
      run_inv H2. outcome_cases. subst. rewrite app_nil_r. cbn.
      apply ht_chunk; [lia | eapply write_back_trace; exact H1 | exact P].
    + apply drop_then_exit in H. destruct H as (o' & D & [? | [? _]]); discriminate.
    + run_inv H.
      * run_inv H. outcome_cases.
      * apply drop_then_exit in H. destruct H as (o' & D & [? | [? _]]); discriminate.
Qed.

(** Conversely, every complete shape is the trace of a run. *)
Lemma write_trace_runs fd buffer n total tr :
  write_trace fd buffer n total tr (Done tt) ->
  exists m, runs m (ITree.iter (write_back_step fd buffer n) total) tr (Done tt).
Proof.
  intros H. remember (Done tt) as o eqn:Eo. revert Eo.
  induction H as [total | total o Hn | total w o Hn Hw | total w tr o Hn Hw H IH];
    intros Eo; subst; try discriminate.
  - exists (1 + 1)%nat. apply runs_iter_exit. unfold write_back_step.
    replace (total <? n) with false by (symmetry; apply Z.ltb_ge; lia).
    now apply runs_ret.
  - exists (2 + 1)%nat. apply runs_iter_exit. unfold write_back_step.
    replace (total <? n) with true by (symmetry; apply Z.ltb_lt; lia).
    apply runs_sys_intro. cbv zeta.
    replace (ret w <=? 0) with true by (symmetry; apply Z.leb_le; lia).
    now apply runs_ret.
  - destruct (IH eq_refl) as [m Hm]. exists (2 + S m)%nat.
    change (Sys (Write fd (slice buffer total (n - total))) w :: tr)
      with ([Sys (Write fd (slice buffer total (n - total))) w] ++ tr).
    eapply runs_iter_next; [|exact Hm]. unfold write_back_step.
    replace (total <? n) with true by (symmetry; apply Z.ltb_lt; lia).
    apply runs_sys_intro. cbv zeta.
    replace (ret w <=? 0) with false by (symmetry; apply Z.leb_gt; lia).
    now apply runs_ret.
Qed.

Lemma drop_trace_runs epoll_fd fd (I : Type) tr :
  drop_trace epoll_fd fd tr (Done tt) ->
  runs 4 (drop_connection epoll_fd fd ;; Ret (@inr I unit tt)) tr (Done (inr tt)).
Proof.
  intros H. inversion H; subst.
  rewrite <- (app_nil_r [_; _]).
  apply (runs_bind 3 1) with (r := tt); [|now apply runs_ret].
  unfold drop_connection. do 2 apply runs_sys_intro. now apply runs_ret.
Qed.

Lemma handler_trace_runs epoll_fd fd buffer tr :
  handler_trace epoll_fd fd buffer tr (Done tt) ->
  exists m, runs m (handleClient epoll_fd fd buffer) tr (Done tt).
Proof.
  intros H. remember (Done tt) as o eqn:Eo. revert Eo.
  induction H as [buffer | buffer r ws Hr W | buffer r ws tr o Hr W H IH
                  | buffer r tl o Hr D | buffer r o Hr B | buffer r tl o Hr B D];
    intros Eo; subst; try discriminate; unfold handleClient.
  - destruct (IH eq_refl) as [m Hm].
    apply write_trace_runs in W. destruct W as [k Hk].
    exists (S (k + 1) + S m)%nat.
    change (Sys (Read fd BUFFER_SIZE) r :: ws ++ tr)
      with ((Sys (Read fd BUFFER_SIZE) r :: ws) ++ tr).
    eapply runs_iter_next; [|exact Hm]. unfold handleClient_step.
    apply runs_sys_intro. cbv zeta.
    replace (0 <? ret r) with true by (symmetry; apply Z.ltb_lt; lia).
    rewrite <- (app_nil_r ws). eapply runs_bind; [exact Hk|]. now apply runs_ret.
  - exists (5 + 1)%nat. apply runs_iter_exit. unfold handleClient_step.
    apply runs_sys_intro. cbv zeta.
    replace (0 <? ret r) with false by (symmetry; apply Z.ltb_ge; lia).
    replace (ret r =? 0) with true by (symmetry; apply Z.eqb_eq; lia).
    now apply drop_trace_runs.
  - exists (2 + 1)%nat. apply runs_iter_exit. unfold handleClient_step.
    apply runs_sys_intro. cbv zeta.
    replace (0 <? ret r) with false by (symmetry; apply Z.ltb_ge; lia).
    replace (ret r =? 0) with false by (symmetry; apply Z.eqb_neq; lia).
    unfold would_block in B. rewrite B. now apply runs_ret.
  - exists (5 + 1)%nat. apply runs_iter_exit. unfold handleClient_step.
    apply runs_sys_intro. cbv zeta.
    replace (0 <? ret r) with false by (symmetry; apply Z.ltb_ge; lia).
    replace (ret r =? 0) with false by (symmetry; apply Z.eqb_neq; lia).
    unfold would_block in B. rewrite B. now apply drop_trace_runs.
Qed.

(** The two directions, for [exec]. *)
Lemma handleClient_exec_trace epoll_fd fd buffer fuel script tr o :
  exec fuel (handleClient epoll_fd fd buffer) script = (tr, o) ->
  handler_trace epoll_fd fd buffer tr o.
Proof. intros H. eapply handleClient_trace, exec_runs, H. Qed.

Lemma handler_trace_exec epoll_fd fd buffer tr rest :
  handler_trace epoll_fd fd buffer tr (Done tt) ->
  exists fuel,
    exec fuel (handleClient epoll_fd fd buffer) (replies tr ++ rest) = (tr, Done tt).
Proof.
  intros H. apply handler_trace_runs in H. destruct H as [m H].
  exists m. now apply runs_exec_done.
Qed.

(* ================================================================= *)
(** ** Bytes written by the inner loop *)

Lemma firstn_app_skipn {A : Type} (a b : nat) (l : list A) :
  firstn a l ++ firstn b (skipn a l) = firstn (a + b) l.
Proof.
  revert l. induction a as [|a IH]; intros l; cbn; [reflexivity|].
  destruct l as [|x l]; cbn; [now rewrite firstn_nil | now rewrite IH].
Qed.

Lemma slice_split {A : Type} (arr : list A) (off a b : Z) :
  0 <= off -> 0 <= a -> 0 <= b ->
  slice arr off a ++ slice arr (off + a) b = slice arr off (a + b).
Proof.
  intros Ho Ha Hb. unfold slice.
  replace (skipn (Z.to_nat (off + a)) arr)
    with (skipn (Z.to_nat a) (skipn (Z.to_nat off) arr))
    by (rewrite skipn_skipn; f_equal; lia).
  replace (Z.to_nat (a + b)) with (Z.to_nat a + Z.to_nat b)%nat by lia.
  apply firstn_app_skipn.
Qed.

Lemma slice_length {A : Type} (arr : list A) (off len : Z) :
  0 <= off -> 0 <= len -> off + len <= Z.of_nat (List.length arr) ->
  Z.of_nat (List.length (slice arr off len)) = len.
Proof.
  intros Ho Hl Hb. unfold slice. rewrite length_firstn, length_skipn. lia.
Qed.

Lemma firstn_slice {A : Type} (arr : list A) (off len k : Z) :
  k <= len -> firstn (Z.to_nat k) (slice arr off len) = slice arr off k.
Proof.
  intros Hk. unfold slice. rewrite firstn_firstn. f_equal. lia.
Qed.

Lemma slice_store {A : Type} (arr xs : list A) (off len : Z) :
  0 <= off -> 0 <= len -> off + len <= Z.of_nat (List.length xs) ->
  slice (store arr xs) off len = slice xs off len.
Proof.
  intros Ho Hl Hb. unfold slice, store.
  rewrite skipn_app, firstn_app, length_skipn.
  replace (Z.to_nat len - (List.length xs - Z.to_nat off))%nat with O by lia.
  cbn. now rewrite app_nil_r.
Qed.

Lemma store_length {A : Type} (arr xs : list A) :
  (List.length xs <= List.length (store arr xs))%nat.
Proof. unfold store. rewrite length_app. lia. Qed.

Lemma kernel_contract_cons e tr :
  kernel_contract (e :: tr) <-> reply_ok e = true /\ kernel_contract tr.
Proof. unfold kernel_contract. cbn. apply andb_true_iff. Qed.

Lemma kernel_contract_app tr1 tr2 :
  kernel_contract (tr1 ++ tr2) <-> kernel_contract tr1 /\ kernel_contract tr2.
Proof. unfold kernel_contract. rewrite forallb_app. apply andb_true_iff. Qed.

Lemma writes_succeed_cons e tr :
  writes_succeed (e :: tr) <-> write_ok e = true /\ writes_succeed tr.
Proof. unfold writes_succeed. cbn. apply andb_true_iff. Qed.

Lemma writes_succeed_app tr1 tr2 :
  writes_succeed (tr1 ++ tr2) <-> writes_succeed tr1 /\ writes_succeed tr2.
Proof. unfold writes_succeed. rewrite forallb_app. apply andb_true_iff. Qed.

Lemma written_app tr1 tr2 : written (tr1 ++ tr2) = written tr1 + written tr2.
Proof. induction tr1 as [|e tr1 IH]; cbn; [reflexivity | rewrite IH; lia]. Qed.

Lemma written_nonneg tr : 0 <= written tr.
Proof.
  induction tr as [|e tr IH]; cbn; [lia|].
  assert (0 <= acked e) by (destruct e as [[] ?|]; cbn; lia). lia.
Qed.

Lemma echoed_cons fd e tr : echoed fd (e :: tr) = bytes_out fd e ++ echoed fd tr.
Proof. reflexivity. Qed.

Lemma received_cons fd e tr : received fd (e :: tr) = bytes_in fd e ++ received fd tr.
Proof. reflexivity. Qed.

Lemma echoed_app fd tr1 tr2 : echoed fd (tr1 ++ tr2) = echoed fd tr1 ++ echoed fd tr2.
Proof. apply flat_map_app. Qed.

Lemma received_app fd tr1 tr2 :
  received fd (tr1 ++ tr2) = received fd tr1 ++ received fd tr2.
Proof. apply flat_map_app. Qed.

(** The inner loop issues writes only. *)
Lemma write_trace_writes fd buffer n total ws o :
  write_trace fd buffer n total ws o -> forallb is_write ws = true.
Proof. induction 1; cbn; auto. Qed.

(** A run of the inner loop that is observed for a shorter time. *)
Lemma write_trace_prefix fd buffer n total tr o :
  write_trace fd buffer n total tr o ->
  forall ws rest, tr = ws ++ rest -> write_trace fd buffer n total ws Pending.
Proof.
  induction 1 as [total | total o Hn | total w o Hn Hw | total w tr o Hn Hw H IH];
    intros ws rest E.
  - symmetry in E. apply app_eq_nil in E. destruct E as [-> _]. constructor.
  - symmetry in E. apply app_eq_nil in E. destruct E as [-> _]. constructor.
  - destruct ws as [|e ws]; [constructor|]. inversion E; subst.
    symmetry in H1. apply app_eq_nil in H1. destruct H1 as [-> _].
    now apply wt_fail.
  - destruct ws as [|e ws]; [constructor|]. inversion E; subst.
    apply wt_more; eauto.
Qed.

(** What a run of the inner loop has put on the connection: the bytes
    of the chunk from [total] on, as many as were reported written. *)
Lemma write_trace_bytes fd buffer n total ws o :
  write_trace fd buffer n total ws o ->
  kernel_contract ws ->
  0 <= total <= n -> n <= Z.of_nat (List.length buffer) ->
  total + written ws <= n /\
  echoed fd ws = slice buffer total (written ws) /\
  received fd ws = [] /\
  (writes_succeed ws -> o = Done tt -> total + written ws = n).
Proof.
  induction 1 as [total | total o Hn | total w o Hn Hw | total w tr o Hn Hw H IH];
    intros K Ht Hb.
  - cbn. rewrite Z.add_0_r. repeat split; try lia. intros _ E. discriminate.
  - cbn. rewrite Z.add_0_r. repeat split; lia.
  - cbn. rewrite Z.eqb_refl. rewrite Z.max_l by lia.
    replace (Z.to_nat (ret w)) with O by lia. cbn. repeat split; try lia.
    intros S _. apply writes_succeed_cons in S. cbn in S. destruct S as [S _].
    apply Z.ltb_lt in S. lia.
  - apply kernel_contract_cons in K. destruct K as [Kw K]. cbn in Kw.
    apply Z.leb_le in Kw. rewrite slice_length in Kw by lia.
    destruct (IH K) as (I1 & I2 & I3 & I4); [lia | lia |].
    cbn [written acked]. rewrite Z.max_r by lia.
    pose proof (written_nonneg tr) as Hp.
    rewrite echoed_cons, received_cons, I2, I3. cbn [bytes_out bytes_in app].
    rewrite Z.eqb_refl.
    rewrite firstn_slice by lia. rewrite slice_split by lia.
    repeat split; try lia.
    intros S E. apply writes_succeed_cons in S. destruct S as [_ S].
    specialize (I4 S E). lia.
Qed.

(** The bytes each write of the inner loop is given: the chunk from the
    bytes written so far up to [n]. *)
Lemma write_trace_args fd buffer n total ws o :
  write_trace fd buffer n total ws o ->
  forall ws1 fd' bs w ws2,
    ws = ws1 ++ Sys (Write fd' bs) w :: ws2 ->
    kernel_contract ws1 ->
    fd' = fd /\
    bs = slice buffer (total + written ws1) (n - (total + written ws1)).
Proof.
  induction 1 as [total | total o Hn | total w o Hn Hw | total w tr o Hn Hw H IH];
    intros ws1 fd' bs w' ws2 E K.
  - now destruct ws1.
  - now destruct ws1.
  - destruct ws1 as [|e ws1]; [|inversion E; now destruct ws1].
    inversion E; subst. cbn. rewrite Z.add_0_r. auto.
  - destruct ws1 as [|e ws1].
    + inversion E; subst. cbn. rewrite Z.add_0_r. auto.
    + inversion E; subst. apply kernel_contract_cons in K. destruct K as [_ K].
      destruct (IH _ _ _ _ _ eq_refl K) as [-> ->]. split; [reflexivity|].
      cbn [written acked]. rewrite Z.max_r by lia. f_equal; lia.
Qed.

(* ================================================================= *)
(** ** Where a [read] stands in a trace of [handleClient] *)

Lemma split_after (p : entry -> bool) (ws tr pre post : list entry) (x : entry) :
  forallb p ws = true -> p x = false ->
  ws ++ tr = pre ++ x :: post ->
  exists pre', pre = ws ++ pre' /\ tr = pre' ++ x :: post.
Proof.
  revert pre. induction ws as [|w ws IH]; intros pre W X E; cbn in *.
  - now exists pre.
  - apply andb_true_iff in W. destruct W as [Ww W].
    destruct pre as [|q pre]; inversion E; subst; [congruence|].
    destruct (IH pre W X H1) as (pre' & -> & ->). now exists pre'.
Qed.

Lemma drop_trace_not_read epoll_fd fd tl o pre fd' c r post :
  drop_trace epoll_fd fd tl o -> tl <> pre ++ Sys (Read fd' c) r :: post.
Proof.
  intros D E. inversion D; subst.
  - now destruct pre.
  - destruct pre as [|? [|? ?]]; discriminate.
  - destruct pre as [|? [|? [|? ?]]]; discriminate.
Qed.

(** The first entry of a trace of [handleClient] is its [read]. *)
Lemma handler_trace_head epoll_fd fd buffer e tr o :
  handler_trace epoll_fd fd buffer (e :: tr) o ->
  exists r, e = Sys (Read fd BUFFER_SIZE) r.
Proof. inversion 1; subst; eauto. Qed.

(** Every [read] of a trace is the first call of an iteration: what
    comes before it are chunks read and written back, what follows is
    again a trace of the handler, and can be exchanged for any other. *)
Lemma handler_trace_at_read epoll_fd fd buffer tr o :
  handler_trace epoll_fd fd buffer tr o ->
  forall pre fd' c r post,
    tr = pre ++ Sys (Read fd' c) r :: post ->
    fd' = fd /\ c = BUFFER_SIZE /\
    forallb (fun e => is_read e || is_write e) pre = true /\
    exists buffer',
      handler_trace epoll_fd fd buffer' (Sys (Read fd BUFFER_SIZE) r :: post) o /\
      forall post' o',
        handler_trace epoll_fd fd buffer' (Sys (Read fd BUFFER_SIZE) r :: post') o' ->
        handler_trace epoll_fd fd buffer (pre ++ Sys (Read fd BUFFER_SIZE) r :: post') o'.
Proof.
  induction 1 as [buffer | buffer r0 ws Hr W | buffer r0 ws tr o Hr W H IH
                  | buffer r0 tl o Hr D | buffer r0 o Hr B | buffer r0 tl o Hr B D];
    intros pre fd' c r post E.
  - now destruct pre.
  - destruct pre as [|p pre]; inversion E; subst.
    + repeat split; auto. exists buffer. split; [now apply ht_writing | auto].
    + apply write_trace_writes in W. rewrite forallb_app in W.
      apply andb_true_iff in W. destruct W as [_ W]. cbn in W. discriminate.
  - destruct pre as [|p pre]; inversion E; subst.
    + repeat split; auto. exists buffer. split; [now apply ht_chunk | auto].
    + pose proof (write_trace_writes _ _ _ _ _ _ W) as Ww.
      destruct (split_after is_write ws tr pre post (Sys (Read fd' c) r) Ww eq_refl H2)
        as (pre' & -> & ->).
      destruct (IH _ _ _ _ _ eq_refl) as (-> & -> & Hpre & buffer' & Hs & Hc).
      repeat split; auto.
      * cbn. rewrite forallb_app, Hpre, andb_true_r.
        clear -Ww. induction ws as [|w ws IHw]; cbn in *; auto.
        apply andb_true_iff in Ww. destruct Ww as [Hw Ww].
        rewrite Hw, orb_true_r. cbn. auto.
      * exists buffer'. split; [exact Hs|]. intros post' o' Hn.
        cbn. rewrite <- app_assoc. apply ht_chunk; auto.
  - destruct pre as [|p pre]; inversion E; subst.
    + repeat split; auto. exists buffer. split; [now apply ht_eof | auto].
    + exfalso. eapply drop_trace_not_read; eauto.
  - destruct pre as [|p pre]; inversion E; subst.
    + repeat split; auto. exists buffer. split; [now apply ht_again | auto].
    + now destruct pre.
  - destruct pre as [|p pre]; inversion E; subst.
    + repeat split; auto. exists buffer. split; [now apply ht_error | auto].
    + exfalso. eapply drop_trace_not_read; eauto.
Qed.

(* ================================================================= *)
(** ** The echo *)

Lemma drop_trace_bytes epoll_fd fd tl o :
  drop_trace epoll_fd fd tl o -> echoed fd tl = [] /\ received fd tl = [].
Proof. inversion 1; cbn; auto. Qed.

Lemma slice_all {A : Type} (xs : list A) (n : Z) :
  Z.of_nat (List.length xs) = n -> slice xs 0 n = xs.
Proof. intros E. unfold slice. cbn. apply firstn_all2. lia. Qed.

(** An invocation that returned, with every write successful, has
    written what it has read. *)
Lemma handler_trace_echo epoll_fd fd buffer tr o :
  handler_trace epoll_fd fd buffer tr o ->
  kernel_contract tr -> writes_succeed tr -> o = Done tt ->
  echoed fd tr = received fd tr.
Proof.
  induction 1 as [buffer | buffer r ws Hr W | buffer r ws tr o Hr W H IH
                  | buffer r tl o Hr D | buffer r o Hr B | buffer r tl o Hr B D];
    intros K S E; try discriminate.
  - apply kernel_contract_cons in K. destruct K as [Kr K].
    apply kernel_contract_app in K. destruct K as [Kw K].
    apply writes_succeed_cons in S. destruct S as [_ S].
    apply writes_succeed_app in S. destruct S as [Sw S].
    cbn in Kr. apply andb_true_iff in Kr. destruct Kr as [_ Kr].
    apply orb_true_iff in Kr. destruct Kr as [Kr | Kr]; [apply Z.leb_le in Kr; lia|].
    apply Z.eqb_eq in Kr.
    pose proof (store_length buffer (rbytes r)) as Hl.
    destruct (write_trace_bytes _ _ _ _ _ _ W Kw) as (_ & Ew & Rw & Full); [lia | lia |].
    specialize (Full Sw eq_refl). cbn in Full.
    rewrite echoed_cons, received_cons, echoed_app, received_app, Ew, Rw, (IH K S E).
    cbn [bytes_out bytes_in app]. rewrite Z.eqb_refl.
    replace (0 <? ret r) with true by (symmetry; apply Z.ltb_lt; lia). cbn [andb].
    rewrite Full, slice_store by lia. now rewrite slice_all.
  - rewrite echoed_cons, received_cons. destruct (drop_trace_bytes _ _ _ _ D) as [-> ->].
    cbn. rewrite Z.eqb_refl. now replace (0 <? ret r) with false by (symmetry; apply Z.ltb_ge; lia).
  - cbn. rewrite Z.eqb_refl. now replace (0 <? ret r) with false by (symmetry; apply Z.ltb_ge; lia).
  - rewrite echoed_cons, received_cons. destruct (drop_trace_bytes _ _ _ _ D) as [-> ->].
    cbn. rewrite Z.eqb_refl. now replace (0 <? ret r) with false by (symmetry; apply Z.ltb_ge; lia).
Qed.

(** Invocations that have returned, one after the other, with every
    write successful: what was written back is what was read. *)
Lemma session_echo epoll_fd fd (session : list (list entry)) :
  Forall (invocation epoll_fd fd) session ->
  kernel_contract (concat session) ->
  writes_succeed (concat session) ->
  echoed fd (concat session) = received fd (concat session).
Proof.
  intros Inv K S. induction Inv as [|tr session Htr _ IH]; [reflexivity|].
  cbn [concat] in *. apply kernel_contract_app in K. destruct K as [K1 K2].
  apply writes_succeed_app in S. destruct S as [S1 S2].
  rewrite echoed_app, received_app, (IH K2 S2). f_equal.
  destruct Htr as (buffer & fuel & script & E).
  eapply handler_trace_echo; eauto using handleClient_exec_trace.
Qed.

Lemma serves_no_read fd e buf tr buf' :
  reads_from fd e = false -> serves fd buf (e :: tr) buf' -> serves fd buf tr buf'.
Proof.
  intros N H. inversion H; subst; auto; cbn in N; now rewrite Z.eqb_refl in N.
Qed.

Lemma serves_skip fd ws buf tr buf' :
  forallb (fun e => negb (reads_from fd e)) ws = true ->
  serves fd buf (ws ++ tr) buf' -> serves fd buf tr buf'.
Proof.
  induction ws as [|e ws IH]; cbn; intros N H; [exact H|].
  apply andb_true_iff in N. destruct N as [Ne N].
  apply IH; [exact N|]. eapply serves_no_read; eauto. now apply negb_true_iff.
Qed.

Lemma serves_unread fd tl buf buf' :
  forallb (fun e => negb (reads_from fd e)) tl = true ->
  serves fd buf tl buf' -> buf' = buf.
Proof.
  intros N H. rewrite <- (app_nil_r tl) in H. apply serves_skip in H; [|exact N].
  now inversion H.
Qed.

Lemma writes_not_reads fd ws :
  forallb is_write ws = true ->
  forallb (fun e => negb (reads_from fd e)) ws = true /\ received fd ws = [].
Proof.
  induction ws as [|e ws IH]; [auto|]. intros H. cbn [forallb] in *.
  apply andb_true_iff in H. destruct H as [He H]. destruct (IH H) as [-> R].
  rewrite received_cons, R.
  destruct e as [[] r | x]; cbn in He; try discriminate. auto.
Qed.

Lemma drop_not_reads epoll_fd fd tl o :
  drop_trace epoll_fd fd tl o ->
  forallb (fun e => negb (reads_from fd e)) tl = true.
Proof. inversion 1; reflexivity. Qed.

(** An invocation that has returned has read everything the kernel
    held for the connection. *)
Lemma handler_trace_serves epoll_fd fd buffer tr o :
  handler_trace epoll_fd fd buffer tr o -> o = Done tt ->
  forall buf buf', serves fd buf tr buf' -> buf' = [] /\ received fd tr = buf.
Proof.
  induction 1 as [buffer | buffer r ws Hr W | buffer r ws tr o Hr W H IH
                  | buffer r tl o Hr D | buffer r o Hr B | buffer r tl o Hr B D];
    intros E buf buf' V; try discriminate;
    inversion V as [ | b0 n0 r0 t0 b1 Hn Hb V' | n0 r0 t0 b1 He V' | e0 b0 t0 b1 Hx V'];
    subst; try (cbn in Hx; rewrite Z.eqb_refl in Hx; discriminate Hx);
    try lia.
  - destruct (writes_not_reads fd ws (write_trace_writes _ _ _ _ _ _ W)) as [Nw Rw].
    apply serves_skip in V'; [|exact Nw].
    destruct (IH eq_refl _ _ V') as [-> R]. split; [reflexivity|].
    rewrite received_cons, received_app, Rw, R. cbn [bytes_in app].
    rewrite Z.eqb_refl. replace (0 <? ret r) with true by (symmetry; apply Z.ltb_lt; lia).
    cbn [andb]. rewrite Hb. apply firstn_skipn.
  - apply serves_unread in V'; [|eapply drop_not_reads; eauto]. subst buf'.
    split; [reflexivity|]. rewrite received_cons.
    destruct (drop_trace_bytes _ _ _ _ D) as [_ ->]. cbn. rewrite Z.eqb_refl.
    now replace (0 <? ret r) with false by (symmetry; apply Z.ltb_ge; lia).
  - inversion V'; subst. split; [reflexivity|]. cbn. rewrite Z.eqb_refl.
    now replace (0 <? ret r) with false by (symmetry; apply Z.ltb_ge; lia).
  - destruct He as [? | [_ ?]]; [lia | congruence].
Qed.

Lemma served_received epoll_fd fd buf bursts session left :
  served fd buf bursts session left ->
  Forall (invocation epoll_fd fd) session ->
  buf ++ concat bursts = received fd (concat session) ++ left /\
  (buf = [] -> left = []).
Proof.
  induction 1 as [buf | buf b bursts tr session buf' buf'' V _ IH]; intros Inv.
  - cbn. rewrite app_nil_r. auto.
  - inversion Inv as [|? ? Htr Inv']; subst.
    destruct Htr as (buffer & fuel & script & E).
    apply handleClient_exec_trace in E.
    destruct (handler_trace_serves _ _ _ _ _ E eq_refl _ _ V) as [-> R].
    destruct (IH Inv') as [Q L]. specialize (L eq_refl). subst buf''.
    cbn [concat]. rewrite received_app, R. cbn in Q. rewrite Q, app_nil_r.
    split; [|auto]. now rewrite <- !app_assoc, !app_nil_r.
Qed.

(** C1, for invocations that do not overlap.  A payload [P] arrives on
    a connection in any number of bursts, each of any size, and the
    handler is invoked once for each arrival, one invocation after the
    other.  If every read is answered from the bytes that have arrived
    (would-block and end of stream only when none is unread) and every
    write reports progress, then when the last invocation has returned
    no byte is left unread, and the bytes the handler has read and the
    bytes it has written back, taken over all the invocations, are both
    [P]. *)
Theorem echo_identity
    (epoll_fd fd : Z) (P : list byte) (bursts : list (list byte))
    (session : list (list entry)) (left : list byte) :
  Forall (invocation epoll_fd fd) session ->
  concat bursts = P ->
  served fd [] bursts session left ->
  kernel_contract (concat session) ->
  writes_succeed (concat session) ->
  left = [] /\
  received fd (concat session) = P /\
  echoed fd (concat session) = P.
Proof.
  intros Inv <- V K S.
  destruct (served_received _ _ _ _ _ _ V Inv) as [Q L]. specialize (L eq_refl).
  subst left. cbn in Q. rewrite app_nil_r in Q.
  rewrite (session_echo _ _ _ Inv K S). auto.
Qed.

Lemma echo_identity_witness :
  (@nil byte = [] /\ received 5 (concat empty_session) = [] /\
   echoed 5 (concat empty_session) = []) /\
  (@nil byte = [] /\ received 5 (concat burst_session) = long_payload /\
   echoed 5 (concat burst_session) = long_payload).
Proof.
  split.
  - apply (echo_identity 3 5 [] [[]] empty_session []).
    + repeat constructor. exists zeros, 20%nat, [ok 0; ok 0; ok 0].
      vm_compute. reflexivity.
    + reflexivity.
    + eapply sd_cons; [|apply sd_nil]. cbn [app].
      apply sv_empty; [left; reflexivity|].
      apply sv_other; [reflexivity|]. apply sv_other; [reflexivity|]. apply sv_nil.
    + vm_compute. reflexivity.
    + vm_compute. reflexivity.
  - apply (echo_identity 3 5 long_payload [long_payload] burst_session []).
    + repeat constructor. exists zeros, 20%nat, burst_script.
      vm_compute. reflexivity.
    + vm_compute. reflexivity.
    + eapply sd_cons; [|apply sd_nil].
      unfold burst_session.
      replace (fst (exec 20 (handleClient 3 5 zeros) burst_script))
        with [ Sys (Read 5 BUFFER_SIZE) (data (repeat x61 4096));
               Sys (Write 5 (repeat x61 4096)) (ok 1000);
               Sys (Write 5 (repeat x61 3096)) (ok 3096);
               Sys (Read 5 BUFFER_SIZE) (data (repeat x62 904));
               Sys (Write 5 (repeat x62 904)) (ok 904);
               Sys (Read 5 BUFFER_SIZE) (failed EAGAIN) ]
        by (vm_compute; reflexivity).
      apply sv_data; [vm_compute; split; [reflexivity | discriminate] | vm_compute; reflexivity |].
      apply sv_other; [reflexivity|]. apply sv_other; [reflexivity|].
      apply sv_data; [vm_compute; split; [reflexivity | discriminate] | vm_compute; reflexivity |].
      apply sv_other; [reflexivity|].
      replace (skipn _ (skipn _ _)) with (@nil byte) by (vm_compute; reflexivity).
      apply sv_empty; [right; split; [reflexivity | reflexivity]|]. apply sv_nil.
    + vm_compute. reflexivity.
    + vm_compute. reflexivity.
Defined.

(** C1 as stated, counterexample.  The reactor is told twice that
    connection 5 is ready and gives the pool two tasks for it; two
    workers run them at the same time.  The peer has sent "ab": one
    invocation reads "a", the other reads "b" and writes it back, then
    the first writes "a" back.  Every read and every write succeeds,
    and the connection gets "ba". *)
Lemma overlapping_invocations_reorder :
  exec 40 (epollLoop 3 4 []) (replies (ready_twice 3 5)) =
    (ready_twice 3 5, Done tt) /\
  enqueued (ready_twice 3 5) = [HandleClient 3 5; HandleClient 3 5] /\
  pool_run [Enq (HandleClient 3 5); Enq (HandleClient 3 5); Take 0; Take 1]
           (ThreadPool_init 4) =
    Some ({| workers := [Running (HandleClient 3 5); Running (HandleClient 3 5);
                         Waiting; Waiting];
             tasks := [] |},
          [(0%nat, HandleClient 3 5); (1%nat, HandleClient 3 5)]) /\
  exec 10 (task_body (HandleClient 3 5) zeros) (replies race_first) =
    (race_first, Done tt) /\
  exec 10 (task_body (HandleClient 3 5) zeros) (replies race_second) =
    (race_second, Done tt) /\
  merge race_first race_second race_trace /\
  serves 5 [x61; x62] race_trace [] /\
  kernel_contract race_trace /\ writes_succeed race_trace /\
  received 5 race_trace = [x61; x62] /\
  echoed 5 race_trace = [x62; x61] /\
  echoed 5 race_trace <> received 5 race_trace.
Proof.
  repeat split; try (vm_compute; reflexivity); try discriminate.
  - unfold race_first, race_second, race_trace.
    apply merge_left, merge_right, merge_right, merge_left, merge_left, merge_right,
      merge_nil.
  - unfold race_trace.
    apply sv_data; [vm_compute; split; [reflexivity | discriminate] | reflexivity |].
    apply sv_data; [vm_compute; split; [reflexivity | discriminate] | reflexivity |].
    apply sv_other; [reflexivity|]. apply sv_other; [reflexivity|].
    apply sv_empty; [right; split; reflexivity|].
    apply sv_empty; [right; split; reflexivity|]. apply sv_nil.
Qed.

(** The premises of [echo_identity] can be met for every payload,
    however it is cut into chunks: [chunked_run] is an invocation that
    receives the chunks [cs] with every write successful.  (A payload [P]
    is cut into chunks by [map (fun b => [b]) P], among others.) *)
Lemma chunked_run_shape epoll_fd fd cs buffer :
  Forall chunk_ok cs ->
  handler_trace epoll_fd fd buffer (chunked_run epoll_fd fd cs) (Done tt).
Proof.
  intros H. revert buffer. induction H as [|c cs Hc _ IH]; intros buffer.
  - apply ht_eof; [reflexivity | constructor].
  - destruct Hc as [Hc _].
    change (chunked_run epoll_fd fd (c :: cs))
      with (Sys (Read fd BUFFER_SIZE) (data c)
              :: [Sys (Write fd c) (ok (Z.of_nat (List.length c)))]
              ++ chunked_run epoll_fd fd cs).
    apply ht_chunk; [exact Hc | | apply IH].
    cbn [data rbytes ret].
    assert (S : slice (store buffer c) 0 (Z.of_nat (List.length c) - 0) = c).
    { rewrite Z.sub_0_r, slice_store by lia. now apply slice_all. }
    rewrite <- S at 3. apply wt_more; [lia | exact Hc |].
    apply wt_full. cbn. lia.
Qed.

Lemma chunked_run_echo epoll_fd fd cs :
  Forall chunk_ok cs ->
  invocation epoll_fd fd (chunked_run epoll_fd fd cs) /\
  kernel_contract (chunked_run epoll_fd fd cs) /\
  writes_succeed (chunked_run epoll_fd fd cs) /\
  received fd (chunked_run epoll_fd fd cs) = concat cs.
Proof.
  intros H. split; [|split; [|split]].
  - destruct (handler_trace_exec _ _ zeros _ [] (chunked_run_shape epoll_fd fd cs zeros H))
      as [fuel E].
    exists zeros, fuel, (replies (chunked_run epoll_fd fd cs) ++ []). exact E.
  - unfold chunked_run. apply kernel_contract_app. split; [|reflexivity].
    induction H as [|c cs [Hc Hb] _ IH]; [reflexivity|].
    cbn [flat_map]. apply kernel_contract_app. split; [|exact IH].
    unfold kernel_contract. cbn.
    rewrite (proj2 (Z.leb_le _ _) Hb), Z.eqb_refl, orb_true_r, Z.leb_refl.
    reflexivity.
  - unfold chunked_run. apply writes_succeed_app. split; [|reflexivity].
    induction H as [|c cs [Hc Hb] _ IH]; [reflexivity|].
    cbn [flat_map]. apply writes_succeed_app. split; [|exact IH].
    unfold writes_succeed. cbn. now rewrite (proj2 (Z.ltb_lt _ _) Hc).
  - unfold chunked_run. rewrite received_app. cbn. rewrite Z.eqb_refl. cbn.
    rewrite app_nil_r.
    induction H as [|c cs [Hc Hb] _ IH]; [reflexivity|].
    cbn [flat_map concat]. rewrite received_app, IH. cbn.
    rewrite Z.eqb_refl, (proj2 (Z.ltb_lt _ _) Hc). cbn. now rewrite app_nil_r.
Qed.

Lemma chunked_run_served epoll_fd fd cs :
  Forall chunk_ok cs ->
  served fd [] [concat cs] [chunked_run epoll_fd fd cs] [].
Proof.
  intros H. eapply sd_cons; [|apply sd_nil]. cbn [app]. unfold chunked_run.
  induction H as [|c cs [Hc Hb] _ IH]; cbn [flat_map concat app].
  - apply sv_empty; [left; reflexivity|].
    repeat (apply sv_other; [reflexivity|]). apply sv_nil.
  - unfold chunk_round at 1. cbn [app]. apply sv_data.
    + cbn [ret data]. rewrite length_app. lia.
    + cbn [ret data rbytes]. rewrite Nat2Z.id, firstn_app, Nat.sub_diag, firstn_all.
      cbn. now rewrite app_nil_r.
    + cbn [ret data]. rewrite Nat2Z.id, skipn_app, Nat.sub_diag, skipn_all. cbn.
      apply sv_other; [reflexivity|]. exact IH.
Qed.

(* ================================================================= *)
(** ** Writing a chunk back *)

(** A write that fails is the last call of the inner loop. *)
Lemma write_trace_fail_last fd buffer n total ws o :
  write_trace fd buffer n total ws o ->
  forall ws1 fd' bs w ws2,
    ws = ws1 ++ Sys (Write fd' bs) w :: ws2 -> ret w <= 0 -> ws2 = [].
Proof.
  induction 1 as [total | total o Hn | total w o Hn Hw | total w tr o Hn Hw H IH];
    intros ws1 fd' bs w' ws2 E F.
  - now destruct ws1.
  - now destruct ws1.
  - destruct ws1 as [|e ws1]; inversion E; subst; [reflexivity | now destruct ws1].
  - destruct ws1 as [|e ws1]; inversion E; subst; [lia | eauto].
Qed.

Lemma handler_trace_next epoll_fd fd buffer tr o :
  handler_trace epoll_fd fd buffer tr o -> next_is_read fd tr.
Proof.
  intros H. destruct tr as [|e tr]; [now left|].
  destruct (handler_trace_head _ _ _ _ _ _ H) as [r ->]. right. eauto.
Qed.

Lemma replies_app tr1 tr2 : replies (tr1 ++ tr2) = replies tr1 ++ replies tr2.
Proof.
  induction tr1 as [|[c r|x] tr1 IH]; cbn; [reflexivity | now rewrite IH | exact IH].
Qed.

Lemma handler_trace_returned epoll_fd fd buffer tr :
  handler_trace epoll_fd fd buffer tr (Done tt) ->
  exists r tr', tr = Sys (Read fd BUFFER_SIZE) r :: tr'.
Proof. inversion 1; eauto. Qed.

(** [handleClient] returns after a [read] that gave no bytes, and in no
    other way. *)
Lemma handler_trace_ends epoll_fd fd buffer tr o :
  handler_trace epoll_fd fd buffer tr o -> o = Done tt ->
  ends_by_read epoll_fd fd tr.
Proof.
  induction 1 as [buffer | buffer r ws Hr W | buffer r ws tr o Hr W H IH
                  | buffer r tl o Hr D | buffer r o Hr B | buffer r tl o Hr B D];
    intros E; try discriminate.
  - destruct (IH E) as (pre & r' & tl & -> & J).
    exists (Sys (Read fd BUFFER_SIZE) r :: ws ++ pre), r', tl.
    split; [|exact J]. cbn. now rewrite <- app_assoc.
  - exists [], r, tl. split; [reflexivity|]. right. split; [now left|].
    subst o. inversion D; eauto.
  - exists [], r, []. split; [reflexivity|]. now left.
  - exists [], r, tl. split; [reflexivity|]. right. split; [now right|].
    subst o. inversion D; eauto.
Qed.

(** C2, as the code has it.  After a read that returned [n > 0] the
    handler writes the chunk back: [ws] are the writes of the inner loop
    (each is given the part of the chunk not yet written, a positive
    result is followed by the next write until [n] bytes are written, and
    a result [<= 0] ends the loop).  A failed write ends the writing of
    that chunk and nothing else: as after a chunk written in full, the
    next call of the handler is the [read] of the next iteration.  A
    handler that has returned did make that [read]; whatever writes end
    the inner loop, and in particular after a first write that fails,
    the run in which the next [read] follows them exists; and the
    handler returns only after a [read] that gave no bytes: would-block,
    the end of the stream, or an error. *)
Theorem write_back_then_next_read
    (epoll_fd fd : Z) (buffer : list byte) (fuel : nat) (script : list reply)
    (tr : list entry) (o : outcome unit)
    (pre : list entry) (fd' count : Z) (r : reply) (rest : list entry) :
  exec fuel (handleClient epoll_fd fd buffer) script = (tr, o) ->
  tr = pre ++ Sys (Read fd' count) r :: rest ->
  0 < ret r ->
  (exists buffer' ws rest' o',
    rest = ws ++ rest' /\
    write_trace fd (store buffer' (rbytes r)) (ret r) 0 ws o' /\
    (forall ws1 bs w ws2,
        ws = ws1 ++ Sys (Write fd bs) w :: ws2 -> ret w <= 0 -> ws2 = []) /\
    (o' = Pending -> rest' = [] /\ o = Pending) /\
    next_is_read fd rest' /\
    (o = Done tt -> exists r' tr', rest' = Sys (Read fd BUFFER_SIZE) r' :: tr') /\
    (forall ws' r',
        write_trace fd (store buffer' (rbytes r)) (ret r) 0 ws' (Done tt) ->
        ret r' < 0 -> would_block r' = true ->
        exists fuel',
          exec fuel' (handleClient epoll_fd fd buffer)
               (replies pre ++ r :: replies ws' ++ [r']) =
          (pre ++ Sys (Read fd BUFFER_SIZE) r :: ws' ++ [Sys (Read fd BUFFER_SIZE) r'],
           Done tt)) /\
    (forall w r',
        ret w <= 0 -> ret r' < 0 -> would_block r' = true ->
        exists fuel',
          exec fuel' (handleClient epoll_fd fd buffer) (replies pre ++ [r; w; r']) =
          (pre ++ [Sys (Read fd BUFFER_SIZE) r;
                   Sys (Write fd (slice (store buffer' (rbytes r)) 0 (ret r - 0))) w;
                   Sys (Read fd BUFFER_SIZE) r'],
           Done tt))) /\
  (o = Done tt -> ends_by_read epoll_fd fd tr).
Proof.
  intros E -> Hr. apply handleClient_exec_trace in E.
  split; [|intros Eo; eapply handler_trace_ends; eauto].
  destruct (handler_trace_at_read _ _ _ _ _ E _ _ _ _ _ eq_refl)
    as (-> & -> & _ & buffer' & Hs & Hc).
  assert (X : forall ws' r',
             write_trace fd (store buffer' (rbytes r)) (ret r) 0 ws' (Done tt) ->
             ret r' < 0 -> would_block r' = true ->
             exists fuel',
               exec fuel' (handleClient epoll_fd fd buffer)
                    (replies pre ++ r :: replies ws' ++ [r']) =
               (pre ++ Sys (Read fd BUFFER_SIZE) r
                    :: ws' ++ [Sys (Read fd BUFFER_SIZE) r'], Done tt)).
  { intros ws' r' W Hr' B.
    assert (Hd : handler_trace epoll_fd fd buffer'
                   (Sys (Read fd BUFFER_SIZE) r :: ws' ++ [Sys (Read fd BUFFER_SIZE) r'])
                   (Done tt)).
    { apply ht_chunk; auto. now apply ht_again. }
    apply Hc in Hd. apply (handler_trace_exec _ _ _ _ []) in Hd.
    destruct Hd as [fuel' Hd]. exists fuel'.
    rewrite app_nil_r, replies_app in Hd. cbn [replies] in Hd.
    rewrite replies_app in Hd. exact Hd. }
  assert (Y : forall w r',
             ret w <= 0 -> ret r' < 0 -> would_block r' = true ->
             exists fuel',
               exec fuel' (handleClient epoll_fd fd buffer) (replies pre ++ [r; w; r']) =
               (pre ++ [Sys (Read fd BUFFER_SIZE) r;
                        Sys (Write fd (slice (store buffer' (rbytes r)) 0 (ret r - 0))) w;
                        Sys (Read fd BUFFER_SIZE) r'],
                Done tt)).
  { intros w r' Hw Hr' B.
    apply (X [Sys (Write fd (slice (store buffer' (rbytes r)) 0 (ret r - 0))) w] r');
      auto.
    apply wt_fail; lia. }
  inversion Hs; subst; try lia.
  - exists buffer', rest, [], Pending. rewrite app_nil_r.
    repeat split; auto; try discriminate; [|now left].
    intros ws1 bs w ws2. eapply write_trace_fail_last; eauto.
  - exists buffer', ws, tr, (Done tt).
    repeat split; auto; try discriminate.
    + intros ws1 bs w ws2. eapply write_trace_fail_last; eauto.
    + eapply handler_trace_next; eauto.
    + intros ->. eapply handler_trace_returned; eauto.
Qed.

Lemma write_back_then_next_read_witness :
  (exists buffer' ws rest' o',
    [ Sys (Write 5 [x70; x69; x6e; x67]) (failed 32);
      Sys (Read 5 BUFFER_SIZE) (failed EAGAIN) ] = ws ++ rest' /\
    write_trace 5 (store buffer' [x70; x69; x6e; x67]) 4 0 ws o' /\
    (forall ws1 bs w ws2,
        ws = ws1 ++ Sys (Write 5 bs) w :: ws2 -> ret w <= 0 -> ws2 = []) /\
    (o' = Pending -> rest' = [] /\ Done tt = Pending) /\
    next_is_read 5 rest' /\
    (Done tt = Done tt ->
     exists r' tr', rest' = Sys (Read 5 BUFFER_SIZE) r' :: tr')) /\
  ends_by_read 3 5 write_error_trace.
Proof.
  destruct (write_back_then_next_read 3 5 zeros 8 write_error_script
              write_error_trace (Done tt) [] 5 BUFFER_SIZE
              (data [x70; x69; x6e; x67])
              [ Sys (Write 5 [x70; x69; x6e; x67]) (failed 32);
                Sys (Read 5 BUFFER_SIZE) (failed EAGAIN) ])
    as [(buffer' & ws & rest' & o' & H1 & H2 & H3 & H4 & H5 & H6 & _) H7].
  - vm_compute. reflexivity.
  - reflexivity.
  - vm_compute. reflexivity.
  - split; [|apply H7; reflexivity].
    exists buffer', ws, rest', o'. repeat split; auto; apply H4; auto.
Defined.

(** C2, counterexample.  The handler reads "ping", its write fails with
    EPIPE, and the handler reads again; the read reports would-block and
    the handler returns as it does after any would-block. *)
Lemma write_error_does_not_abort :
  exec 8 (handleClient 3 5 zeros) write_error_script = (write_error_trace, Done tt) /\
  ~ aborts_on_write_error 5 write_error_trace.
Proof.
  split; [vm_compute; reflexivity|].
  intros A.
  specialize (A [Sys (Read 5 BUFFER_SIZE) (data [x70; x69; x6e; x67])]
                [x70; x69; x6e; x67] (failed 32)
                [Sys (Read 5 BUFFER_SIZE) (failed EAGAIN)] eq_refl).
  cbn in A. assert (-1 <= 0) as L by lia. specialize (A L). discriminate.
Qed.

(* ================================================================= *)
(** ** The end of an invocation *)

Lemma reads_writes_no_lifecycle (tr : list entry) :
  forallb (fun e => is_read e || is_write e) tr = true ->
  forallb (fun e => negb (is_lifecycle e)) tr = true.
Proof.
  induction tr as [|e tr IH]; cbn; [reflexivity|]. intros H.
  apply andb_true_iff in H. destruct H as [He H]. rewrite (IH H), andb_true_r.
  destruct e as [[] ?|]; cbn in *; congruence.
Qed.

(** C4. A read that returns 0, or fails with something other than
    would-block, is followed by one deregistration of the descriptor,
    then one [close] of it, and by nothing else: what is observed after
    the read is a prefix of these two calls, it is both of them when the
    handler has returned, and the handler does return once the kernel
    has answered them.  No [epoll_ctl] or [close] comes before that
    read. *)
Theorem fatal_read_drops_once
    (epoll_fd fd : Z) (buffer : list byte) (fuel : nat) (script : list reply)
    (tr : list entry) (o : outcome unit)
    (pre : list entry) (fd' count : Z) (r : reply) (post : list entry) :
  exec fuel (handleClient epoll_fd fd buffer) script = (tr, o) ->
  tr = pre ++ Sys (Read fd' count) r :: post ->
  ret r = 0 \/ (ret r < 0 /\ would_block r = false) ->
  (post = [] \/
   (exists d, post = [Sys (EpollCtl epoll_fd EPOLL_CTL_DEL fd None) d]) \/
   (exists d c, post = [Sys (EpollCtl epoll_fd EPOLL_CTL_DEL fd None) d;
                        Sys (Close fd) c])) /\
  (o = Done tt ->
   exists d c, post = [Sys (EpollCtl epoll_fd EPOLL_CTL_DEL fd None) d;
                       Sys (Close fd) c]) /\
  forallb (fun e => negb (is_lifecycle e)) pre = true /\
  (forall d c, exists fuel',
      exec fuel' (handleClient epoll_fd fd buffer) (replies pre ++ [r; d; c]) =
      (pre ++ [Sys (Read fd BUFFER_SIZE) r;
               Sys (EpollCtl epoll_fd EPOLL_CTL_DEL fd None) d;
               Sys (Close fd) c], Done tt)).
Proof.
  intros E -> Hr. apply handleClient_exec_trace in E.
  destruct (handler_trace_at_read _ _ _ _ _ E _ _ _ _ _ eq_refl)
    as (-> & -> & Hpre & buffer' & Hs & Hc).
  assert (D : drop_trace epoll_fd fd post o).
  { inversion Hs; subst; auto; try lia.
    destruct Hr as [? | [_ ?]]; [lia | congruence]. }
  repeat split.
  - inversion D; subst; eauto.
  - intros ->. inversion D; subst; eauto.
  - now apply reads_writes_no_lifecycle.
  - intros d c.
    assert (Hd : handler_trace epoll_fd fd buffer'
                   [Sys (Read fd BUFFER_SIZE) r;
                    Sys (EpollCtl epoll_fd EPOLL_CTL_DEL fd None) d;
                    Sys (Close fd) c] (Done tt)).
    { destruct Hr as [Hr | [Hr Hb]].
      - apply ht_eof; [exact Hr | constructor].
      - apply ht_error; [exact Hr | exact Hb | constructor]. }
    apply Hc in Hd. apply (handler_trace_exec _ _ _ _ []) in Hd.
    destruct Hd as [fuel' Hd]. exists fuel'.
    rewrite app_nil_r, replies_app in Hd. exact Hd.
Qed.

Lemma fatal_read_drops_once_witness :
  exec 10 (handleClient 3 5 zeros) eof_script = (eof_trace, Done tt) /\
  exists d c,
    [Sys (EpollCtl 3 EPOLL_CTL_DEL 5 None) (ok 0); Sys (Close 5) (ok 0)] =
    [Sys (EpollCtl 3 EPOLL_CTL_DEL 5 None) d; Sys (Close 5) c].
Proof.
  assert (E : exec 10 (handleClient 3 5 zeros) eof_script = (eof_trace, Done tt))
    by (vm_compute; reflexivity).
  split; [exact E|].
  apply (fatal_read_drops_once 3 5 zeros 10 eof_script eof_trace (Done tt)
           [Sys (Read 5 BUFFER_SIZE) (data [x68; x69]); Sys (Write 5 [x68; x69]) (ok 2)]
           5 BUFFER_SIZE (ok 0)
           [Sys (EpollCtl 3 EPOLL_CTL_DEL 5 None) (ok 0); Sys (Close 5) (ok 0)]).
  - exact E.
  - reflexivity.
  - left. reflexivity.
  - reflexivity.
Defined.

(** C5. A read that fails with would-block is the last call of the
    invocation: the handler returns, and it has issued no [epoll_ctl]
    and no [close], so that the descriptor is as open and as registered
    as it was. *)
Theorem would_block_returns
    (epoll_fd fd : Z) (buffer : list byte) (fuel : nat) (script : list reply)
    (tr : list entry) (o : outcome unit)
    (pre : list entry) (fd' count : Z) (r : reply) (post : list entry) :
  exec fuel (handleClient epoll_fd fd buffer) script = (tr, o) ->
  tr = pre ++ Sys (Read fd' count) r :: post ->
  ret r < 0 -> would_block r = true ->
  post = [] /\
  forallb (fun e => negb (is_lifecycle e)) tr = true /\
  exists fuel', exec fuel' (handleClient epoll_fd fd buffer) script = (tr, Done tt).
Proof.
  intros E -> Hr Hb. destruct (exec_replies _ _ _ _ _ E) as [more ->].
  apply handleClient_exec_trace in E.
  destruct (handler_trace_at_read _ _ _ _ _ E _ _ _ _ _ eq_refl)
    as (-> & -> & Hpre & buffer' & Hs & Hc).
  assert (post = []) as ->.
  { inversion Hs; subst; auto; try lia; congruence. }
  repeat split.
  - rewrite forallb_app. rewrite (reads_writes_no_lifecycle _ Hpre). reflexivity.
  - apply handler_trace_exec. apply Hc. now apply ht_again.
Qed.

Lemma would_block_returns_witness :
  exec 10 (handleClient 3 5 zeros) again_script = (again_trace, Done tt) /\
  forallb (fun e => negb (is_lifecycle e)) again_trace = true.
Proof.
  assert (E : exec 10 (handleClient 3 5 zeros) again_script = (again_trace, Done tt))
    by (vm_compute; reflexivity).
  split; [exact E|].
  apply (would_block_returns 3 5 zeros 10 again_script again_trace (Done tt)
           [Sys (Read 5 BUFFER_SIZE) (data [x68; x69]);
            Sys (Write 5 [x68; x69]) (ok 1); Sys (Write 5 [x69]) (ok 1)]
           5 BUFFER_SIZE (failed EAGAIN) []).
  - exact E.
  - reflexivity.
  - cbn. lia.
  - reflexivity.
Defined.

(* ================================================================= *)
(** ** The writes of one chunk *)

Lemma writes_within_round fd (ws post ws0 tr0 : list entry) :
  forallb is_write ws = true -> next_is_read fd tr0 ->
  ws ++ post = ws0 ++ tr0 -> exists l, ws0 = ws ++ l.
Proof.
  revert ws0. induction ws as [|w ws IH]; intros ws0 W N E.
  - now exists ws0.
  - cbn in W. apply andb_true_iff in W. destruct W as [Ww W].
    destruct ws0 as [|w0 ws0]; cbn in E.
    + destruct N as [-> | (r & tr' & ->)]; [discriminate|].
      inversion E; subst. discriminate.
    + inversion E; subst. destruct (IH ws0 W N H1) as [l ->]. now exists l.
Qed.

(** The writes that follow a read of [n > 0] bytes, as far as they are
    observed, are a run of the inner loop on that chunk. *)
Lemma writes_after_read epoll_fd fd buffer r ws post o :
  handler_trace epoll_fd fd buffer (Sys (Read fd BUFFER_SIZE) r :: ws ++ post) o ->
  0 < ret r -> forallb is_write ws = true ->
  write_trace fd (store buffer (rbytes r)) (ret r) 0 ws Pending.
Proof.
  intros H Hr W. inversion H; subst; try lia.
  - eapply write_trace_prefix; eauto.
  - destruct (writes_within_round fd ws post ws0 tr W) as [l ->]; auto.
    + eapply handler_trace_next; eauto.
    + eapply write_trace_prefix; eauto.
Qed.

(** C8. The writes [ws] that follow a read of [n > 0] bytes, observed
    up to any point: each is given the bytes of the chunk that come
    after those already reported written; the bytes reported written are
    a prefix of the chunk, and their number is at most [n]. *)
Theorem chunk_written_in_order
    (epoll_fd fd : Z) (buffer : list byte) (fuel : nat) (script : list reply)
    (tr : list entry) (o : outcome unit)
    (pre : list entry) (fd' count : Z) (r : reply) (ws post : list entry) :
  exec fuel (handleClient epoll_fd fd buffer) script = (tr, o) ->
  kernel_contract tr ->
  tr = pre ++ Sys (Read fd' count) r :: ws ++ post ->
  0 < ret r ->
  forallb is_write ws = true ->
  written ws <= ret r /\
  echoed fd ws = firstn (Z.to_nat (written ws)) (rbytes r) /\
  forall ws1 fd'' bs w ws2,
    ws = ws1 ++ Sys (Write fd'' bs) w :: ws2 ->
    fd'' = fd /\ written ws1 <= ret r /\
    bs = skipn (Z.to_nat (written ws1)) (rbytes r).
Proof.
  intros E K -> Hr W. apply handleClient_exec_trace in E.
  destruct (handler_trace_at_read _ _ _ _ _ E _ _ _ _ _ eq_refl)
    as (-> & -> & _ & buffer' & Hs & _).
  apply kernel_contract_app in K. destruct K as [_ K].
  apply kernel_contract_cons in K. destruct K as [Kr K].
  apply kernel_contract_app in K. destruct K as [Kw _].
  cbn in Kr. apply andb_true_iff in Kr. destruct Kr as [_ Kr].
  apply orb_true_iff in Kr. destruct Kr as [Kr | Kr]; [apply Z.leb_le in Kr; lia|].
  apply Z.eqb_eq in Kr.
  pose proof (store_length buffer' (rbytes r)) as Hl.
  pose proof (writes_after_read _ _ _ _ _ _ _ Hs Hr W) as Hw.
  destruct (write_trace_bytes _ _ _ _ _ _ Hw Kw) as (B1 & B2 & _ & _); [lia | lia |].
  pose proof (written_nonneg ws) as Hp.
  split; [lia|]. split; [rewrite B2, slice_store by lia; reflexivity|].
  intros ws1 fd'' bs w ws2 ->.
  apply kernel_contract_app in Kw. destruct Kw as [K1 _].
  rewrite written_app in B1. pose proof (written_nonneg ws1).
  pose proof (written_nonneg (Sys (Write fd'' bs) w :: ws2)).
  destruct (write_trace_args _ _ _ _ _ _ Hw _ _ _ _ _ eq_refl K1) as [-> ->].
  split; [reflexivity|]. split; [lia|].
  rewrite Z.add_0_l, slice_store by lia. unfold slice.
    apply firstn_all2. rewrite length_skipn. lia.
Qed.

Lemma chunk_written_in_order_witness :
  written [Sys (Write 5 [x68; x69]) (ok 1); Sys (Write 5 [x69]) (ok 1)] <= 2 /\
  echoed 5 [Sys (Write 5 [x68; x69]) (ok 1); Sys (Write 5 [x69]) (ok 1)] =
  firstn 2 [x68; x69].
Proof.
  destruct (chunk_written_in_order 3 5 zeros 10 again_script again_trace (Done tt)
              [] 5 BUFFER_SIZE (data [x68; x69])
              [Sys (Write 5 [x68; x69]) (ok 1); Sys (Write 5 [x69]) (ok 1)]
              [Sys (Read 5 BUFFER_SIZE) (failed EAGAIN)]) as (A & B & _).
  - vm_compute. reflexivity.
  - vm_compute. reflexivity.
  - reflexivity.
  - cbn. lia.
  - reflexivity.
  - split; [exact A | exact B].
Defined.

(* ================================================================= *)
(** ** The reactor: every run has the shape [loop_trace] *)

Lemma setNonBlocking_trace fd m tr o :
  runs m (setNonBlocking fd) tr o -> snb_trace fd tr o.
Proof.
  unfold setNonBlocking. intros H. run_inv H; [constructor|]. run_inv H.
  - run_inv H. apply Z.eqb_eq in B. now apply st_get_failed.
  - apply Z.eqb_neq in B. run_inv H; [now apply st_get|]. run_inv H.
    now apply st_set.
Qed.

Lemma accept_all_trace epoll_fd listen_fd m tr o :
  runs m (accept_all epoll_fd listen_fd) tr o ->
  accept_trace epoll_fd listen_fd tr o.
Proof.
  unfold accept_all. generalize tt. revert m tr o.
  intros m tr o u. revert m u tr o.
  apply (runs_iter_inv (accept_step epoll_fd listen_fd)
           (fun _ => accept_trace epoll_fd listen_fd)); unfold accept_step.
  - intros _ m tr H. run_inv H; [constructor|]. run_inv H.
    + apply Z.ltb_lt in B. run_inv H.
      * run_inv H. now apply at_again.
      * run_inv H; [now apply at_failed|]. run_inv H. now apply at_logged.
    + apply Z.ltb_ge in B. apply runs_bind_inv in H.
      destruct H as [[_ H] | (tr1 & tr2 & v & k & -> & H1 & H2 & Hk)].
      * eapply at_setting; [lia | eapply setNonBlocking_trace; exact H].
      * apply setNonBlocking_trace in H1. run_inv H2.
        -- rewrite app_nil_r. eapply at_setting; eauto.
        -- run_inv H2. eapply at_client; eauto. constructor.
  - intros _ m tr [] o H. run_inv H. run_inv H.
    + apply Z.ltb_lt in B. run_inv H.
      * run_inv H. now apply at_again.
      * run_inv H. run_inv H. now apply at_logged.
    + apply runs_bind_inv in H.
      destruct H as [[? _] | (tr1 & tr2 & v & k & -> & H1 & H2 & Hk)]; [discriminate|].
      run_inv H2. run_inv H2. outcome_cases.
  - intros _ m tr [] tr' o H P. run_inv H. run_inv H.
    + run_inv H.
      * run_inv H. outcome_cases.
      * run_inv H. run_inv H. outcome_cases.
    + apply Z.ltb_ge in B. apply runs_bind_inv in H.
      destruct H as [[? _] | (tr1 & tr2 & v & k & -> & H1 & H2 & Hk)]; [discriminate|].
      apply setNonBlocking_trace in H1. run_inv H2. run_inv H2.
      cbn. rewrite <- app_assoc. cbn. eapply at_client; eauto.
Qed.

Lemma dispatch_then_next epoll_fd listen_fd fd (i : Z) m tr o :
  runs m (dispatch epoll_fd listen_fd fd ;; Ret (@inl Z unit i)) tr o ->
  (fd = listen_fd /\ o = Pending /\ accept_trace epoll_fd listen_fd tr Pending) \/
  (fd = listen_fd /\ accept_trace epoll_fd listen_fd tr (Done tt) /\
   (o = Pending \/ o = Done (inl i))) \/
  (fd <> listen_fd /\ tr = [] /\ o = Pending) \/
  (fd <> listen_fd /\ tr = [Out (Enqueue (HandleClient epoll_fd fd))] /\
   (o = Pending \/ o = Done (inl i))).
Proof.
  unfold dispatch. intros H. destruct (fd =? listen_fd) eqn:B.
  - apply Z.eqb_eq in B. apply runs_bind_inv in H.
    destruct H as [[-> H] | (tr1 & tr2 & [] & k & -> & H1 & H2 & Hk)].
    + left. eauto using accept_all_trace.
    + right. left. run_inv H2. rewrite app_nil_r. eauto using accept_all_trace.
  - apply Z.eqb_neq in B. run_inv H.
    + right. right. left. auto.
    + right. right. right. run_inv H. auto.
Qed.

Lemma for_events_trace epoll_fd listen_fd evs nfds m i tr o :
  runs m (ITree.iter (for_events_step epoll_fd listen_fd evs nfds) i) tr o ->
  events_trace epoll_fd listen_fd evs nfds i tr o.
Proof.
  revert m i tr o. apply runs_iter_inv; unfold for_events_step; cbv zeta;
    fold (event_fd evs).
  - intros i m tr H. fold (event_fd evs i) in H. run_inv H.
    + apply Z.ltb_lt in B. apply dispatch_then_next in H.
      destruct H as [(E & _ & A) | [(E & A & _) | [(E & -> & _) | (E & -> & _)]]].
      * now apply et_accepting.
      * rewrite <- (app_nil_r tr). eapply et_listener; eauto. constructor.
      * constructor.
      * apply et_client; auto. constructor.
    + run_inv H. constructor.
  - intros i m tr [] o H. fold (event_fd evs i) in H. run_inv H.
    + apply dispatch_then_next in H.
      destruct H as [(_ & ? & _) | [(_ & _ & [?|?]) | [(_ & _ & ?) | (_ & _ & [?|?])]]];
        discriminate.
    + apply Z.ltb_ge in B. run_inv H. now apply et_done.
  - intros i m tr i' tr' o H P. fold (event_fd evs i) in H. run_inv H.
    + apply Z.ltb_lt in B. apply dispatch_then_next in H.
      destruct H as [(_ & ? & _) | [(E & A & [?|?]) | [(_ & _ & ?) | (E & -> & [?|?])]]];
        try discriminate; outcome_cases; subst.
      * eapply et_listener; eauto.
      * apply et_client; auto.
    + run_inv H. outcome_cases.
Qed.

Lemma epollLoop_trace epoll_fd listen_fd m evs tr o :
  runs m (epollLoop epoll_fd listen_fd evs) tr o ->
  loop_trace epoll_fd listen_fd evs tr o.
Proof.
  unfold epollLoop. revert m evs tr o.
  apply runs_iter_inv; unfold epollLoop_step; fold (wait_call epoll_fd).
  - intros evs m tr H. run_inv H; [constructor|]. run_inv H.
    + apply Z.ltb_lt in B. run_inv H.
      * apply Z.eqb_eq in B0. run_inv H. eapply lt_interrupted; eauto. constructor.
      * apply Z.eqb_neq in B0. run_inv H; [now apply lt_failed|]. run_inv H.
        now apply lt_logged.
    + apply Z.ltb_ge in B. apply runs_bind_inv in H.
      destruct H as [[_ H] | (tr1 & tr2 & [] & k & -> & H1 & H2 & Hk)].
      * apply lt_handling; [lia | eapply for_events_trace; exact H].
      * run_inv H2. apply lt_round; [lia | eapply for_events_trace; exact H1 | constructor].
  - intros evs m tr [] o H. run_inv H. run_inv H.
    + apply Z.ltb_lt in B. run_inv H.
      * run_inv H. outcome_cases.
      * apply Z.eqb_neq in B0. run_inv H. run_inv H. now apply lt_logged.
    + apply runs_bind_inv in H.
      destruct H as [[? _] | (tr1 & tr2 & [] & k & -> & H1 & H2 & Hk)]; [discriminate|].
      run_inv H2. outcome_cases.
  - intros evs m tr evs' tr' o H P. run_inv H. run_inv H.
    + apply Z.ltb_lt in B. run_inv H.
      * apply Z.eqb_eq in B0. run_inv H. outcome_cases. subst.
        eapply lt_interrupted; eauto.
      * run_inv H. run_inv H. outcome_cases.
    + apply Z.ltb_ge in B. apply runs_bind_inv in H.
      destruct H as [[? _] | (tr1 & tr2 & [] & k & -> & H1 & H2 & Hk)]; [discriminate|].
      run_inv H2. outcome_cases. subst. rewrite app_nil_r. cbn.
      apply lt_round; [lia | eapply for_events_trace; exact H1 | exact P].
Qed.

(** Conversely, every complete shape is the trace of a run. *)
Lemma snb_trace_runs fd tr v :
  snb_trace fd tr (Done v) -> runs 3 (setNonBlocking fd) tr (Done v).
Proof.
  intros H.
  inversion H as [ | g o Hg [? | E] | g Hg | g s o Hg [? | E] ]; subst;
    try discriminate; inversion E; subst; unfold setNonBlocking.
  - apply runs_sys_intro. cbv zeta.
    replace (ret g =? -1) with true by (symmetry; apply Z.eqb_eq; lia).
    now apply runs_ret.
  -
    apply runs_sys_intro. cbv zeta.
    replace (ret g =? -1) with false by (symmetry; apply Z.eqb_neq; lia).
    apply runs_sys_intro. now apply runs_ret.
Qed.

Lemma accept_trace_runs epoll_fd listen_fd tr :
  accept_trace epoll_fd listen_fd tr (Done tt) ->
  exists m, runs m (accept_all epoll_fd listen_fd) tr (Done tt).
Proof.
  intros H. remember (Done tt) as o eqn:Eo. revert Eo.
  induction H as [ | a o Ha B | a Ha B | a o Ha B | a s o' Ha Hs
                   | a s v c tr o Ha Hs H IH];
    intros Eo; subst; try discriminate; unfold accept_all.
  - exists (2 + 1)%nat. apply runs_iter_exit. unfold accept_step.
    apply runs_sys_intro. cbv zeta.
    replace (ret a <? 0) with true by (symmetry; apply Z.ltb_lt; lia).
    unfold would_block in B. rewrite B. now apply runs_ret.
  - exists (3 + 1)%nat. apply runs_iter_exit. unfold accept_step.
    apply runs_sys_intro. cbv zeta.
    replace (ret a <? 0) with true by (symmetry; apply Z.ltb_lt; lia).
    unfold would_block in B. rewrite B. apply runs_emit_intro. now apply runs_ret.
  - destruct (IH eq_refl) as [m Hm]. exists (S (3 + 2) + S m)%nat.
    replace (Sys (Accept listen_fd) a
               :: s ++ Sys (register_client epoll_fd (ret a)) c :: tr)
      with ((Sys (Accept listen_fd) a
               :: s ++ [Sys (register_client epoll_fd (ret a)) c]) ++ tr)
      by (cbn; rewrite <- app_assoc; reflexivity).
    eapply runs_iter_next; [|exact Hm]. unfold accept_step.
    apply runs_sys_intro. cbv zeta.
    replace (ret a <? 0) with false by (symmetry; apply Z.ltb_ge; lia).
    eapply runs_bind; [apply snb_trace_runs; exact Hs|].
    apply runs_sys_intro. now apply runs_ret.
Qed.

Lemma events_trace_runs epoll_fd listen_fd evs nfds i tr :
  events_trace epoll_fd listen_fd evs nfds i tr (Done tt) ->
  exists m,
    runs m (ITree.iter (for_events_step epoll_fd listen_fd evs nfds) i) tr (Done tt).
Proof.
  intros H. remember (Done tt) as o eqn:Eo. revert Eo.
  induction H as [i | i o Hi | i d Hi E A | i d tr o Hi E A H IH | i tr o Hi E H IH];
    intros Eo; try discriminate; try subst o.
  - exists (1 + 1)%nat. apply runs_iter_exit. unfold for_events_step.
    replace (i <? nfds) with false by (symmetry; apply Z.ltb_ge; lia).
    now apply runs_ret.
  - destruct (IH eq_refl) as [m Hm]. apply accept_trace_runs in A.
    destruct A as [k Hk]. exists ((k + 1) + S m)%nat.
    eapply runs_iter_next; [|exact Hm]. unfold for_events_step.
    replace (i <? nfds) with true by (symmetry; apply Z.ltb_lt; lia).
    cbv zeta. fold (event_fd evs i). unfold dispatch.
    replace (event_fd evs i =? listen_fd) with true by (symmetry; apply Z.eqb_eq; lia).
    rewrite <- (app_nil_r d). eapply runs_bind; [exact Hk|]. now apply runs_ret.
  - destruct (IH eq_refl) as [m Hm]. exists (2 + S m)%nat.
    change (Out (Enqueue (HandleClient epoll_fd (event_fd evs i))) :: tr)
      with ([Out (Enqueue (HandleClient epoll_fd (event_fd evs i)))] ++ tr).
    eapply runs_iter_next; [|exact Hm]. unfold for_events_step.
    replace (i <? nfds) with true by (symmetry; apply Z.ltb_lt; lia).
    cbv zeta. fold (event_fd evs i). unfold dispatch.
    replace (event_fd evs i =? listen_fd) with false by (symmetry; apply Z.eqb_neq; lia).
    apply runs_emit_intro. now apply runs_ret.
Qed.

Lemma loop_trace_runs epoll_fd listen_fd evs tr :
  loop_trace epoll_fd listen_fd evs tr (Done tt) ->
  exists m, runs m (epollLoop epoll_fd listen_fd evs) tr (Done tt).
Proof.
  intros H. remember (Done tt) as o eqn:Eo. revert Eo.
  induction H as [evs | evs w tr o Hw E H IH | evs w Hw E | evs w o Hw E
                  | evs w body Hw B | evs w body tr o Hw B H IH];
    intros Eo; try discriminate; try subst o; unfold epollLoop.
  - destruct (IH eq_refl) as [m Hm]. exists (2 + S m)%nat.
    change (Sys (wait_call epoll_fd) w :: tr)
      with ([Sys (wait_call epoll_fd) w] ++ tr).
    eapply runs_iter_next; [|exact Hm]. unfold epollLoop_step.
    apply runs_sys_intro. cbv zeta.
    replace (ret w <? 0) with true by (symmetry; apply Z.ltb_lt; lia).
    replace (errno w =? EINTR) with true by (symmetry; apply Z.eqb_eq; lia).
    now apply runs_ret.
  - exists (3 + 1)%nat. apply runs_iter_exit. unfold epollLoop_step.
    apply runs_sys_intro. cbv zeta.
    replace (ret w <? 0) with true by (symmetry; apply Z.ltb_lt; lia).
    replace (errno w =? EINTR) with false by (symmetry; apply Z.eqb_neq; lia).
    apply runs_emit_intro. now apply runs_ret.
  - destruct (IH eq_refl) as [m Hm]. apply events_trace_runs in B.
    destruct B as [k Hk]. exists (S (k + 1) + S m)%nat.
    change (Sys (wait_call epoll_fd) w :: body ++ tr)
      with ((Sys (wait_call epoll_fd) w :: body) ++ tr).
    eapply runs_iter_next; [|exact Hm]. unfold epollLoop_step.
    apply runs_sys_intro. cbv zeta.
    replace (ret w <? 0) with false by (symmetry; apply Z.ltb_ge; lia).
    rewrite <- (app_nil_r body). eapply runs_bind; [exact Hk|]. now apply runs_ret.
Qed.

Lemma epollLoop_exec_trace epoll_fd listen_fd evs fuel script tr o :
  exec fuel (epollLoop epoll_fd listen_fd evs) script = (tr, o) ->
  loop_trace epoll_fd listen_fd evs tr o.
Proof. intros H. eapply epollLoop_trace, exec_runs, H. Qed.

Lemma loop_trace_exec epoll_fd listen_fd evs tr rest :
  loop_trace epoll_fd listen_fd evs tr (Done tt) ->
  exists fuel,
    exec fuel (epollLoop epoll_fd listen_fd evs) (replies tr ++ rest) = (tr, Done tt).
Proof.
  intros H. apply loop_trace_runs in H. destruct H as [m H].
  exists m. now apply runs_exec_done.
Qed.

Lemma accept_all_exec_trace epoll_fd listen_fd fuel script tr o :
  exec fuel (dispatch epoll_fd listen_fd listen_fd) script = (tr, o) ->
  accept_trace epoll_fd listen_fd tr o.
Proof.
  unfold dispatch. rewrite Z.eqb_refl. intros H.
  eapply accept_all_trace, exec_runs, H.
Qed.


(* ================================================================= *)
(** ** Where an [accept] and an [epoll_wait] stand in a trace *)



Lemma forallb_weaken {A : Type} (p q : A -> bool) (l : list A) :
  (forall x, p x = true -> q x = true) -> forallb p l = true -> forallb q l = true.
Proof.
  intros I. induction l as [|x l IH]; cbn; [reflexivity|]. intros H.
  apply andb_true_iff in H. destruct H as [Hx H]. now rewrite (I x Hx), IH.
Qed.


Lemma accept_trace_calls epoll_fd listen_fd tr o :
  accept_trace epoll_fd listen_fd tr o ->
  forallb (fun e => negb (is_wait e) && negb (is_enqueue e)) tr = true.
Proof.
  induction 1 as [ | a0 o Ha B | a0 Ha B | a0 o Ha B | a0 s o' Ha Hs
                   | a0 s v c tr o Ha Hs H IH]; try reflexivity.
  - cbn. inversion Hs; reflexivity.
  - cbn. rewrite forallb_app. cbn. rewrite IH, andb_true_r.
    inversion Hs; reflexivity.
Qed.

Lemma events_trace_calls epoll_fd listen_fd evs nfds i tr o :
  events_trace epoll_fd listen_fd evs nfds i tr o ->
  forallb (fun e => negb (is_wait e)) tr = true /\
  forallb (enqueue_ok epoll_fd listen_fd) tr = true.
Proof.
  assert (A : forall d o', accept_trace epoll_fd listen_fd d o' ->
                forallb (fun e => negb (is_wait e)) d = true /\
                forallb (enqueue_ok epoll_fd listen_fd) d = true).
  { intros d o' H. apply accept_trace_calls in H. split.
    - eapply forallb_weaken; [|exact H]. intros x Hx.
      apply andb_true_iff in Hx. tauto.
    - eapply forallb_weaken; [|exact H]. intros x Hx.
      apply andb_true_iff in Hx. destruct Hx as [_ Hx].
      destruct x as [? ?|[]]; cbn in *; auto; discriminate. }
  induction 1 as [i | i o Hi | i d Hi E Hd | i d tr o Hi E Hd H IH | i tr o Hi E H IH];
    auto.
  - eauto.
  - destruct (A _ _ Hd) as [A1 A2]. destruct IH as [I1 I2].
    rewrite !forallb_app, A1, A2, I1, I2. auto.
  - destruct IH as [I1 I2]. cbn. rewrite I1, I2, Z.eqb_refl. cbn.
    apply Z.eqb_neq in E. now rewrite E.
Qed.

(** Every [epoll_wait] of a trace of [epollLoop] is the first call of
    an iteration. *)
Lemma loop_trace_at_wait epoll_fd listen_fd evs tr o :
  loop_trace epoll_fd listen_fd evs tr o ->
  forall pre e m t w post,
    tr = pre ++ Sys (EpollWait e m t) w :: post ->
    EpollWait e m t = wait_call epoll_fd /\
    exists evs',
      loop_trace epoll_fd listen_fd evs' (Sys (wait_call epoll_fd) w :: post) o /\
      forall post' o',
        loop_trace epoll_fd listen_fd evs' (Sys (wait_call epoll_fd) w :: post') o' ->
        loop_trace epoll_fd listen_fd evs (pre ++ Sys (wait_call epoll_fd) w :: post') o'.
Proof.
  induction 1 as [evs | evs w0 tr o Hw E H IH | evs w0 Hw E | evs w0 o Hw E
                  | evs w0 body Hw B | evs w0 body tr o Hw B H IH];
    intros pre e m t w post Eq.
  - now destruct pre.
  - destruct pre as [|q pre]; inversion Eq; subst.
    + split; auto. exists evs. split; [eapply lt_interrupted; eauto | auto].
    + destruct (IH _ _ _ _ _ _ eq_refl) as (Ec & evs' & Hs & Hc).
      split; auto. exists evs'. split; auto. intros post' o' Hn.
      cbn. eapply lt_interrupted; eauto.
  - destruct pre as [|q pre]; inversion Eq; subst.
    + split; auto. exists evs. split; [now apply lt_failed | auto].
    + now destruct pre.
  - destruct pre as [|q pre]; inversion Eq; subst.
    + split; auto. exists evs. split; [now apply lt_logged | auto].
    + destruct pre as [|q' [|q'' pre]]; discriminate.
  - destruct pre as [|q pre]; inversion Eq; subst.
    + split; auto. exists evs. split; [now apply lt_handling | auto].
    + apply events_trace_calls in B. destruct B as [B _].
      rewrite forallb_app in B. apply andb_true_iff in B.
      destruct B as [_ B]. cbn in B. discriminate.
  - destruct pre as [|q pre]; inversion Eq; subst.
    + split; auto. exists evs. split; [now apply lt_round | auto].
    + pose proof (events_trace_calls _ _ _ _ _ _ _ B) as [Bw _].
      destruct (split_after _ body tr pre post (Sys (EpollWait e m t) w) Bw eq_refl H2)
        as (pre' & -> & ->).
      destruct (IH _ _ _ _ _ _ eq_refl) as (Ec & evs' & Hs & Hc).
      split; auto. exists evs'. split; auto. intros post' o' Hn.
      cbn. rewrite <- app_assoc. apply lt_round; auto.
Qed.

(* ================================================================= *)
(** ** The reactor: claims *)






(** C7. A failed [epoll_wait] with [errno = EINTR] is followed by the
    next [epoll_wait] and by nothing else; it does not end the loop.  Any
    other failed [epoll_wait] is followed by the log line only, and
    [epollLoop] returns. *)
Theorem wait_failure_handling
    (epoll_fd listen_fd : Z) (evs : list epoll_event) (fuel : nat)
    (script : list reply) (tr : list entry) (o : outcome unit)
    (pre : list entry) (e m t : Z) (w : reply) (post : list entry) :
  exec fuel (epollLoop epoll_fd listen_fd evs) script = (tr, o) ->
  tr = pre ++ Sys (EpollWait e m t) w :: post ->
  ret w < 0 ->
  (errno w = EINTR ->
   next_is_wait epoll_fd post /\ (o = Done tt -> post <> [])) /\
  (errno w <> EINTR ->
   (post = [] \/ post = [Out (Perror "epoll_wait")]) /\
   (o = Done tt -> post = [Out (Perror "epoll_wait")]) /\
   exists fuel',
     exec fuel' (epollLoop epoll_fd listen_fd evs) script =
     (pre ++ [Sys (EpollWait epoll_fd MAX_EVENTS (-1)) w;
              Out (Perror "epoll_wait")], Done tt)).
Proof.
  intros E -> Hw. destruct (exec_replies _ _ _ _ _ E) as [more Es].
  apply epollLoop_exec_trace in E.
  destruct (loop_trace_at_wait _ _ _ _ _ E _ _ _ _ _ _ eq_refl)
    as (Ec & evs' & Hs & Hc).
  split.
  - intros Ei.
    assert (L : exists evs'', loop_trace epoll_fd listen_fd evs'' post o).
    { inversion Hs; subst; try lia; try congruence. eauto. }
    destruct L as [evs'' L]. split.
    + inversion L; subst; [now left | right; eauto ..].
    + intros -> ->. inversion L.
  - intros Ei.
    assert (P : post = [] /\ o = Pending \/ post = [Out (Perror "epoll_wait")]).
    { inversion Hs; subst; auto; try lia; congruence. }
    split; [tauto|]. split.
    + intros ->. destruct P as [[_ ?] | ?]; [discriminate | assumption].
    + assert (R : replies (pre ++ Sys (EpollWait e m t) w :: post) =
                  replies (pre ++ [Sys (wait_call epoll_fd) w;
                                   Out (Perror "epoll_wait")])).
      { rewrite !replies_app. destruct P as [[-> _] | ->]; reflexivity. }
      subst script. rewrite R. apply loop_trace_exec.
      apply Hc. now apply lt_logged.
Qed.

Lemma wait_failure_handling_witness :
  exec 30 (epollLoop 4 3 []) reactor_script = (reactor_trace, Done tt) /\
  next_is_wait 4
    [Sys (EpollWait 4 MAX_EVENTS (-1)) (failed 9); Out (Perror "epoll_wait")].
Proof.
  assert (E : exec 30 (epollLoop 4 3 []) reactor_script = (reactor_trace, Done tt))
    by (vm_compute; reflexivity).
  split; [exact E|].
  apply (wait_failure_handling 4 3 [] 30 reactor_script reactor_trace (Done tt)
           (Sys (EpollWait 4 MAX_EVENTS (-1))
                (ready [EpollEvent EPOLLIN 3; EpollEvent EPOLLIN 7])
            :: accepting ++ [Out (Enqueue (HandleClient 4 7))])
           4 MAX_EVENTS (-1) (failed EINTR)
           [Sys (EpollWait 4 MAX_EVENTS (-1)) (failed 9); Out (Perror "epoll_wait")]).
  - exact E.
  - reflexivity.
  - cbn. lia.
  - reflexivity.
Defined.

Lemma loop_trace_enqueues epoll_fd listen_fd evs tr o :
  loop_trace epoll_fd listen_fd evs tr o ->
  forallb (enqueue_ok epoll_fd listen_fd) tr = true.
Proof.
  induction 1 as [evs | evs w0 tr o Hw E H IH | evs w0 Hw E | evs w0 o Hw E
                  | evs w0 body Hw B | evs w0 body tr o Hw B H IH]; auto.
  - apply events_trace_calls in B. tauto.
  - apply events_trace_calls in B. cbn. rewrite forallb_app, IH.
    destruct B as [_ ->]. reflexivity.
Qed.

(** C9. Every task the reactor gives to the pool is a [handleClient] on
    the reactor's epoll instance for a descriptor other than the
    listening one; for the listening descriptor the reactor runs the
    accept loop itself. *)
Theorem enqueued_tasks_are_clients
    (epoll_fd listen_fd : Z) (evs : list epoll_event) (fuel : nat)
    (script : list reply) (tr : list entry) (o : outcome unit) :
  exec fuel (epollLoop epoll_fd listen_fd evs) script = (tr, o) ->
  forallb (enqueue_ok epoll_fd listen_fd) tr = true /\
  (forall fd t, In (Out (Enqueue t)) tr -> t = HandleClient epoll_fd fd ->
                fd <> listen_fd) /\
  dispatch epoll_fd listen_fd listen_fd = accept_all epoll_fd listen_fd.
Proof.
  intros E. apply epollLoop_exec_trace, loop_trace_enqueues in E.
  split; [exact E|]. split.
  - intros fd t I ->. rewrite forallb_forall in E. specialize (E _ I).
    cbn in E. apply andb_true_iff in E. destruct E as [_ E].
    intros ->. rewrite Z.eqb_refl in E. discriminate.
  - unfold dispatch. now rewrite Z.eqb_refl.
Qed.

Lemma enqueued_tasks_are_clients_witness :
  exec 30 (epollLoop 4 3 []) reactor_script = (reactor_trace, Done tt) /\
  forallb (enqueue_ok 4 3) reactor_trace = true.
Proof.
  assert (E : exec 30 (epollLoop 4 3 []) reactor_script = (reactor_trace, Done tt))
    by (vm_compute; reflexivity).
  split; [exact E|].
  apply (enqueued_tasks_are_clients 4 3 [] 30 reactor_script reactor_trace (Done tt)).
  exact E.
Defined.

(* ================================================================= *)
(** ** [setNonBlocking] *)

Lemma nonblock_bit (i : Z) : Z.testbit O_NONBLOCK i = (i =? 11).
Proof.
  change O_NONBLOCK with (2 ^ 11). rewrite Z.pow2_bits_eqb by lia.
  apply Z.eqb_sym.
Qed.

Lemma setfl_adds_nonblock (settable old : Z) :
  Z.land O_NONBLOCK settable = O_NONBLOCK ->
  Z.lor (Z.land old (Z.lnot settable)) (Z.land (Z.lor old O_NONBLOCK) settable) =
  Z.lor old O_NONBLOCK.
Proof.
  intros M. apply Z.bits_inj'. intros i Hi.
  assert (Mi : Z.testbit O_NONBLOCK i && Z.testbit settable i = Z.testbit O_NONBLOCK i)
    by (rewrite <- Z.land_spec, M; reflexivity).
  rewrite !Z.lor_spec, !Z.land_spec, Z.lnot_spec, Z.lor_spec by lia.
  destruct (Z.testbit old i), (Z.testbit settable i), (Z.testbit O_NONBLOCK i);
    cbn in *; congruence.
Qed.

Lemma getfl_effect (settable : Z) (T : flag_table) (fd arg : Z) (g : reply) :
  fcntl_effect settable T (Sys (Fcntl fd F_GETFL arg) g) = T.
Proof. unfold fcntl_effect. destruct (T fd); reflexivity. Qed.

Lemma setfl_effect (settable : Z) (T : flag_table) (fd arg old : Z) (s : reply) :
  T fd = Some old -> ret s <> -1 ->
  fcntl_effect settable T (Sys (Fcntl fd F_SETFL arg) s) =
  set_flags T fd (Z.lor (Z.land old (Z.lnot settable)) (Z.land arg settable)).
Proof.
  intros Hold N. unfold fcntl_effect. rewrite Hold.
  replace (ret s =? -1) with false by (symmetry; apply Z.eqb_neq; exact N).
  reflexivity.
Qed.

(** C10. When [setNonBlocking fd] succeeds, the file status flags of
    [fd] are the previous flags with [O_NONBLOCK] (bit 11) set and every
    other bit as it was, and the flags of the other descriptors are as
    they were.  When [F_GETFL] fails, [setNonBlocking] returns -1, issues
    no second call, and no flag is changed. *)
Theorem setNonBlocking_adds_flag
    (settable : Z) (T : flag_table) (fd : Z) (fuel : nat) (script : list reply)
    (tr : list entry) (v : Z) :
  Z.land O_NONBLOCK settable = O_NONBLOCK ->
  exec fuel (setNonBlocking fd) script = (tr, Done v) ->
  agrees settable T tr ->
  (v <> -1 ->
   exists old,
     T fd = Some old /\
     flags_after settable T tr fd = Some (Z.lor old O_NONBLOCK) /\
     (forall i, Z.testbit (Z.lor old O_NONBLOCK) i = (i =? 11) || Z.testbit old i) /\
     (forall fd', fd' <> fd -> flags_after settable T tr fd' = T fd')) /\
  (exists g post,
      tr = Sys (Fcntl fd F_GETFL 0) g :: post /\
      (ret g = -1 -> v = -1 /\ post = [] /\ forall x, flags_after settable T tr x = T x)).
Proof.
  intros M E A. apply exec_runs, setNonBlocking_trace in E.
  inversion E as [ | g o Hg [? | Eo] | g Hg | g s o Hg [? | Eo] ]; subst;
    try discriminate; inversion Eo; subst; clear Eo.
  - split; [intros N; congruence|].
    exists g, []. split; [reflexivity|]. intros _. repeat split.
    intros x. cbn [flags_after]. now rewrite getfl_effect.
  - split.
    + intros N. cbn in A. destruct A as (Ag & As & _).
      destruct (Ag Hg) as (old & Hold & Hret). specialize (Hret eq_refl).
      exists old. split; [exact Hold|].
      cbn [flags_after]. rewrite getfl_effect, (setfl_effect _ _ _ _ old) by auto.
      rewrite Hret, setfl_adds_nonblock by exact M.
      unfold set_flags. rewrite Z.eqb_refl. repeat split.
      * intros i. rewrite Z.lor_spec, nonblock_bit. apply orb_comm.
      * intros fd' Hfd. now replace (fd' =? fd) with false
          by (symmetry; apply Z.eqb_neq; exact Hfd).
    + exists g, [Sys (Fcntl fd F_SETFL (Z.lor (ret g) O_NONBLOCK)) s].
      split; [reflexivity|]. intros Hg'. contradiction.
Qed.

Lemma setNonBlocking_adds_flag_witness :
  (0 <> -1 ->
   exists old,
     one_socket 5 = Some old /\
     flags_after linux_settable one_socket
       [Sys (Fcntl 5 F_GETFL 0) (ok 2); Sys (Fcntl 5 F_SETFL 2050) (ok 0)] 5 =
     Some (Z.lor old O_NONBLOCK) /\
     (forall i, Z.testbit (Z.lor old O_NONBLOCK) i = (i =? 11) || Z.testbit old i) /\
     (forall fd', fd' <> 5 ->
        flags_after linux_settable one_socket
          [Sys (Fcntl 5 F_GETFL 0) (ok 2); Sys (Fcntl 5 F_SETFL 2050) (ok 0)] fd' =
        one_socket fd')) /\
  (exists g post,
      [Sys (Fcntl 5 F_GETFL 0) (ok 2); Sys (Fcntl 5 F_SETFL 2050) (ok 0)] =
      Sys (Fcntl 5 F_GETFL 0) g :: post /\
      (ret g = -1 ->
       0 = -1 /\ post = [] /\
       forall x,
         flags_after linux_settable one_socket
           [Sys (Fcntl 5 F_GETFL 0) (ok 2); Sys (Fcntl 5 F_SETFL 2050) (ok 0)] x =
         one_socket x)).
Proof.
  apply (setNonBlocking_adds_flag linux_settable one_socket 5 5 [ok 2; ok 0]).
  - vm_compute. reflexivity.
  - vm_compute. reflexivity.
  - cbn. repeat split.
    + intros _. exists 2. split; [reflexivity | intros _; reflexivity].
    + intros _. exists 2. split; [reflexivity | intros C; discriminate C].
Defined.

(* ================================================================= *)
(** ** [main] *)



















(* ================================================================= *)
(** ** More on [handleClient] *)

Lemma write_trace_calls epoll_fd fd buffer n total ws o :
  write_trace fd buffer n total ws o ->
  forallb (handler_call epoll_fd fd) ws = true.
Proof. induction 1; cbn; rewrite ?Z.eqb_refl; auto. Qed.

Lemma handler_trace_calls epoll_fd fd buffer tr o :
  handler_trace epoll_fd fd buffer tr o ->
  forallb (handler_call epoll_fd fd) tr = true.
Proof.
  induction 1 as [buffer | buffer r ws Hr W | buffer r ws tr o Hr W H IH
                  | buffer r tl o Hr D | buffer r o Hr B | buffer r tl o Hr B D];
    cbn; rewrite ?Z.eqb_refl; cbn; auto.
  - eapply write_trace_calls; eauto.
  - rewrite forallb_app, IH, andb_true_r. eapply write_trace_calls; eauto.
  - inversion D; cbn; rewrite ?Z.eqb_refl; reflexivity.
  - inversion D; cbn; rewrite ?Z.eqb_refl; reflexivity.
Qed.

(** X1. [handleClient epoll_fd fd] calls nothing but [read] (of
    [BUFFER_SIZE] bytes), [write] and [close] on [fd] and the [epoll_ctl]
    that deletes [fd] from [epoll_fd]; it touches no other descriptor,
    registers nothing and prints nothing. *)
Theorem handleClient_calls_own_descriptor
    (epoll_fd fd : Z) (buffer : list byte) (fuel : nat) (script : list reply)
    (tr : list entry) (o : outcome unit) :
  exec fuel (handleClient epoll_fd fd buffer) script = (tr, o) ->
  forallb (handler_call epoll_fd fd) tr = true.
Proof. intros E. eapply handler_trace_calls, handleClient_exec_trace, E. Qed.

Lemma handleClient_calls_own_descriptor_witness :
  forallb (handler_call 3 5) eof_trace = true.
Proof.
  apply (handleClient_calls_own_descriptor 3 5 zeros 10 eof_script eof_trace (Done tt)).
  vm_compute. reflexivity.
Defined.

Lemma write_trace_sizes fd buffer n total ws o :
  write_trace fd buffer n total ws o ->
  kernel_contract ws ->
  0 <= total -> n <= Z.of_nat (List.length buffer) -> n <= BUFFER_SIZE ->
  forallb write_size_ok ws = true.
Proof.
  induction 1 as [total | total o Hn | total w o Hn Hw | total w tr o Hn Hw H IH];
    intros K Ht Hb Hs; try reflexivity.
  - cbn. rewrite slice_length by lia. rewrite andb_true_r.
    apply andb_true_iff. split; [apply Z.ltb_lt | apply Z.leb_le]; lia.
  - apply kernel_contract_cons in K. destruct K as [Kw K]. cbn in Kw.
    apply Z.leb_le in Kw. rewrite slice_length in Kw by lia.
    cbn. rewrite slice_length by lia. rewrite IH by (auto; lia).
    rewrite andb_true_r.
    apply andb_true_iff. split; [apply Z.ltb_lt | apply Z.leb_le]; lia.
Qed.

Lemma read_contract r count :
  reply_ok (Sys (Read 0 count) r) = true -> 0 < ret r ->
  ret r <= count /\ Z.of_nat (List.length (rbytes r)) = ret r.
Proof.
  cbn. intros K Hr. apply andb_true_iff in K. destruct K as [K1 K2].
  apply Z.leb_le in K1. apply orb_true_iff in K2.
  destruct K2 as [K2 | K2]; [apply Z.leb_le in K2; lia|].
  apply Z.eqb_eq in K2. auto.
Qed.

Lemma handler_trace_sizes epoll_fd fd buffer tr o :
  handler_trace epoll_fd fd buffer tr o ->
  kernel_contract tr -> forallb write_size_ok tr = true.
Proof.
  induction 1 as [buffer | buffer r ws Hr W | buffer r ws tr o Hr W H IH
                  | buffer r tl o Hr D | buffer r o Hr B | buffer r tl o Hr B D];
    intros K; try reflexivity.
  - apply kernel_contract_cons in K. destruct K as [Kr K].
    destruct (read_contract _ _ Kr Hr) as [Kb Kl].
    pose proof (store_length buffer (rbytes r)). cbn.
    eapply write_trace_sizes; eauto; lia.
  - apply kernel_contract_cons in K. destruct K as [Kr K].
    apply kernel_contract_app in K. destruct K as [Kw K].
    destruct (read_contract _ _ Kr Hr) as [Kb Kl].
    pose proof (store_length buffer (rbytes r)). cbn.
    rewrite forallb_app, (IH K), andb_true_r.
    eapply write_trace_sizes; eauto; lia.
  - inversion D; reflexivity.
  - inversion D; reflexivity.
Qed.

(** X2. When the kernel keeps the contract of [read] and [write],
    every [write] of [handleClient] is given at least one byte and at
    most [BUFFER_SIZE] bytes: the range [buffer + total, n - total] is
    never empty and lies within the array. *)
Theorem handleClient_write_sizes
    (epoll_fd fd : Z) (buffer : list byte) (fuel : nat) (script : list reply)
    (tr : list entry) (o : outcome unit) :
  exec fuel (handleClient epoll_fd fd buffer) script = (tr, o) ->
  kernel_contract tr ->
  forallb write_size_ok tr = true.
Proof. intros E. eapply handler_trace_sizes, handleClient_exec_trace, E. Qed.

Lemma handleClient_write_sizes_witness :
  forallb write_size_ok again_trace = true.
Proof.
  apply (handleClient_write_sizes 3 5 zeros 10 again_script again_trace (Done tt)).
  - vm_compute. reflexivity.
  - vm_compute. reflexivity.
Defined.

Lemma slice_prefix {A : Type} (xs : list A) (k : Z) :
  slice xs 0 k ++ skipn (Z.to_nat k) xs = xs.
Proof. unfold slice. cbn. apply firstn_skipn. Qed.

Lemma handler_trace_echo_prefix epoll_fd fd buffer tr o :
  handler_trace epoll_fd fd buffer tr o ->
  kernel_contract tr -> writes_succeed tr ->
  exists rest, received fd tr = echoed fd tr ++ rest /\ (o = Done tt -> rest = []).
Proof.
  induction 1 as [buffer | buffer r ws Hr W | buffer r ws tr o Hr W H IH
                  | buffer r tl o Hr D | buffer r o Hr B | buffer r tl o Hr B D];
    intros K S.
  - exists []. split; [reflexivity | auto].
  - apply kernel_contract_cons in K. destruct K as [Kr K].
    destruct (read_contract _ _ Kr Hr) as [Kb Kl].
    pose proof (store_length buffer (rbytes r)) as Hl.
    destruct (write_trace_bytes _ _ _ _ _ _ W K) as (Le & Ew & Rw & _); [lia | lia |].
    pose proof (written_nonneg ws) as Hp.
    exists (skipn (Z.to_nat (written ws)) (rbytes r)).
    split; [|discriminate].
    rewrite echoed_cons, received_cons, Ew, Rw. cbn [bytes_out bytes_in app].
    rewrite Z.eqb_refl, (proj2 (Z.ltb_lt _ _) Hr). cbn [andb].
    rewrite app_nil_r, slice_store by lia. symmetry. apply slice_prefix.
  - apply kernel_contract_cons in K. destruct K as [Kr K].
    apply kernel_contract_app in K. destruct K as [Kw K].
    apply writes_succeed_cons in S. destruct S as [_ S].
    apply writes_succeed_app in S. destruct S as [Sw S].
    destruct (read_contract _ _ Kr Hr) as [Kb Kl].
    pose proof (store_length buffer (rbytes r)) as Hl.
    destruct (write_trace_bytes _ _ _ _ _ _ W Kw) as (_ & Ew & Rw & Full); [lia | lia |].
    specialize (Full Sw eq_refl). cbn in Full.
    destruct (IH K S) as (rest & Er & Hd). exists rest. split; [|exact Hd].
    rewrite echoed_cons, received_cons, echoed_app, received_app, Ew, Rw, Er.
    cbn [bytes_out bytes_in app]. rewrite Z.eqb_refl, (proj2 (Z.ltb_lt _ _) Hr).
    cbn [andb]. rewrite Full, slice_store by lia. rewrite slice_all by exact Kl.
    now rewrite app_assoc.
  - exists []. split; [|auto].
    rewrite echoed_cons, received_cons. destruct (drop_trace_bytes _ _ _ _ D) as [-> ->].
    cbn. rewrite Z.eqb_refl.
    now replace (0 <? ret r) with false by (symmetry; apply Z.ltb_ge; lia).
  - exists []. split; [|auto]. cbn. rewrite Z.eqb_refl.
    now replace (0 <? ret r) with false by (symmetry; apply Z.ltb_ge; lia).
  - exists []. split; [|auto].
    rewrite echoed_cons, received_cons. destruct (drop_trace_bytes _ _ _ _ D) as [-> ->].
    cbn. rewrite Z.eqb_refl.
    now replace (0 <? ret r) with false by (symmetry; apply Z.ltb_ge; lia).
Qed.

(** X3. At every moment of an invocation in which no write fails, the
    bytes written back so far are a prefix of the bytes read so far:
    [handleClient] writes nothing it has not read and keeps the order,
    also while a chunk is only partly written. *)
Theorem echo_is_prefix_of_input
    (epoll_fd fd : Z) (buffer : list byte) (fuel : nat) (script : list reply)
    (tr : list entry) (o : outcome unit) :
  exec fuel (handleClient epoll_fd fd buffer) script = (tr, o) ->
  kernel_contract tr -> writes_succeed tr ->
  exists rest, received fd tr = echoed fd tr ++ rest.
Proof.
  intros E K S. apply handleClient_exec_trace in E.
  destruct (handler_trace_echo_prefix _ _ _ _ _ E K S) as (rest & Er & _).
  now exists rest.
Qed.

Lemma echo_is_prefix_of_input_witness :
  exists rest,
    received 5 [Sys (Read 5 BUFFER_SIZE) (data [x68; x69]);
                Sys (Write 5 [x68; x69]) (ok 1)] =
    echoed 5 [Sys (Read 5 BUFFER_SIZE) (data [x68; x69]);
              Sys (Write 5 [x68; x69]) (ok 1)] ++ rest.
Proof.
  apply (echo_is_prefix_of_input 3 5 zeros 10 [data [x68; x69]; ok 1]
           _ Pending).
  - vm_compute. reflexivity.
  - vm_compute. reflexivity.
  - vm_compute. reflexivity.
Defined.

(* ================================================================= *)
(** ** More on the reactor *)

Lemma snb_trace_reactor_calls epoll_fd listen_fd fd s o :
  snb_trace fd s o -> forallb (reactor_call epoll_fd listen_fd) s = true.
Proof. inversion 1; reflexivity. Qed.

Lemma accept_trace_reactor_calls epoll_fd listen_fd tr o :
  accept_trace epoll_fd listen_fd tr o ->
  forallb (reactor_call epoll_fd listen_fd) tr = true.
Proof.
  induction 1 as [ | a0 o Ha B | a0 Ha B | a0 o Ha B | a0 s o' Ha Hs
                   | a0 s v c tr o Ha Hs H IH];
    cbn; rewrite ?Z.eqb_refl; cbn; auto.
  - eapply snb_trace_reactor_calls; eauto.
  - rewrite forallb_app. cbn. rewrite !Z.eqb_refl, IH. cbn.
    rewrite andb_true_r. eapply snb_trace_reactor_calls; eauto.
Qed.

Lemma events_trace_reactor_calls epoll_fd listen_fd evs nfds i tr o :
  events_trace epoll_fd listen_fd evs nfds i tr o ->
  forallb (reactor_call epoll_fd listen_fd) tr = true.
Proof.
  induction 1 as [i | i o Hi | i d Hi E Hd | i d tr o Hi E Hd H IH | i tr o Hi E H IH];
    auto.
  - eapply accept_trace_reactor_calls; eauto.
  - rewrite forallb_app, IH, andb_true_r. eapply accept_trace_reactor_calls; eauto.
Qed.

Lemma loop_trace_reactor_calls epoll_fd listen_fd evs tr o :
  loop_trace epoll_fd listen_fd evs tr o ->
  forallb (reactor_call epoll_fd listen_fd) tr = true.
Proof.
  induction 1 as [evs | evs w0 tr o Hw E H IH | evs w0 Hw E | evs w0 o Hw E
                  | evs w0 body Hw B | evs w0 body tr o Hw B H IH];
    cbn; rewrite ?Z.eqb_refl; cbn; auto.
  - eapply events_trace_reactor_calls; eauto.
  - rewrite forallb_app, IH, andb_true_r. eapply events_trace_reactor_calls; eauto.
Qed.

(** X4. The reactor does no I/O on connections: [epollLoop] calls
    nothing but [epoll_wait] on its epoll instance (with [MAX_EVENTS] and
    no timeout), [accept] on the listening socket, [fcntl], and
    [epoll_ctl] to add a descriptor for [EPOLLIN | EPOLLET] with the
    descriptor as event data.  It never reads, writes, closes, or
    removes a registration. *)
Theorem epollLoop_calls
    (epoll_fd listen_fd : Z) (evs : list epoll_event) (fuel : nat)
    (script : list reply) (tr : list entry) (o : outcome unit) :
  exec fuel (epollLoop epoll_fd listen_fd evs) script = (tr, o) ->
  forallb (reactor_call epoll_fd listen_fd) tr = true.
Proof. intros E. eapply loop_trace_reactor_calls, epollLoop_exec_trace, E. Qed.

Lemma epollLoop_calls_witness :
  forallb (reactor_call 4 3) reactor_trace = true.
Proof.
  apply (epollLoop_calls 4 3 [] 30 reactor_script reactor_trace (Done tt)).
  vm_compute. reflexivity.
Defined.

Lemma enqueued_app tr1 tr2 : enqueued (tr1 ++ tr2) = enqueued tr1 ++ enqueued tr2.
Proof.
  induction tr1 as [|[c r|[]] tr1 IH]; cbn; auto. now rewrite IH.
Qed.

Lemma enqueued_none tr :
  forallb (fun e => negb (is_wait e) && negb (is_enqueue e)) tr = true ->
  enqueued tr = [].
Proof.
  induction tr as [|[c r|[]] tr IH]; cbn; auto; try discriminate.
  all: intros H; apply andb_true_iff in H; destruct H as [_ H]; auto.
Qed.

Lemma slice_step {A : Type} (xs : list A) (d : A) (i n : Z) :
  0 <= i -> i < n -> n <= Z.of_nat (List.length xs) ->
  slice xs i (n - i) = nth (Z.to_nat i) xs d :: slice xs (i + 1) (n - (i + 1)).
Proof.
  intros Hi Hn Hl. unfold slice.
  replace (Z.to_nat (n - i)) with (S (Z.to_nat (n - (i + 1)))) by lia.
  replace (Z.to_nat (i + 1)) with (S (Z.to_nat i)) by lia.
  assert (Z.to_nat i < List.length xs)%nat as Hlt by lia.
  revert Hlt. generalize (Z.to_nat i) as k. clear. intros k.
  revert xs. induction k as [|k IH]; intros [|x xs] Hlt; cbn in *; try lia.
  - reflexivity.
  - apply IH. lia.
Qed.

Lemma events_trace_enqueued epoll_fd listen_fd evs nfds i tr o :
  events_trace epoll_fd listen_fd evs nfds i tr o ->
  o = Done tt -> 0 <= i -> nfds <= Z.of_nat (List.length evs) ->
  enqueued tr =
  map (HandleClient epoll_fd)
      (filter (fun fd => negb (fd =? listen_fd))
              (map data_fd (slice evs i (nfds - i)))).
Proof.
  induction 1 as [i | i o Hi | i d Hi E Hd | i d tr o Hi E Hd H IH | i tr o Hi E H IH];
    intros Eo H0 Hl; try discriminate.
  - unfold slice. now replace (Z.to_nat (nfds - i)) with O by lia.
  - rewrite (slice_step evs no_event) by lia. cbn [map filter].
    fold (event_fd evs i). rewrite E, Z.eqb_refl. cbn [negb].
    rewrite enqueued_app, (enqueued_none d) by (eapply accept_trace_calls; eauto).
    apply IH; auto; lia.
  - rewrite (slice_step evs no_event) by lia. cbn [map filter enqueued].
    fold (event_fd evs i). rewrite (proj2 (Z.eqb_neq _ _) E). cbn [negb map].
    f_equal. apply IH; auto; lia.
Qed.

(** X5. One pass over [nfds] ready events (the kernel having filled at
    least [nfds] cells) gives the pool one task for each event whose
    descriptor is not the listening one, in the order of the events, and
    no other task. *)
Theorem for_events_enqueues_clients_in_order
    (epoll_fd listen_fd : Z) (evs : list epoll_event) (nfds : Z) (fuel : nat)
    (script : list reply) (tr : list entry) :
  exec fuel (for_events epoll_fd listen_fd evs nfds) script = (tr, Done tt) ->
  nfds <= Z.of_nat (List.length evs) ->
  enqueued tr =
  map (HandleClient epoll_fd)
      (filter (fun fd => negb (fd =? listen_fd))
              (map data_fd (firstn (Z.to_nat nfds) evs))).
Proof.
  intros E Hl. apply exec_runs, for_events_trace in E.
  rewrite (events_trace_enqueued _ _ _ _ _ _ _ E eq_refl) by (auto; lia).
  unfold slice. cbn. now rewrite Z.sub_0_r.
Qed.

Lemma for_events_enqueues_clients_in_order_witness :
  enqueued
    (fst (exec 20 (for_events 4 3 [EpollEvent 1 7; EpollEvent 1 3; EpollEvent 1 9] 3)
            [failed EAGAIN])) =
  [HandleClient 4 7; HandleClient 4 9].
Proof.
  apply (for_events_enqueues_clients_in_order 4 3
           [EpollEvent 1 7; EpollEvent 1 3; EpollEvent 1 9] 3 20 [failed EAGAIN]).
  - vm_compute. reflexivity.
  - vm_compute. discriminate.
Defined.

Lemma snb_trace_fresh fd s o : snb_trace fd s o -> accepted s = [] /\ registered s = [].
Proof. inversion 1; auto. Qed.

Lemma accepted_app tr1 tr2 : accepted (tr1 ++ tr2) = accepted tr1 ++ accepted tr2.
Proof.
  induction tr1 as [|[[] r|x] tr1 IH]; cbn; auto.
  destruct (ret r <? 0); cbn; now rewrite IH.
Qed.

Lemma registered_app tr1 tr2 :
  registered (tr1 ++ tr2) = registered tr1 ++ registered tr2.
Proof.
  induction tr1 as [|[[] r|x] tr1 IH]; cbn; auto.
  destruct ev; cbn; now rewrite IH.
Qed.

Lemma accept_trace_registered epoll_fd listen_fd tr o :
  accept_trace epoll_fd listen_fd tr o ->
  exists rest,
    accepted tr = registered tr ++ rest /\
    (List.length rest <= 1)%nat /\ (o = Done tt -> rest = []).
Proof.
  induction 1 as [ | a0 o Ha B | a0 Ha B | a0 o Ha B | a0 s o' Ha Hs
                   | a0 s v c tr o Ha Hs H IH].
  - exists []. cbn. auto.
  - exists []. cbn. rewrite (proj2 (Z.ltb_lt _ _) Ha). auto.
  - exists []. cbn. rewrite (proj2 (Z.ltb_lt _ _) Ha). auto.
  - exists []. cbn. rewrite (proj2 (Z.ltb_lt _ _) Ha). auto.
  - exists [ret a0]. destruct (snb_trace_fresh _ _ _ Hs) as [As Rs].
    cbn. rewrite (proj2 (Z.ltb_ge _ _) Ha), As, Rs. cbn.
    split; [reflexivity|]. split; [lia | discriminate].
  - destruct IH as (rest & E & L & D). exists rest.
    destruct (snb_trace_fresh _ _ _ Hs) as [As Rs].
    cbn. rewrite (proj2 (Z.ltb_ge _ _) Ha), accepted_app, registered_app, As, Rs.
    cbn. rewrite E. auto.
Qed.

(** X6. The accept loop registers the descriptors it accepts, each
    once and in the order of acceptance, and registers nothing else:
    when the loop has returned the two lists are equal, and before that
    at most the descriptor accepted last is still to be registered. *)
Theorem accept_loop_registers_what_it_accepts
    (epoll_fd listen_fd : Z) (fuel : nat) (script : list reply)
    (tr : list entry) (o : outcome unit) :
  exec fuel (dispatch epoll_fd listen_fd listen_fd) script = (tr, o) ->
  exists rest,
    accepted tr = registered tr ++ rest /\
    (List.length rest <= 1)%nat /\ (o = Done tt -> rest = []).
Proof. intros E. eapply accept_trace_registered, accept_all_exec_trace, E. Qed.

Lemma accept_loop_registers_what_it_accepts_witness :
  exists rest,
    accepted accepting = registered accepting ++ rest /\
    (List.length rest <= 1)%nat /\ (Done tt = Done tt -> rest = []).
Proof.
  apply (accept_loop_registers_what_it_accepts 4 3 12
           [ok 8; ok 2; ok 0; ok 0; failed 24] accepting (Done tt)).
  vm_compute. reflexivity.
Defined.

(* ================================================================= *)
(** ** No loop spins *)

Section HaltFacts.
Context {R : Type}.
Implicit Types (t : itree sysE R) (tr : list entry) (o : outcome R).

Lemma halts_view t t' script tr o rest :
  view t = view t' -> halts t script tr o rest -> halts t' script tr o rest.
Proof.
  intros V H. destruct H.
  - apply halts_ret. congruence.
  - eapply halts_tau; eauto. congruence.
  - eapply halts_wait. rewrite <- V. eauto.
  - eapply halts_sys; eauto. congruence.
  - eapply halts_out; eauto. congruence.
Qed.

(** A run that has come to rest is what [exec] computes, from some
    number of steps on. *)
Lemma halts_exec t script tr o rest :
  halts t script tr o rest ->
  exists n, forall m, (n <= m)%nat -> exec m t script = (tr, o).
Proof.
  induction 1 as [t r script V | t t' script tr o rest V H [n IH] | t c k V
                  | t c k r script tr o rest V H [n IH]
                  | t x t' script tr o rest V H [n IH]].
  - exists 1%nat. intros [|m] Hm; [lia|]. cbn. now rewrite V.
  - exists (S n). intros [|m] Hm; [lia|]. cbn. rewrite V. apply IH. lia.
  - exists 1%nat. intros [|m] Hm; [lia|]. cbn. now rewrite V.
  - exists (S n). intros [|m] Hm; [lia|]. cbn. rewrite V, IH by lia. reflexivity.
  - exists (S n). intros [|m] Hm; [lia|]. cbn. rewrite V, IH by lia. reflexivity.
Qed.

Lemma halts_replies t script tr o rest :
  halts t script tr o rest ->
  script = replies tr ++ rest /\ (o = Pending -> rest = []).
Proof.
  induction 1 as [t r script V | t t' script tr o rest V H [IH1 IH2] | t c k V
                  | t c k r script tr o rest V H [IH1 IH2]
                  | t x t' script tr o rest V H [IH1 IH2]]; cbn.
  - split; [reflexivity | discriminate].
  - auto.
  - auto.
  - split; [now rewrite IH1 at 1 | auto].
  - auto.
Qed.

Lemma halts_shorter t script tr o rest :
  halts t script tr o rest -> (List.length rest <= List.length script)%nat.
Proof. induction 1; cbn; lia. Qed.
End HaltFacts.

Lemma halts_bind {R U : Type} (t : itree sysE R) (k : R -> itree sysE U)
    script tr r rest tr' o rest' :
  halts t script tr (Done r) rest -> halts (k r) rest tr' o rest' ->
  halts (ITree.bind t k) script (tr ++ tr') o rest'.
Proof.
  intros H. remember (Done r) as o1 eqn:Eo. revert Eo.
  induction H as [t r0 script V | t t' script tr o1 rest V H IH | t c h V
                  | t c h r0 script tr o1 rest V H IH
                  | t x t' script tr o1 rest V H IH]; intros Eo K; try discriminate.
  - inversion Eo; subst. cbn. eapply halts_view; [|exact K].
    rewrite view_bind, V. reflexivity.
  - eapply halts_tau; [rewrite view_bind, V; reflexivity|]. auto.
  - cbn. eapply halts_sys; [rewrite view_bind, V; reflexivity|]. cbn. auto.
  - cbn. eapply halts_out; [rewrite view_bind, V; reflexivity|]. auto.
Qed.

Lemma halts_bind_wait {R U : Type} (t : itree sysE R) (k : R -> itree sysE U)
    script tr rest :
  halts t script tr Pending rest -> halts (ITree.bind t k) script tr Pending rest.
Proof.
  intros H. remember Pending as o1 eqn:Eo. revert Eo.
  induction H as [t r0 script V | t t' script tr o1 rest V H IH | t c h V
                  | t c h r0 script tr o1 rest V H IH
                  | t x t' script tr o1 rest V H IH]; intros Eo; try discriminate.
  - eapply halts_tau; [rewrite view_bind, V; reflexivity|]. auto.
  - eapply halts_wait. rewrite view_bind, V. reflexivity.
  - eapply halts_sys; [rewrite view_bind, V; reflexivity|]. cbn. auto.
  - eapply halts_out; [rewrite view_bind, V; reflexivity|]. auto.
Qed.

Lemma rests_Ret {R : Type} (Q : outcome R -> list reply -> Prop) (r : R) script :
  Q (Done r) script -> rests Q (Ret r) script.
Proof. intros HQ. exists [], (Done r), script. split; [now apply halts_ret | exact HQ]. Qed.

Lemma rests_sys {R : Type} (Q : outcome R -> list reply -> Prop)
    c (k : reply -> itree sysE R) script :
  (script = [] -> Q Pending []) ->
  (forall r rest, script = r :: rest -> rests Q (k r) rest) ->
  rests Q (ITree.bind (sys c) k) script.
Proof.
  intros HQ K. destruct script as [|r script].
  - exists [], Pending, []. split; [|auto]. eapply halts_wait. reflexivity.
  - destruct (K r script eq_refl) as (tr & o & rest & H & HQ').
    exists (Sys c r :: tr), o, rest. split; [|exact HQ'].
    eapply halts_sys; [reflexivity|]. eapply halts_view; [|exact H]. reflexivity.
Qed.

Lemma rests_emit {R : Type} (Q : outcome R -> list reply -> Prop)
    x (k : unit -> itree sysE R) script :
  rests Q (k tt) script -> rests Q (ITree.bind (emit x) k) script.
Proof.
  intros (tr & o & rest & H & HQ).
  exists (Out x :: tr), o, rest. split; [|exact HQ].
  eapply halts_out; [reflexivity|]. eapply halts_view; [|exact H]. reflexivity.
Qed.

Lemma rests_bind {R U : Type} (Q' : outcome R -> list reply -> Prop)
    (Q : outcome U -> list reply -> Prop)
    (t : itree sysE R) (k : R -> itree sysE U) script :
  rests Q' t script ->
  (forall r rest, (List.length rest <= List.length script)%nat ->
                  Q' (Done r) rest -> rests Q (k r) rest) ->
  (forall rest, Q' Pending rest -> Q Pending rest) ->
  rests Q (ITree.bind t k) script.
Proof.
  intros (tr & [r|] & rest & H & HQ') K P.
  - destruct (K r rest (halts_shorter _ _ _ _ _ H) HQ') as (tr' & o & rest' & H' & HQ).
    exists (tr ++ tr'), o, rest'. split; [eapply halts_bind; eauto | exact HQ].
  - exists tr, Pending, rest. split; [now apply halts_bind_wait | auto].
Qed.

(** A loop in which every iteration that goes on has used a reply
    comes to rest on every script. *)
Lemma rests_iter {J R : Type} (step : J -> itree sysE (J + R)) :
  (forall i script, rests (uses_reply script) (step i) script) ->
  forall script i, rests any_rest (ITree.iter step i) script.
Proof.
  intros Hstep script.
  induction script as [script IH] using (induction_ltof1 _ (@List.length reply)).
  intros i.
  destruct (Hstep i script) as (tr & [[i'|r]|] & rest & H & Hlt).
  - destruct (IH rest (Hlt i' eq_refl) i') as (tr' & o' & rest' & H' & _).
    exists (tr ++ tr'), o', rest'. split; [|exact Logic.I].
    eapply halts_view; [symmetry; apply view_iter|].
    eapply halts_bind; [exact H|]. eapply halts_tau; [reflexivity | exact H'].
  - exists (tr ++ []), (Done r), rest. split; [|exact Logic.I].
    eapply halts_view; [symmetry; apply view_iter|].
    eapply halts_bind; [exact H|]. now apply halts_ret.
  - exists tr, Pending, rest. split; [|exact Logic.I].
    eapply halts_view; [symmetry; apply view_iter|]. now apply halts_bind_wait.
Qed.

Lemma write_back_rests fd buffer n script total :
  rests any_rest (ITree.iter (write_back_step fd buffer n) total) script.
Proof.
  revert script total. apply rests_iter. intros total script.
  unfold write_back_step. destruct (total <? n).
  - apply rests_sys; [intros _ i E; discriminate|].
    intros w rest ->. cbv zeta. destruct (ret w <=? 0).
    + apply rests_Ret. intros i E. discriminate.
    + apply rests_Ret. intros i _. cbn. lia.
  - apply rests_Ret. intros i E. discriminate.
Qed.

Lemma drop_connection_rests epoll_fd fd script :
  rests any_rest (drop_connection epoll_fd fd) script.
Proof.
  unfold drop_connection. apply rests_sys; [intros _; exact Logic.I|]. intros d rest _.
  apply rests_sys; [intros _; exact Logic.I|]. intros c rest' _.
  now apply rests_Ret.
Qed.

Lemma handleClient_rests epoll_fd fd script buffer :
  rests any_rest (handleClient epoll_fd fd buffer) script.
Proof.
  unfold handleClient. revert script buffer. apply rests_iter. intros buffer script.
  unfold handleClient_step. apply rests_sys; [intros _ i E; discriminate|].
  intros r rest ->. cbv zeta. destruct (0 <? ret r); [|destruct (ret r =? 0)].
  - eapply rests_bind; [apply write_back_rests | | intros ? _ i E; discriminate].
    intros [] rest' L _. apply rests_Ret. intros i _. cbn. lia.
  - eapply rests_bind; [apply drop_connection_rests | | intros ? _ i E; discriminate].
    intros [] rest' L _. apply rests_Ret. intros i E. discriminate.
  - destruct ((errno r =? EAGAIN) || (errno r =? EWOULDBLOCK)).
    + apply rests_Ret. intros i E. discriminate.
    + eapply rests_bind; [apply drop_connection_rests | | intros ? _ i E; discriminate].
      intros [] rest' L _. apply rests_Ret. intros i E. discriminate.
Qed.

(** X7. [handleClient] does not spin.  On every script of replies it
    comes to rest after finitely many steps: it has returned, or it has
    used every reply and stands in its next system call.  Each iteration
    of either of its loops makes a system call. *)
Theorem handleClient_comes_to_rest
    (epoll_fd fd : Z) (buffer : list byte) (script : list reply) :
  exists fuel tr o,
    (forall fuel', (fuel <= fuel')%nat ->
       exec fuel' (handleClient epoll_fd fd buffer) script = (tr, o)) /\
    (o = Done tt \/ (o = Pending /\ replies tr = script)).
Proof.
  destruct (handleClient_rests epoll_fd fd script buffer) as (tr & o & rest & H & _).
  destruct (halts_exec _ _ _ _ _ H) as [fuel E].
  destruct (halts_replies _ _ _ _ _ H) as [Es Ep].
  exists fuel, tr, o. split; [exact E|].
  destruct o as [[]|]; [now left|]. right. split; [reflexivity|].
  rewrite Es, (Ep eq_refl). now rewrite app_nil_r.
Qed.

Lemma rests_Tau {R : Type} (Q : outcome R -> list reply -> Prop)
    (t : itree sysE R) script :
  rests Q t script -> rests Q (Tau t) script.
Proof.
  intros (tr & o & rest & H & HQ). exists tr, o, rest.
  split; [eapply halts_tau; [reflexivity | exact H] | exact HQ].
Qed.

Lemma rests_emit_last (Q : outcome unit -> list reply -> Prop) x script :
  Q (Done tt) script -> rests Q (emit x) script.
Proof.
  intros HQ. exists [Out x], (Done tt), script. split; [|exact HQ].
  eapply halts_out; [reflexivity|]. now apply halts_ret.
Qed.

Lemma rests_iter_unfold {J R : Type} (Q : outcome R -> list reply -> Prop)
    (step : J -> itree sysE (J + R)) i script :
  rests Q (ITree.bind (step i)
             (fun lr => match lr with
                        | inl l => Tau (ITree.iter step l)
                        | inr r => Ret r
                        end)) script ->
  rests Q (ITree.iter step i) script.
Proof.
  intros (tr & o & rest & H & HQ). exists tr, o, rest. split; [|exact HQ].
  eapply halts_view; [symmetry; apply view_iter | exact H].
Qed.

Lemma setNonBlocking_rests fd script : rests any_rest (setNonBlocking fd) script.
Proof.
  unfold setNonBlocking. apply rests_sys; [intros _; exact Logic.I|].
  intros g rest _. cbv zeta. destruct (ret g =? -1).
  - now apply rests_Ret.
  - apply rests_sys; [intros _; exact Logic.I|]. intros s rest' _. now apply rests_Ret.
Qed.

Lemma accept_all_rests epoll_fd listen_fd script :
  rests any_rest (accept_all epoll_fd listen_fd) script.
Proof.
  unfold accept_all. generalize tt. revert script. apply rests_iter.
  intros [] script. unfold accept_step.
  apply rests_sys; [intros _ i E; discriminate|].
  intros a rest ->. cbv zeta. destruct (ret a <? 0).
  - destruct ((errno a =? EAGAIN) || (errno a =? EWOULDBLOCK)).
    + apply rests_Ret. intros i E. discriminate.
    + apply rests_emit. apply rests_Ret. intros i E. discriminate.
  - eapply rests_bind; [apply setNonBlocking_rests | | intros ? _ i E; discriminate].
    intros v rest' L _.
    apply rests_sys; [intros _ i E; discriminate|]. intros c rest'' ->.
    apply rests_Ret. intros i _. cbn in *. lia.
Qed.

Lemma dispatch_rests epoll_fd listen_fd fd script :
  rests any_rest (dispatch epoll_fd listen_fd fd) script.
Proof.
  unfold dispatch. destruct (fd =? listen_fd).
  - apply accept_all_rests.
  - now apply rests_emit_last.
Qed.

Lemma for_events_step_rests epoll_fd listen_fd evs nfds i script :
  rests (fun o _ => o = Pending \/ (i < nfds /\ o = Done (inl (i + 1))) \/
                    (nfds <= i /\ o = Done (inr tt)))
        (for_events_step epoll_fd listen_fd evs nfds i) script.
Proof.
  unfold for_events_step. destruct (i <? nfds) eqn:B.
  - apply Z.ltb_lt in B. cbv zeta.
    eapply rests_bind; [apply dispatch_rests | | auto].
    intros [] rest _ _. apply rests_Ret. auto.
  - apply Z.ltb_ge in B. apply rests_Ret. auto.
Qed.

Lemma for_events_rests epoll_fd listen_fd evs nfds (k : nat) :
  forall i script,
    Z.to_nat (nfds - i) = k ->
    rests any_rest (ITree.iter (for_events_step epoll_fd listen_fd evs nfds) i) script.
Proof.
  induction k as [|k IH]; intros i script Hk; apply rests_iter_unfold;
    (eapply rests_bind; [apply for_events_step_rests | | intros; exact Logic.I]);
    intros r rest _ [E | [[Hi E] | [Hi E]]]; try discriminate;
    inversion E; subst; try lia.
  - now apply rests_Ret.
  - apply rests_Tau. apply IH. lia.
Qed.

Lemma epollLoop_rests epoll_fd listen_fd script evs :
  rests any_rest (epollLoop epoll_fd listen_fd evs) script.
Proof.
  unfold epollLoop. revert script evs. apply rests_iter. intros evs script.
  unfold epollLoop_step. apply rests_sys; [intros _ i E; discriminate|].
  intros w rest ->. cbv zeta. destruct (ret w <? 0).
  - destruct (errno w =? EINTR).
    + apply rests_Ret. intros i _. cbn. lia.
    + apply rests_emit. apply rests_Ret. intros i E. discriminate.
  - eapply rests_bind;
      [eapply for_events_rests; reflexivity | | intros ? _ i E; discriminate].
    intros [] rest' L _. apply rests_Ret. intros i _. cbn. lia.
Qed.

(** X8. The reactor does not spin.  On every script of replies
    [epollLoop] comes to rest after finitely many steps: it has returned
    (after a failed wait), or it has used every reply and stands in a
    system call.  Every iteration of the reactor loop and of the accept
    loop makes a system call, and the loop over the ready events ends
    after [nfds] iterations. *)
Theorem epollLoop_comes_to_rest
    (epoll_fd listen_fd : Z) (evs : list epoll_event) (script : list reply) :
  exists fuel tr o,
    (forall fuel', (fuel <= fuel')%nat ->
       exec fuel' (epollLoop epoll_fd listen_fd evs) script = (tr, o)) /\
    (o = Done tt \/ (o = Pending /\ replies tr = script)).
Proof.
  destruct (epollLoop_rests epoll_fd listen_fd script evs) as (tr & o & rest & H & _).
  destruct (halts_exec _ _ _ _ _ H) as [fuel E].
  destruct (halts_replies _ _ _ _ _ H) as [Es Ep].
  exists fuel, tr, o. split; [exact E|].
  destruct o as [[]|]; [now left|]. right. split; [reflexivity|].
  rewrite Es, (Ep eq_refl). now rewrite app_nil_r.
Qed.

(* ================================================================= *)
(** ** More on [main] *)

Lemma runs_sleeping n tr (o : outcome Z) :
  runs n (ITree.forever (emit (SleepFor 1))) tr o ->
  exists k, tr = repeat (Out (SleepFor 1)) k.
Proof.
  revert tr o. induction n as [n IH] using lt_wf_ind. intros tr o H.
  apply (runs_view _ _ _ _ _ (view_forever _)) in H.
  run_inv H; [now exists O|].
  apply runs_Tau_inv in H. destruct H as [[-> _] | (m' & -> & H)]; [now exists 1%nat|].
  destruct (IH m' ltac:(lia) _ _ H) as [k ->]. now exists (S k).
Qed.

Lemma snb_trace_done fd s v :
  snb_trace fd s (Done v) ->
  exists nb, s = snb_calls fd nb /\ snb_replies nb = true.
Proof.
  intros H. inversion H as [ | g o Hg Ho | g Hg | g f o Hg Ho ]; subst.
  - exists [g]. split; [reflexivity|]. cbn. now apply Z.eqb_eq.
  - exists [g; f]. split; [reflexivity|]. cbn. apply negb_true_iff.
    now apply Z.eqb_neq.
Qed.

Ltac no_spawn H :=
  exfalso; cbn in H;
  repeat match type of H with
         | _ \/ _ => destruct H as [H | H]; [discriminate H|]
         | False => exact H
         end.

(** X9. In every run of [main] that starts the reactor thread, the
    thread is started once, on the descriptors that [socket] and
    [epoll_create1] returned, after [bind] (to port 9090 in network byte
    order, any address), [listen] and [epoll_create1] have succeeded,
    after the [epoll_ctl] that registers the listening socket for
    [EPOLLIN | EPOLLET], and after the pool of [THREAD_POOL_SIZE] workers
    was made; afterwards [main] prints its banner and sleeps. *)
Theorem main_starts_reactor_on_its_descriptors
    (fuel : nat) (script : list reply) (tr : list entry) (o : outcome Z)
    (th : thread_body) :
  exec fuel main script = (tr, o) ->
  In (Out (SpawnDetached th)) tr ->
  exists s x b l nb c r post,
    tr = listening s x b l ++ snb_calls (ret s) nb ++ starting (ret s) c r ++ post /\
    th = EpollLoop (ret c) (ret s) /\
    0 <= ret s /\ 0 <= ret b /\ 0 <= ret l /\ snb_replies nb = true /\ 0 <= ret c /\
    (post = [] \/ exists k, post = serving k).
Proof.
  intros E HIn. apply exec_runs in E. revert E. unfold main. intros H.
  run_inv H; [no_spawn HIn|]. run_inv H.
  { run_inv H; [no_spawn HIn|]. run_inv H. no_spawn HIn. }
  apply Z.ltb_ge in B.
  run_inv H; [no_spawn HIn|]. run_inv H; [no_spawn HIn|]. run_inv H.
  { run_inv H; [no_spawn HIn|]. run_inv H. no_spawn HIn. }
  apply Z.ltb_ge in B0.
  run_inv H; [no_spawn HIn|]. run_inv H.
  { run_inv H; [no_spawn HIn|]. run_inv H. no_spawn HIn. }
  apply Z.ltb_ge in B1.
  apply runs_bind_inv in H.
  destruct H as [[_ H] | (tr1 & tr2 & v & k & -> & H1 & H & _)].
  { apply setNonBlocking_trace in H. exfalso.
    inversion H; subst; cbn in HIn; intuition discriminate. }
  apply setNonBlocking_trace, snb_trace_done in H1. destruct H1 as (nb & -> & Hnb).
  assert (HIn' : In (Out (SpawnDetached th)) tr2).
  { cbn in HIn. repeat (destruct HIn as [HIn | HIn]; [discriminate HIn|]).
    apply in_app_or in HIn. destruct HIn as [HIn | HIn]; [|exact HIn].
    exfalso. destruct nb as [|g [|f [|? ?]]]; cbn in HIn; intuition discriminate. }
  clear HIn.
  run_inv H; [no_spawn HIn'|]. run_inv H.
  { run_inv H; [no_spawn HIn'|]. run_inv H. no_spawn HIn'. }
  apply Z.ltb_ge in B2.
  run_inv H; [no_spawn HIn'|]. run_inv H; [no_spawn HIn'|].
  run_inv H; [no_spawn HIn'|].
  exists r, r0, r1, r2, nb, r3, r4.
  assert (Hth : forall j, In (Out (SpawnDetached th))
                  (starting (ret r) r3 r4 ++ serving j) ->
                th = EpollLoop (ret r3) (ret r)).
  { intros j Hj. cbn in Hj.
    repeat (destruct Hj as [Hj | Hj]; try discriminate Hj).
    - now inversion Hj.
    - exfalso. clear -Hj. induction j as [|j IH]; cbn in Hj; [contradiction|].
      destruct Hj as [Hj | Hj]; [discriminate | auto]. }
  run_inv H.
  { exists []. repeat split; auto. apply (Hth O).
    apply in_or_app. left. exact HIn'. }
  destruct (runs_sleeping _ _ _ H) as [j ->].
  exists (serving j). repeat split; eauto.
  apply (Hth j). exact HIn'.
Qed.

Lemma main_starts_reactor_on_its_descriptors_witness :
  exists s x b l nb c r post,
    registration_failure_trace =
    listening s x b l ++ snb_calls (ret s) nb ++ starting (ret s) c r ++ post /\
    EpollLoop 4 3 = EpollLoop (ret c) (ret s) /\
    0 <= ret s /\ 0 <= ret b /\ 0 <= ret l /\ snb_replies nb = true /\ 0 <= ret c /\
    (post = [] \/ exists k, post = serving k).
Proof.
  apply (main_starts_reactor_on_its_descriptors 14 registration_failure_script
           registration_failure_trace Pending (EpollLoop 4 3)).
  - vm_compute. reflexivity.
  - cbn. tauto.
Defined.

(* ================================================================= *)
(** ** More on [setNonBlocking] *)

Lemma failed_fcntl_effect (settable : Z) (T : flag_table) (fd cmd arg : Z) (r : reply) :
  ret r = -1 -> fcntl_effect settable T (Sys (Fcntl fd cmd arg) r) = T.
Proof.
  intros F. unfold fcntl_effect. rewrite F. cbn. rewrite andb_false_r.
  destruct (T fd); reflexivity.
Qed.

(** X10. [setNonBlocking] makes no call but [fcntl] on [fd]: the
    [F_GETFL], and after its success the [F_SETFL] of the flags it got
    with [O_NONBLOCK] added, whose result it returns.  When it returns
    -1, whichever of the two calls failed, no file status flag of any
    descriptor has changed. *)
Theorem setNonBlocking_failure_changes_nothing
    (settable : Z) (T : flag_table) (fd : Z) (fuel : nat) (script : list reply)
    (tr : list entry) (v : Z) :
  exec fuel (setNonBlocking fd) script = (tr, Done v) ->
  ((exists g, tr = [Sys (Fcntl fd F_GETFL 0) g] /\ ret g = -1 /\ v = -1) \/
   (exists g s, tr = [Sys (Fcntl fd F_GETFL 0) g;
                      Sys (Fcntl fd F_SETFL (Z.lor (ret g) O_NONBLOCK)) s] /\
                ret g <> -1 /\ v = ret s)) /\
  (v = -1 -> forall x, flags_after settable T tr x = T x).
Proof.
  intros E. apply exec_runs, setNonBlocking_trace in E.
  inversion E as [ | g o Hg [? | Eo] | g Hg | g s o Hg [? | Eo] ]; subst;
    try discriminate; inversion Eo; subst; clear Eo.
  - split; [left; eauto|]. intros _ x. cbn [flags_after]. now rewrite getfl_effect.
  - split; [right; eauto|]. intros F x. cbn [flags_after].
    now rewrite getfl_effect, failed_fcntl_effect.
Qed.

Lemma setNonBlocking_failure_changes_nothing_witness :
  flags_after linux_settable one_socket
    [Sys (Fcntl 5 F_GETFL 0) (ok 2); Sys (Fcntl 5 F_SETFL 2050) (failed 9)] 5 =
  one_socket 5.
Proof.
  refine (proj2 (setNonBlocking_failure_changes_nothing linux_settable one_socket 5 5
                   [ok 2; failed 9]
                   [Sys (Fcntl 5 F_GETFL 0) (ok 2); Sys (Fcntl 5 F_SETFL 2050) (failed 9)]
                   (-1) _) _ 5).
  - vm_compute. reflexivity.
  - reflexivity.
Defined.

Lemma flags_after_app (settable : Z) (T : flag_table) (tr1 tr2 : list entry) :
  flags_after settable T (tr1 ++ tr2) =
  flags_after settable (flags_after settable T tr1) tr2.
Proof. revert T. induction tr1 as [|e tr1 IH]; intros T; cbn; auto. Qed.

Lemma agrees_app (settable : Z) (T : flag_table) (tr1 tr2 : list entry) :
  agrees settable T (tr1 ++ tr2) <->
  agrees settable T tr1 /\ agrees settable (flags_after settable T tr1) tr2.
Proof.
  revert T. induction tr1 as [|e tr1 IH]; intros T; cbn; [tauto|].
  rewrite IH. tauto.
Qed.

Lemma setNonBlocking_success (settable : Z) (T : flag_table) fd tr v :
  Z.land O_NONBLOCK settable = O_NONBLOCK ->
  snb_trace fd tr (Done v) -> agrees settable T tr -> v <> -1 ->
  exists old,
    T fd = Some old /\
    forall x, flags_after settable T tr x = set_flags T fd (Z.lor old O_NONBLOCK) x.
Proof.
  intros M E A N.
  inversion E as [ | g o Hg [? | Eo] | g Hg | g s o Hg [? | Eo] ]; subst;
    try discriminate; inversion Eo; subst; clear Eo; [congruence|].
  cbn in A. destruct A as (Ag & _).
  destruct (Ag Hg) as (old & Hold & Hret). specialize (Hret eq_refl).
  exists old. split; [exact Hold|]. intros x.
  cbn [flags_after]. rewrite getfl_effect, (setfl_effect _ _ _ _ old) by auto.
  now rewrite Hret, setfl_adds_nonblock by exact M.
Qed.

(** X11. [setNonBlocking] is idempotent: a second successful call on
    the same descriptor leaves every file status flag as the first call
    left it. *)
Theorem setNonBlocking_idempotent
    (settable : Z) (T : flag_table) (fd : Z) (fuel1 fuel2 : nat)
    (script1 script2 : list reply) (tr1 tr2 : list entry) (v1 v2 : Z) :
  Z.land O_NONBLOCK settable = O_NONBLOCK ->
  exec fuel1 (setNonBlocking fd) script1 = (tr1, Done v1) ->
  exec fuel2 (setNonBlocking fd) script2 = (tr2, Done v2) ->
  agrees settable T (tr1 ++ tr2) ->
  v1 <> -1 -> v2 <> -1 ->
  forall x, flags_after settable T (tr1 ++ tr2) x = flags_after settable T tr1 x.
Proof.
  intros M E1 E2 A N1 N2 x.
  apply exec_runs, setNonBlocking_trace in E1.
  apply exec_runs, setNonBlocking_trace in E2.
  apply agrees_app in A. destruct A as [A1 A2].
  destruct (setNonBlocking_success _ _ _ _ _ M E1 A1 N1) as (old & Hold & F1).
  destruct (setNonBlocking_success _ _ _ _ _ M E2 A2 N2) as (old' & Hold' & F2).
  rewrite flags_after_app, F2. rewrite F1 in Hold'. unfold set_flags in Hold'.
  rewrite Z.eqb_refl in Hold'. inversion Hold'; subst old'.
  unfold set_flags. destruct (x =? fd) eqn:B; [|reflexivity].
  apply Z.eqb_eq in B. subst x. rewrite F1. unfold set_flags. rewrite Z.eqb_refl.
  f_equal. rewrite <- Z.lor_assoc. now rewrite Z.lor_diag.
Qed.

Lemma setNonBlocking_idempotent_witness :
  flags_after linux_settable one_socket
    ([Sys (Fcntl 5 F_GETFL 0) (ok 2); Sys (Fcntl 5 F_SETFL 2050) (ok 0)] ++
     [Sys (Fcntl 5 F_GETFL 0) (ok 2050); Sys (Fcntl 5 F_SETFL 2050) (ok 0)]) 5 =
  flags_after linux_settable one_socket
    [Sys (Fcntl 5 F_GETFL 0) (ok 2); Sys (Fcntl 5 F_SETFL 2050) (ok 0)] 5.
Proof.
  refine (setNonBlocking_idempotent linux_settable one_socket 5 5 5
            [ok 2; ok 0] [ok 2050; ok 0] _ _ 0 0 _ _ _ _ _ _ 5).
  - vm_compute. reflexivity.
  - vm_compute. reflexivity.
  - vm_compute. reflexivity.
  - cbn. repeat split; intros _.
    + exists 2. split; [reflexivity | intros _; reflexivity].
    + exists 2. split; [reflexivity | intros C; discriminate C].
    + exists 2050. split; [reflexivity | intros _; reflexivity].
    + exists 2050. split; [reflexivity | intros C; discriminate C].
  - discriminate.
  - discriminate.
Defined.

(* ================================================================= *)
(** ** The thread pool *)

Lemma set_worker_length i w ws : List.length (set_worker i w ws) = List.length ws.
Proof.
  revert i. induction ws as [|w' ws IH]; intros [|i]; cbn; auto.
Qed.

Lemma busy_bound ws : (busy ws <= List.length ws)%nat.
Proof. induction ws as [|[|t] ws IH]; cbn; lia. Qed.

Lemma busy_take i t ws :
  nth_error ws i = Some Waiting -> busy (set_worker i (Running t) ws) = S (busy ws).
Proof.
  revert i. induction ws as [|w ws IH]; intros [|i] E; cbn in *; try discriminate.
  - now inversion E.
  - destruct w; rewrite (IH _ E); reflexivity.
Qed.

Lemma busy_done i t ws :
  nth_error ws i = Some (Running t) -> S (busy (set_worker i Waiting ws)) = busy ws.
Proof.
  revert i. induction ws as [|w ws IH]; intros [|i] E; cbn in *; try discriminate.
  - now inversion E.
  - destruct w; rewrite <- (IH _ E); reflexivity.
Qed.

Lemma pool_step_inv a p p' l :
  pool_step a p = Some (p', l) ->
  (exists t, a = Enq t /\ p' = enqueue t p /\ l = []) \/
  (exists i t q, a = Take i /\ nth_error (workers p) i = Some Waiting /\
                 tasks p = t :: q /\ l = [(i, t)] /\
                 p' = {| workers := set_worker i (Running t) (workers p); tasks := q |}) \/
  (exists i t, a = Finish i /\ nth_error (workers p) i = Some (Running t) /\ l = [] /\
               p' = {| workers := set_worker i Waiting (workers p); tasks := tasks p |}).
Proof.
  destruct a as [t | i | i]; cbn.
  - intros E. inversion E. left. eauto.
  - unfold worker_take. intros E.
    destruct (nth_error (workers p) i) as [[|t']|] eqn:N; try discriminate E.
    destruct (tasks p) as [|t q] eqn:Q; try discriminate E.
    inversion E. right. left. exists i, t, q. auto.
  - unfold worker_done. intros E.
    destruct (nth_error (workers p) i) as [[|t']|] eqn:N; try discriminate E.
    inversion E. right. right. exists i, t'. auto.
Qed.

Lemma pool_run_cons a sched p p' log :
  pool_run (a :: sched) p = Some (p', log) ->
  exists p1 l l', pool_step a p = Some (p1, l) /\
                  pool_run sched p1 = Some (p', l') /\ log = l ++ l'.
Proof.
  intros E. cbn [pool_run] in E.
  destruct (pool_step a p) as [[p1 l]|]; [|discriminate E].
  destruct (pool_run sched p1) as [[p2 l']|] eqn:R; [|discriminate E].
  inversion E. subst. exists p1, l, l'. auto.
Qed.

Lemma pool_run_fifo sched p0 p log :
  pool_run sched p0 = Some (p, log) ->
  map snd log ++ tasks p = tasks p0 ++ enqs sched.
Proof.
  revert p0 log. induction sched as [|a sched IH]; intros p0 log E.
  - inversion E. cbn. now rewrite app_nil_r.
  - apply pool_run_cons in E. destruct E as (p1 & l & l' & St & E & ->).
    apply IH in E. rewrite map_app, <- app_assoc, E.
    apply pool_step_inv in St.
    destruct St as [(t & -> & -> & ->) | [(i & t & q & -> & _ & Q & -> & ->)
                                         | (i & t & -> & _ & -> & ->)]]; cbn.
    + now rewrite <- app_assoc.
    + now rewrite Q.
    + reflexivity.
Qed.

Lemma pool_run_busy sched p0 p log :
  pool_run sched p0 = Some (p, log) ->
  List.length (workers p) = List.length (workers p0) /\
  (busy (workers p0) + List.length log = finishes sched + busy (workers p))%nat.
Proof.
  revert p0 log. induction sched as [|a sched IH]; intros p0 log E.
  - inversion E. cbn. split; [reflexivity | lia].
  - apply pool_run_cons in E. destruct E as (p1 & l & l' & St & E & ->).
    apply IH in E. destruct E as [L B]. rewrite L, length_app.
    apply pool_step_inv in St.
    destruct St as [(t & -> & -> & ->) | [(i & t & q & -> & N & Q & -> & ->)
                                         | (i & t & -> & N & -> & ->)]];
      cbn [workers enqueue finishes List.length] in *.
    + split; [reflexivity | lia].
    + rewrite set_worker_length. rewrite (busy_take _ _ _ N) in B.
      split; [reflexivity | lia].
    + rewrite set_worker_length. pose proof (busy_done _ _ _ N) as D.
      split; [reflexivity | lia].
Qed.

Lemma busy_repeat n : busy (repeat Waiting n) = O.
Proof. induction n; cbn; auto. Qed.

(** X12. The pool starts tasks in the order of their [enqueue], each
    once: at every moment the tasks started so far, in the order of
    their start, followed by the queue, are the tasks enqueued so far,
    in the order of the calls.  No task is lost, doubled or overtaken. *)
Theorem pool_starts_tasks_in_fifo_order
    (n : nat) (sched : list action) (p : ThreadPool) (log : list (nat * task)) :
  pool_run sched (ThreadPool_init n) = Some (p, log) ->
  map snd log ++ tasks p = enqs sched.
Proof. intros E. apply pool_run_fifo in E. exact E. Qed.

Lemma pool_starts_tasks_in_fifo_order_witness :
  map snd [(1%nat, HandleClient 4 7); (0%nat, HandleClient 4 8)] ++ [HandleClient 4 7] =
  enqs [Enq (HandleClient 4 7); Take 1; Enq (HandleClient 4 8); Enq (HandleClient 4 7);
        Finish 1; Take 0].
Proof.
  apply (pool_starts_tasks_in_fifo_order 2
           [Enq (HandleClient 4 7); Take 1; Enq (HandleClient 4 8);
            Enq (HandleClient 4 7); Finish 1; Take 0]
           {| workers := [Running (HandleClient 4 8); Waiting];
              tasks := [HandleClient 4 7] |}).
  vm_compute. reflexivity.
Defined.

(** X13. A pool of [n] workers keeps its [n] workers and runs at most
    [n] tasks at a time: the tasks started are those that have returned
    and those the workers are running, and no more than [n] are
    running. *)
Theorem pool_runs_at_most_n_tasks
    (n : nat) (sched : list action) (p : ThreadPool) (log : list (nat * task)) :
  pool_run sched (ThreadPool_init n) = Some (p, log) ->
  List.length (workers p) = n /\
  List.length log = (finishes sched + busy (workers p))%nat /\
  (List.length log - finishes sched <= n)%nat.
Proof.
  intros E. apply pool_run_busy in E. destruct E as [L B].
  cbn [workers ThreadPool_init] in *. rewrite repeat_length in L.
  rewrite busy_repeat in B. pose proof (busy_bound (workers p)) as U.
  repeat split; lia.
Qed.

Lemma pool_runs_at_most_n_tasks_witness :
  List.length [Running (HandleClient 4 8); Waiting] = 2%nat /\
  List.length [(1%nat, HandleClient 4 7); (0%nat, HandleClient 4 8)] =
    (1 + busy [Running (HandleClient 4 8); Waiting])%nat /\
  (List.length [(1%nat, HandleClient 4 7); (0%nat, HandleClient 4 8)] - 1 <= 2)%nat.
Proof.
  apply (pool_runs_at_most_n_tasks 2
           [Enq (HandleClient 4 7); Take 1; Enq (HandleClient 4 8);
            Enq (HandleClient 4 7); Finish 1; Take 0]
           {| workers := [Running (HandleClient 4 8); Waiting];
              tasks := [HandleClient 4 7] |}).
  vm_compute. reflexivity.
Defined.

Lemma enqueued_In t tr : In t (enqueued tr) -> In (Out (Enqueue t)) tr.
Proof.
  induction tr as [|e tr IH]; cbn; [tauto|].
  destruct e as [c r | [m | m | k | t' | b | z]]; cbn; auto.
  intros [-> | I]; auto.
Qed.

(** X14. The workers of a pool fed by the reactor run nothing but
    [handleClient] on the reactor's epoll instance, for descriptors
    other than the listening one, and only tasks the reactor enqueued;
    whatever such a task is answered, it makes no call but [read],
    [write] and [close] on its own descriptor and the [epoll_ctl] that
    deletes it: no worker touches the listening socket. *)
Theorem workers_run_clients_of_the_reactor
    (epoll_fd listen_fd : Z) (evs : list epoll_event) (fuel : nat)
    (script : list reply) (tr : list entry) (o : outcome unit)
    (n : nat) (sched : list action) (p : ThreadPool) (log : list (nat * task))
    (i : nat) (t : task) :
  exec fuel (epollLoop epoll_fd listen_fd evs) script = (tr, o) ->
  enqs sched = enqueued tr ->
  pool_run sched (ThreadPool_init n) = Some (p, log) ->
  In (i, t) log ->
  exists fd,
    t = HandleClient epoll_fd fd /\ fd <> listen_fd /\
    In (Out (Enqueue t)) tr /\
    forall buffer fuel' script' tr' o',
      exec fuel' (task_body t buffer) script' = (tr', o') ->
      forallb (handler_call epoll_fd fd) tr' = true.
Proof.
  intros E Q R I.
  apply epollLoop_exec_trace, loop_trace_enqueues in E.
  apply pool_run_fifo in R. cbn in R. rewrite Q in R.
  assert (J : In (Out (Enqueue t)) tr).
  { apply enqueued_In. rewrite <- R. apply in_or_app. left.
    apply (in_map snd) in I. exact I. }
  rewrite forallb_forall in E. specialize (E _ J).
  destruct t as [e' fd]. cbn in E. apply andb_true_iff in E. destruct E as [E1 E2].
  apply Z.eqb_eq in E1. subst e'. apply negb_true_iff, Z.eqb_neq in E2.
  exists fd. repeat split; auto.
  intros buffer fuel' script' tr' o' H. cbn in H.
  eapply handler_trace_calls, handleClient_exec_trace, H.
Qed.

Lemma workers_run_clients_of_the_reactor_witness :
  exists fd,
    HandleClient 4 7 = HandleClient 4 fd /\ fd <> 3 /\
    In (Out (Enqueue (HandleClient 4 7))) reactor_trace /\
    forall buffer fuel' script' tr' o',
      exec fuel' (task_body (HandleClient 4 7) buffer) script' = (tr', o') ->
      forallb (handler_call 4 fd) tr' = true.
Proof.
  apply (workers_run_clients_of_the_reactor 4 3 [] 30 reactor_script reactor_trace
           (Done tt) 4 (map Enq (enqueued reactor_trace) ++ [Take 2])
           {| workers := [Waiting; Waiting; Running (HandleClient 4 7); Waiting];
              tasks := [] |}
           [(2%nat, HandleClient 4 7)] 2).
  - vm_compute. reflexivity.
  - vm_compute. reflexivity.
  - vm_compute. reflexivity.
  - left. reflexivity.
Defined.

Lemma one_client_round epoll_fd listen_fd evs fd tr o :
  fd <> listen_fd ->
  loop_trace epoll_fd listen_fd (store evs [EpollEvent EPOLLIN fd]) tr o ->
  loop_trace epoll_fd listen_fd evs
    (Sys (wait_call epoll_fd) (ready [EpollEvent EPOLLIN fd])
     :: Out (Enqueue (HandleClient epoll_fd fd)) :: tr) o.
Proof.
  intros N H.
  apply (lt_round epoll_fd listen_fd evs (ready [EpollEvent EPOLLIN fd])
           [Out (Enqueue (HandleClient epoll_fd fd))] tr o).
  - cbn. lia.
  - apply (et_client epoll_fd listen_fd (store evs [EpollEvent EPOLLIN fd]) 1 0
             [] (Done tt)).
    + lia.
    + exact N.
    + apply et_done. lia.
  - exact H.
Qed.

(** X15. Nothing keeps the tasks of one connection apart.  When two
    successive waits report the same connection (with edge-triggered
    notification: more data arrived after the first report), the
    reactor enqueues [handleClient] for it twice, and in a pool of two
    workers or more both tasks can be running at the same time, on the
    same descriptor. *)
Theorem one_connection_on_two_workers
    (epoll_fd listen_fd fd : Z) (evs : list epoll_event) (n : nat) :
  fd <> listen_fd -> (2 <= n)%nat ->
  exists fuel script sched p log,
    exec fuel (epollLoop epoll_fd listen_fd evs) script =
      (ready_twice epoll_fd fd, Done tt) /\
    enqs sched = enqueued (ready_twice epoll_fd fd) /\
    pool_run sched (ThreadPool_init n) = Some (p, log) /\
    nth_error (workers p) 0 = Some (Running (HandleClient epoll_fd fd)) /\
    nth_error (workers p) 1 = Some (Running (HandleClient epoll_fd fd)).
Proof.
  intros N L.
  assert (T : loop_trace epoll_fd listen_fd evs (ready_twice epoll_fd fd) (Done tt)).
  { unfold ready_twice. apply one_client_round; [exact N|].
    apply one_client_round; [exact N|].
    apply lt_logged; cbn; [lia | discriminate]. }
  destruct (loop_trace_exec _ _ _ _ [] T) as [fuel E].
  destruct n as [|[|n]]; try lia.
  exists fuel, (replies (ready_twice epoll_fd fd) ++ []),
    [Enq (HandleClient epoll_fd fd); Enq (HandleClient epoll_fd fd); Take 0; Take 1],
    {| workers := Running (HandleClient epoll_fd fd)
                  :: Running (HandleClient epoll_fd fd) :: repeat Waiting n;
       tasks := [] |},
    [(0%nat, HandleClient epoll_fd fd); (1%nat, HandleClient epoll_fd fd)].
  repeat split; auto.
Qed.

Lemma one_connection_on_two_workers_witness :
  exists fuel script sched p log,
    exec fuel (epollLoop 4 3 []) script = (ready_twice 4 7, Done tt) /\
    enqs sched = enqueued (ready_twice 4 7) /\
    pool_run sched (ThreadPool_init 4) = Some (p, log) /\
    nth_error (workers p) 0 = Some (Running (HandleClient 4 7)) /\
    nth_error (workers p) 1 = Some (Running (HandleClient 4 7)).
Proof.
  apply (one_connection_on_two_workers 4 3 7 [] 4); [discriminate | lia].
Defined.
